(** * ioBroker.bluetooth: the BlueZ device manager and the HFP engine

  A shallow embedding of [lib/bluezManager.js] and [lib/hfpProfile.js]
  and the properties their specification states about them.

  Conventions of the embedding.
  - JavaScript strings are [string]s; the character classes of the
    source's regular expressions and [toUpperCase]/[toLowerCase] are
    taken on ASCII, which is the alphabet of MAC addresses, D-Bus object
    paths and AT command lines.
  - A JavaScript [Map] or an object used as a dictionary is a [gmap].
  - Objects that closures and timers keep a reference to (an HFP
    connection record) live in a store and are named by a reference.
  - Logging is not part of the state: the logger is a collaborator that
    only receives text. *)

From Stdlib Require Import ZArith String Ascii DecimalString Lia.
From stdpp Require Import gmap strings list fin_maps.

(** ** JavaScript string primitives used by the two modules *)

Module Js.

Definition chr_le (a b : ascii) : bool := (nat_of_ascii a <=? nat_of_ascii b)%nat.
Definition chr_in (lo hi c : ascii) : bool := chr_le lo c && chr_le c hi.

Definition isDigit (c : ascii) : bool := chr_in "0" "9" c.
Definition isUpper (c : ascii) : bool := chr_in "A" "Z" c.
Definition isLower (c : ascii) : bool := chr_in "a" "z" c.

(** The class [[0-9A-Fa-f]]. *)
Definition isHex (c : ascii) : bool :=
  isDigit c || chr_in "A" "F" c || chr_in "a" "f" c.

(** The class [\s], on ASCII: tab, line feed, vertical tab, form feed,
    carriage return and space. *)
Definition isSpace (c : ascii) : bool :=
  let n := nat_of_ascii c in
  ((9 <=? n) && (n <=? 13))%nat || (n =? 32)%nat.

(** The double quote. *)
Definition dquote : ascii := "034".
Definition notDquote (c : ascii) : bool := negb (Ascii.eqb c dquote).

Definition upperChar (c : ascii) : ascii :=
  if isLower c then ascii_of_nat (nat_of_ascii c - 32) else c.
Definition lowerChar (c : ascii) : ascii :=
  if isUpper c then ascii_of_nat (nat_of_ascii c + 32) else c.

Fixpoint mapChars (f : ascii -> ascii) (s : string) : string :=
  match s with
  | EmptyString => EmptyString
  | String c r => String (f c) (mapChars f r)
  end.

Definition toUpperCase : string -> string := mapChars upperChar.
Definition toLowerCase : string -> string := mapChars lowerChar.

(** [s.replace(/[cls]/g, r)] for a one-character replacement. *)
Definition replaceClass (cls : ascii -> bool) (r : ascii) : string -> string :=
  mapChars (fun c => if cls c then r else c).

(** [s.replace(/[^cls]/g, '')]: keep the characters of the class. *)
Fixpoint keepClass (cls : ascii -> bool) (s : string) : string :=
  match s with
  | EmptyString => EmptyString
  | String c r => if cls c then String c (keepClass cls r) else keepClass cls r
  end.

(** [s.startsWith(p)]. *)
Fixpoint startsWith (s p : string) {struct p} : bool :=
  match p with
  | EmptyString => true
  | String a p' =>
      match s with
      | EmptyString => false
      | String b s' => Ascii.eqb a b && startsWith s' p'
      end
  end.

(** [s.includes(sub)]. *)
Fixpoint includes (s sub : string) : bool :=
  startsWith s sub ||
  match s with
  | EmptyString => false
  | String _ r => includes r sub
  end.

(** [s.match(re)] for a pattern without the [g] flag is a search: the
    pattern is tried at every position from the left, and the first
    position where it matches decides. [p] is the pattern tried at the
    head of a text. *)
Fixpoint search {A : Type} (p : string -> option A) (s : string) : option A :=
  match p s with
  | Some g => Some g
  | None => match s with
            | EmptyString => None
            | String _ r => search p r
            end
  end.

Fixpoint dropChars (n : nat) (s : string) : string :=
  match n, s with
  | O, _ => s
  | S _, EmptyString => EmptyString
  | S k, String _ r => dropChars k r
  end.

Fixpoint takeChars (n : nat) (s : string) : string :=
  match n, s with
  | O, _ => EmptyString
  | S _, EmptyString => EmptyString
  | S k, String c r => String c (takeChars k r)
  end.

Fixpoint allChars (p : ascii -> bool) (s : string) : bool :=
  match s with
  | EmptyString => true
  | String c r => p c && allChars p r
  end.

(** The longest prefix in a class, and what follows it. *)
Fixpoint spanClass (cls : ascii -> bool) (s : string) : string * string :=
  match s with
  | EmptyString => (EmptyString, EmptyString)
  | String c r =>
      if cls c then let '(a, b) := spanClass cls r in (String c a, b)
      else (EmptyString, s)
  end.

Fixpoint trimStart (s : string) : string :=
  match s with
  | EmptyString => EmptyString
  | String c r => if isSpace c then trimStart r else s
  end.

(** [trimEnd], by one pass from the right: a suffix of white space is
    dropped, everything else is kept. *)
Fixpoint trimEnd (s : string) : string :=
  match s with
  | EmptyString => EmptyString
  | String c r =>
      match trimEnd r with
      | EmptyString => if isSpace c then EmptyString else String c EmptyString
      | t => String c t
      end
  end.

Definition trim (s : string) : string := trimEnd (trimStart s).

(** [s.split(c)] for a one-character separator: never empty. *)
Fixpoint split (sep : ascii) (s : string) : list string :=
  match s with
  | EmptyString => [EmptyString]
  | String c r =>
      if Ascii.eqb c sep then EmptyString :: split sep r
      else match split sep r with
           | [] => [String c EmptyString]
           | h :: t => String c h :: t
           end
  end.

(** [s.split(/\r\n|\r/)]: a carriage return ends a line, and takes a
    directly following line feed with it. *)
Fixpoint splitLines (s : string) : list string :=
  match s with
  | EmptyString => [EmptyString]
  | String c r =>
      if Ascii.eqb c "013" then
        match r with
        | String c' r' =>
            if Ascii.eqb c' "010" then EmptyString :: splitLines r'
            else EmptyString :: splitLines r
        | EmptyString => EmptyString :: splitLines r
        end
      else match splitLines r with
           | [] => [String c EmptyString]
           | h :: t => String c h :: t
           end
  end.

(** JavaScript numbers, as far as the engine meets them: the integers
    that [parseInt] and [Number] read from decimal digits, and [NaN]. *)
Inductive num : Type :=
| Int (z : Z)
| NaN.

(** Strict equality [===] on numbers: [NaN] equals nothing. *)
Definition num_seq (a b : num) : bool :=
  match a, b with
  | Int x, Int y => (x =? y)%Z
  | _, _ => false
  end.

Definition digitVal (c : ascii) : Z := Z.of_nat (nat_of_ascii c - 48).

Fixpoint digitsVal (acc : Z) (s : string) : Z :=
  match s with
  | EmptyString => acc
  | String c r => digitsVal (10 * acc + digitVal c) r
  end.

(** A sign, if any, and the rest. *)
Definition readSign (s : string) : bool * string :=
  match s with
  | String "-" r => (true, r)
  | String "+" r => (false, r)
  | _ => (false, s)
  end.

(** [parseInt(s, 10)]: leading white space, an optional sign, then the
    longest run of digits; [NaN] when there is no digit. *)
Definition parseInt (s : string) : num :=
  let '(neg, r) := readSign (trimStart s) in
  let '(ds, _) := spanClass isDigit r in
  match ds with
  | EmptyString => NaN
  | _ => Int (if neg then - digitsVal 0 ds else digitsVal 0 ds)
  end.

(** [Number(s)] on the texts an indicator report carries: white space is
    trimmed, the empty text is 0, a signed run of digits is its value,
    and every other text of this model is [NaN]. *)
Definition Number (s : string) : num :=
  let t := trim s in
  match t with
  | EmptyString => Int 0
  | _ =>
      let '(neg, r) := readSign t in
      match r with
      | EmptyString => NaN
      | _ => if allChars isDigit r
             then Int (if neg then - digitsVal 0 r else digitsVal 0 r)
             else NaN
      end
  end.

(** Template-literal rendering of a number. *)
Definition showNum (n : num) : string :=
  match n with
  | Int z => NilZero.string_of_int (Z.to_int z)
  | NaN => "NaN"
  end.

Definition showNat (n : nat) : string := NilZero.string_of_uint (Nat.to_uint n).

End Js.

(** ** [lib/bluezManager.js]: paths and MAC addresses *)

Module BluezPath.

(** [this.adapterPath = `/org/bluez/hci${this.hciDevice}`]. *)
Definition adapterPath (hciDevice : nat) : string :=
  "/org/bluez/hci" +:+ Js.showNat hciDevice.

Definition isColonOrDash (c : ascii) : bool := Ascii.eqb c ":" || Ascii.eqb c "-".
Definition isDash (c : ascii) : bool := Ascii.eqb c "-".
Definition isUnderscore (c : ascii) : bool := Ascii.eqb c "_".

(** [macToDevicePath(mac)]. *)
Definition macToDevicePath (hciDevice : nat) (mac : string) : string :=
  let clean := Js.toUpperCase (Js.replaceClass isColonOrDash "_" mac) in
  adapterPath hciDevice +:+ "/dev_" +:+ clean.

(** A first group, then five separated groups, each consuming a prefix
    of the text. *)
Definition sixTimes (first next : string -> option string) (s : string)
  : option string :=
  r1 ← first s; r2 ← next r1; r3 ← next r2; r4 ← next r3; r5 ← next r4; next r5.

(** [[0-9A-Fa-f]{2}] at the head of a text: the rest after it. *)
Definition hexPair (s : string) : option string :=
  match s with
  | String a (String b r) => if Js.isHex a && Js.isHex b then Some r else None
  | _ => None
  end.

(** [_[0-9A-Fa-f]{2}] at the head of a text. *)
Definition sepHexPair (s : string) : option string :=
  match s with
  | String "_" r => hexPair r
  | _ => None
  end.

(** The pattern of [devicePathToMac] tried at the head of a text:
    the capture group, when it matches there. *)
Definition macPatternAt (s : string) : option string :=
  if Js.startsWith s "dev_" then
    let body := Js.dropChars 4 s in
    match sixTimes hexPair sepHexPair body with
    | Some _ => Some (Js.takeChars 17 body)
    | None => None
    end
  else None.

Definition searchMac : string -> option string := Js.search macPatternAt.

(** [devicePathToMac(path)]. *)
Definition devicePathToMac (path : string) : string :=
  match searchMac path with
  | None => ""
  | Some g => Js.toUpperCase (Js.replaceClass isUnderscore ":" g)
  end.

(** [_normaliseMac(mac)]. *)
Definition _normaliseMac (mac : string) : string :=
  Js.toUpperCase (Js.replaceClass isDash ":" mac).

(** The canonical form of a MAC address: six octets of two upper-case
    hexadecimal digits, separated by colons. *)
Definition isUpperHex (c : ascii) : bool := Js.isDigit c || Js.chr_in "A" "F" c.

Definition upperOctet (s : string) : option string :=
  match s with
  | String a (String b r) => if isUpperHex a && isUpperHex b then Some r else None
  | _ => None
  end.

Definition colonOctet (s : string) : option string :=
  match s with
  | String ":" r => upperOctet r
  | _ => None
  end.

Definition isCanonicalMac (mac : string) : bool :=
  match sixTimes upperOctet colonOctet mac with
  | Some EmptyString => true
  | _ => false
  end.

End BluezPath.

(** ** [lib/hfpProfile.js]: the Hands-Free engine *)

Module Hfp.

(** [HF_FEATURES]: the feature bits the engine advertises. *)
Definition HF_FEATURES : Z :=
  Z.lor (Z.shiftl 1 0) (Z.lor (Z.shiftl 1 1) (Z.lor (Z.shiftl 1 2)
    (Z.lor (Z.shiftl 1 4) (Z.lor (Z.shiftl 1 5) (Z.shiftl 1 7))))).

Definition AT_TIMEOUT : Z := 5000.
Definition KEEPALIVE_INTERVAL : Z := 5000.

(** What the engine emits to its collaborators. *)
Inductive event : Type :=
| PreConnect (mac : string)
| Connected (mac : string)
| Disconnected (mac : string)
| CallState (mac : string) (state number name : string)
| Indicator (mac : string) (name : string) (value : Js.num)
| BatteryLevel (mac : string) (value : Js.num)
| SignalStrength (mac : string) (value : Js.num)
| OperatorName (mac : string) (name : string)
| AgFeatures (mac : string) (features : Js.num).

(** How the promise of a command ends. *)
Inductive outcome : Type :=
| Resolved (response : string)
| Rejected (message : string).

(** A queue entry [{ cmd, resolve, reject }]. The two callbacks belong to
    the promise made by [_sendCommand]; the promise is named by its
    ticket, the number of commands enqueued on the connection before it. *)
Record entry : Type := { ticket : nat; cmd : string }.

(** History of a connection, kept for stating properties: a command
    written to the channel by [_sendNextCommand], and a promise settled
    (the first call of its [resolve] or [reject]; later calls do
    nothing to a promise). *)
Inductive hist : Type :=
| HSent (t : nat)
| HDone (t : nat) (o : outcome).

(** A connection record. The channel is kept with it: what was written
    to it and whether it was destroyed. [_cmdQueue] and [_cmdInFlight]
    start undefined in the source and every use treats undefined as the
    empty queue and as false. [_pending] stands for the pair
    [_pendingResolve]/[_pendingReject], which are set and cleared
    together: closures over the promise (its ticket) and the time-out
    timer of the command that was sent. *)
Record conn : Type := {
  socket_written : list string;
  socket_destroyed : bool;
  buffer : string;
  indicators : gmap string Js.num;
  indicatorMap : list string;
  slcReady : bool;
  conn_mac : string;
  agFeatures : option Js.num;
  _cmdQueue : list entry;
  _cmdInFlight : bool;
  _pending : option (nat * nat);
  _keepaliveTimer : option nat;
  issued : nat;
  history : list hist
}.

Definition set_written (v : list string) (c : conn) : conn :=
  {| socket_written := v; socket_destroyed := socket_destroyed c;
     buffer := buffer c; indicators := indicators c;
     indicatorMap := indicatorMap c; slcReady := slcReady c;
     conn_mac := conn_mac c; agFeatures := agFeatures c;
     _cmdQueue := _cmdQueue c; _cmdInFlight := _cmdInFlight c;
     _pending := _pending c; _keepaliveTimer := _keepaliveTimer c;
     issued := issued c; history := history c |}.

Definition set_destroyed (v : bool) (c : conn) : conn :=
  {| socket_written := socket_written c; socket_destroyed := v;
     buffer := buffer c; indicators := indicators c;
     indicatorMap := indicatorMap c; slcReady := slcReady c;
     conn_mac := conn_mac c; agFeatures := agFeatures c;
     _cmdQueue := _cmdQueue c; _cmdInFlight := _cmdInFlight c;
     _pending := _pending c; _keepaliveTimer := _keepaliveTimer c;
     issued := issued c; history := history c |}.

Definition set_buffer (v : string) (c : conn) : conn :=
  {| socket_written := socket_written c; socket_destroyed := socket_destroyed c;
     buffer := v; indicators := indicators c;
     indicatorMap := indicatorMap c; slcReady := slcReady c;
     conn_mac := conn_mac c; agFeatures := agFeatures c;
     _cmdQueue := _cmdQueue c; _cmdInFlight := _cmdInFlight c;
     _pending := _pending c; _keepaliveTimer := _keepaliveTimer c;
     issued := issued c; history := history c |}.

Definition set_indicators (v : gmap string Js.num) (c : conn) : conn :=
  {| socket_written := socket_written c; socket_destroyed := socket_destroyed c;
     buffer := buffer c; indicators := v;
     indicatorMap := indicatorMap c; slcReady := slcReady c;
     conn_mac := conn_mac c; agFeatures := agFeatures c;
     _cmdQueue := _cmdQueue c; _cmdInFlight := _cmdInFlight c;
     _pending := _pending c; _keepaliveTimer := _keepaliveTimer c;
     issued := issued c; history := history c |}.

Definition set_indicatorMap (v : list string) (c : conn) : conn :=
  {| socket_written := socket_written c; socket_destroyed := socket_destroyed c;
     buffer := buffer c; indicators := indicators c;
     indicatorMap := v; slcReady := slcReady c;
     conn_mac := conn_mac c; agFeatures := agFeatures c;
     _cmdQueue := _cmdQueue c; _cmdInFlight := _cmdInFlight c;
     _pending := _pending c; _keepaliveTimer := _keepaliveTimer c;
     issued := issued c; history := history c |}.

Definition set_slcReady (v : bool) (c : conn) : conn :=
  {| socket_written := socket_written c; socket_destroyed := socket_destroyed c;
     buffer := buffer c; indicators := indicators c;
     indicatorMap := indicatorMap c; slcReady := v;
     conn_mac := conn_mac c; agFeatures := agFeatures c;
     _cmdQueue := _cmdQueue c; _cmdInFlight := _cmdInFlight c;
     _pending := _pending c; _keepaliveTimer := _keepaliveTimer c;
     issued := issued c; history := history c |}.

Definition set_agFeatures (v : option Js.num) (c : conn) : conn :=
  {| socket_written := socket_written c; socket_destroyed := socket_destroyed c;
     buffer := buffer c; indicators := indicators c;
     indicatorMap := indicatorMap c; slcReady := slcReady c;
     conn_mac := conn_mac c; agFeatures := v;
     _cmdQueue := _cmdQueue c; _cmdInFlight := _cmdInFlight c;
     _pending := _pending c; _keepaliveTimer := _keepaliveTimer c;
     issued := issued c; history := history c |}.

Definition set_cmdQueue (v : list entry) (c : conn) : conn :=
  {| socket_written := socket_written c; socket_destroyed := socket_destroyed c;
     buffer := buffer c; indicators := indicators c;
     indicatorMap := indicatorMap c; slcReady := slcReady c;
     conn_mac := conn_mac c; agFeatures := agFeatures c;
     _cmdQueue := v; _cmdInFlight := _cmdInFlight c;
     _pending := _pending c; _keepaliveTimer := _keepaliveTimer c;
     issued := issued c; history := history c |}.

Definition set_cmdInFlight (v : bool) (c : conn) : conn :=
  {| socket_written := socket_written c; socket_destroyed := socket_destroyed c;
     buffer := buffer c; indicators := indicators c;
     indicatorMap := indicatorMap c; slcReady := slcReady c;
     conn_mac := conn_mac c; agFeatures := agFeatures c;
     _cmdQueue := _cmdQueue c; _cmdInFlight := v;
     _pending := _pending c; _keepaliveTimer := _keepaliveTimer c;
     issued := issued c; history := history c |}.

Definition set_pending (v : option (nat * nat)) (c : conn) : conn :=
  {| socket_written := socket_written c; socket_destroyed := socket_destroyed c;
     buffer := buffer c; indicators := indicators c;
     indicatorMap := indicatorMap c; slcReady := slcReady c;
     conn_mac := conn_mac c; agFeatures := agFeatures c;
     _cmdQueue := _cmdQueue c; _cmdInFlight := _cmdInFlight c;
     _pending := v; _keepaliveTimer := _keepaliveTimer c;
     issued := issued c; history := history c |}.

Definition set_keepaliveTimer (v : option nat) (c : conn) : conn :=
  {| socket_written := socket_written c; socket_destroyed := socket_destroyed c;
     buffer := buffer c; indicators := indicators c;
     indicatorMap := indicatorMap c; slcReady := slcReady c;
     conn_mac := conn_mac c; agFeatures := agFeatures c;
     _cmdQueue := _cmdQueue c; _cmdInFlight := _cmdInFlight c;
     _pending := _pending c; _keepaliveTimer := v;
     issued := issued c; history := history c |}.

Definition set_issued (v : nat) (c : conn) : conn :=
  {| socket_written := socket_written c; socket_destroyed := socket_destroyed c;
     buffer := buffer c; indicators := indicators c;
     indicatorMap := indicatorMap c; slcReady := slcReady c;
     conn_mac := conn_mac c; agFeatures := agFeatures c;
     _cmdQueue := _cmdQueue c; _cmdInFlight := _cmdInFlight c;
     _pending := _pending c; _keepaliveTimer := _keepaliveTimer c;
     issued := v; history := history c |}.

Definition set_history (v : list hist) (c : conn) : conn :=
  {| socket_written := socket_written c; socket_destroyed := socket_destroyed c;
     buffer := buffer c; indicators := indicators c;
     indicatorMap := indicatorMap c; slcReady := slcReady c;
     conn_mac := conn_mac c; agFeatures := agFeatures c;
     _cmdQueue := _cmdQueue c; _cmdInFlight := _cmdInFlight c;
     _pending := _pending c; _keepaliveTimer := _keepaliveTimer c;
     issued := issued c; history := v |}.

(** The record built by [_onNewConnection]. *)
Definition newConn (mac : string) : conn :=
  {| socket_written := []; socket_destroyed := false;
     buffer := ""; indicators := ∅; indicatorMap := []; slcReady := false;
     conn_mac := mac; agFeatures := None;
     _cmdQueue := []; _cmdInFlight := false; _pending := None;
     _keepaliveTimer := None; issued := 0; history := [] |}.

(** [conn.socket.write(data)]: nothing reaches a destroyed channel. *)
Definition socketWrite (data : string) (c : conn) : conn :=
  if socket_destroyed c then c
  else set_written (socket_written c ++ [data]) c.

(** The tickets settled so far, in the order they were settled. *)
Definition doneOf (h : list hist) : list nat :=
  omap (fun x => match x with HDone t _ => Some t | HSent _ => None end) h.

(** [resolve(..)] or [reject(..)] of the promise [t]: only the first
    call on a promise has an effect. *)
Definition settle (t : nat) (o : outcome) (c : conn) : conn :=
  if bool_decide (t ∈ doneOf (history c)) then c
  else set_history (history c ++ [HDone t o]) c.

(** [_normalise(mac)]. *)
Definition _normalise (mac : string) : string :=
  Js.toUpperCase (Js.replaceClass (fun c => Ascii.eqb c "-") ":" mac).

(** The pattern [dev_([0-9A-Fa-f_]{17})] tried at the head of a text. *)
Definition devPatternAt (s : string) : option string :=
  if Js.startsWith s "dev_" then
    let g := Js.takeChars 17 (Js.dropChars 4 s) in
    if (String.length g =? 17)%nat
       && Js.allChars (fun c => Js.isHex c || Ascii.eqb c "_") g
    then Some g else None
  else None.

(** [_devicePathToMac(path)]: the path itself when it has no device part. *)
Definition _devicePathToMac (path : string) : string :=
  match Js.search devPatternAt path with
  | None => path
  | Some g => Js.toUpperCase (Js.replaceClass (fun c => Ascii.eqb c "_") ":" g)
  end.

(** *** Indicators *)

(** [_emitIndicator(mac, name, value)]. *)
Definition _emitIndicator (mac name : string) (value : Js.num) : list event :=
  Indicator mac name value ::
  (if String.eqb name "battchg" then [BatteryLevel mac value]
   else if String.eqb name "signal" then [SignalStrength mac value]
   else []).

(** [conn.indicators.x ?? 0]. *)
Definition indicatorOr0 (ind : gmap string Js.num) (name : string) : Js.num :=
  default (Js.Int 0) (ind !! name).

(** The label computed by [_deriveCallState]. *)
Definition callStateLabel (ind : gmap string Js.num) : string :=
  let call := indicatorOr0 ind "call" in
  let callsetup := indicatorOr0 ind "callsetup" in
  let callheld := indicatorOr0 ind "callheld" in
  if Js.num_seq call (Js.Int 1) && Js.num_seq callsetup (Js.Int 0) then
    if Js.num_seq callheld (Js.Int 2) then "held" else "active"
  else if Js.num_seq callsetup (Js.Int 1) then "incoming"
  else if Js.num_seq callsetup (Js.Int 2) then "dialing"
  else if Js.num_seq callsetup (Js.Int 3) then "alerting"
  else if Js.num_seq callheld (Js.Int 2) then "held"
  else "idle".

(** [_deriveCallState(mac, conn)]. *)
Definition _deriveCallState (mac : string) (c : conn) : list event :=
  [CallState mac (callStateLabel (indicators c)) "" ""].

Definition isCallIndicator (name : string) : bool :=
  String.eqb name "call" || String.eqb name "callsetup" || String.eqb name "callheld".

(** The pattern of [_parseIndicatorDefinitions] tried at the head of a
    text: an opening parenthesis, a double quote, one or more characters
    that are not double quotes, and a double quote. The result is the
    name and the text after the closing quote. *)
Definition quotedNameAt (s : string) : option (string * string) :=
  match s with
  | String c0 (String c1 r) =>
      if Ascii.eqb c0 "(" && Ascii.eqb c1 Js.dquote then
        match Js.spanClass Js.notDquote r with
        | (EmptyString, _) => None
        | (name, String _ after) => Some (name, after)
        | (_, EmptyString) => None
        end
      else None
  | _ => None
  end.

(** The loop [while ((match = regex.exec(str)) !== null)] with the global
    pattern: after a match the search resumes behind it, otherwise one
    character further. [fuel] bounds the number of steps; the length of
    the text is enough. *)
Fixpoint scanNames (fuel : nat) (s : string) : list string :=
  match fuel with
  | O => []
  | S k =>
      match quotedNameAt s with
      | Some (name, after) => Js.toLowerCase name :: scanNames k after
      | None => match s with
                | EmptyString => []
                | String _ r => scanNames k r
                end
      end
  end.

(** [_parseIndicatorDefinitions(mac, str, conn)]. *)
Definition _parseIndicatorDefinitions (str : string) (c : conn) : conn :=
  set_indicatorMap (scanNames (S (String.length str)) str) c.

(** [conn.indicators[name] = v] for a number [v]. [conn.indicators] is a
    plain object, and the name [__proto__] is the accessor it inherits:
    its setter ignores a value that is no object, so nothing is stored
    under that name. Every other name becomes a property of the
    object. *)
Definition setIndicator (name : string) (v : Js.num) (ind : gmap string Js.num)
  : gmap string Js.num :=
  if String.eqb name "__proto__" then ind else <[name := v]> ind.

(** The loop of [_processIndicatorValues]: index [i] runs while both the
    values and the name table have an element. *)
Fixpoint indicatorValuesLoop (mac : string) (names : list string)
    (values : list Js.num) (callChanged : bool) (c : conn)
  : bool * conn * list event :=
  match names, values with
  | name :: names', v :: values' =>
      let prev := indicators c !! name in
      let c1 := set_indicators (setIndicator name v (indicators c)) c in
      let changed :=
        isCallIndicator name &&
        match prev with
        | Some p => negb (Js.num_seq p v)
        | None => true
        end in
      let '(b, c2, evs) :=
        indicatorValuesLoop mac names' values' (callChanged || changed) c1 in
      (b, c2, _emitIndicator mac name v ++ evs)
  | _, _ => (callChanged, c, [])
  end.

(** [_processIndicatorValues(mac, values, conn)]. *)
Definition _processIndicatorValues (mac : string) (values : list Js.num)
    (c : conn) : conn * list event :=
  let '(callChanged, c1, evs) :=
    indicatorValuesLoop mac (indicatorMap c) values false c in
  (c1, evs ++ (if callChanged then _deriveCallState mac c1 else [])).

(** [conn.indicatorMap[idx - 1]], and [!name]: no name for [NaN], for an
    index outside the table, and for an empty name. *)
Definition indicatorName (c : conn) (idx : Js.num) : option string :=
  match idx with
  | Js.NaN => None
  | Js.Int z =>
      if (1 <=? z)%Z then
        match indicatorMap c !! Z.to_nat (z - 1) with
        | Some EmptyString => None
        | o => o
        end
      else None
  end.

(** [_processIndicatorEvent(mac, idx, val, conn)]. *)
Definition _processIndicatorEvent (mac : string) (idx val : Js.num) (c : conn)
  : conn * list event :=
  match indicatorName c idx with
  | None => (c, [])
  | Some name =>
      let c1 := set_indicators (setIndicator name val (indicators c)) c in
      (c1, _emitIndicator mac name val ++
           (if isCallIndicator name then _deriveCallState mac c1 else []))
  end.

(** *** Response lines *)

(** [line.split(':')[1]]; every line it is applied to has a colon. *)
Definition afterColon (line : string) : string :=
  default "" (Js.split ":" line !! 1%nat).

(** Pieces of the patterns of [_processLine], each tried at the head of
    a text and returning what it captured and the rest. *)
Definition lit (p s : string) : option string :=
  if Js.startsWith s p then Some (Js.dropChars (String.length p) s) else None.

(** A double quote, characters other than double quotes, a double quote. *)
Definition quoted (s : string) : option (string * string) :=
  match s with
  | String c0 r =>
      if Ascii.eqb c0 Js.dquote then
        match Js.spanClass Js.notDquote r with
        | (body, String _ after) => Some (body, after)
        | (_, EmptyString) => None
        end
      else None
  | EmptyString => None
  end.

(** One or more decimal digits. *)
Definition digits1 (s : string) : option (string * string) :=
  match Js.spanClass Js.isDigit s with
  | (EmptyString, _) => None
  | (ds, r) => Some (ds, r)
  end.

(** The pattern of the [+CLIP:] branch: number and name, the name empty
    when the optional group is absent. *)
Definition clipAt (s : string) : option (string * string) :=
  r0 ← lit "+CLIP:" s;
  '(number, r2) ← quoted (Js.trimStart r0);
  r3 ← lit "," r2;
  '(_, r4) ← digits1 r3;
  Some (number,
        match lit ",," r4 ≫= quoted with
        | Some (name, _) => name
        | None => ""
        end).

(** The pattern of the [+CCWA:] branch: the number. *)
Definition ccwaAt (s : string) : option string :=
  r0 ← lit "+CCWA:" s;
  '(number, r2) ← quoted (Js.trimStart r0);
  r3 ← lit "," r2;
  '(_, _) ← digits1 r3;
  Some number.

(** The pattern of [_processClcc]: the third number and the quoted
    number of the optional group, empty when the group is absent. *)
Definition clccAt (s : string) : option (string * string) :=
  r0 ← lit "+CLCC:" s;
  '(_, r1) ← digits1 (Js.trimStart r0);
  r2 ← lit "," r1;
  '(_, r3) ← digits1 r2;
  r4 ← lit "," r3;
  '(stat, r5) ← digits1 r4;
  r6 ← lit "," r5;
  '(_, r7) ← digits1 r6;
  r8 ← lit "," r7;
  '(_, r9) ← digits1 r8;
  Some (stat,
        match (r10 ← lit "," r9;
               '(number, r11) ← quoted r10;
               r12 ← lit "," r11;
               '(_, _) ← digits1 r12;
               Some number) with
        | Some number => number
        | None => ""
        end).

(** [_processClcc(mac, line)]. *)
Definition _processClcc (mac line : string) : list event :=
  match Js.search clccAt line with
  | None => []
  | Some (stat, number) =>
      let states := ["active"; "held"; "dialing"; "alerting"; "incoming"; "waiting"] in
      let state := default "unknown" (states !! Z.to_nat (Js.digitsVal 0 stat)) in
      [CallState mac state number ""]
  end.

(** The capture group of the pattern of the indicator-definition
    branch, in a line that starts with [+CIND:]: white space after the
    colon is skipped and the group runs to the end of the line or to a
    line feed. *)
Definition cindGroup (line : string) : string :=
  fst (Js.spanClass (fun c => negb (Ascii.eqb c "010"))
         (Js.trimStart (Js.dropChars 6 line))).

(** The index and the value of a [+CIEV:] line: [parseInt] of the two
    first comma-separated parts after the colon; a missing part is
    [undefined], which [parseInt] reads as [NaN]. *)
Definition cievIndex (line : string) : Js.num :=
  Js.parseInt (default "" (Js.split "," (Js.trim (afterColon line)) !! 0%nat)).

Definition cievValue (line : string) : Js.num :=
  match Js.split "," (Js.trim (afterColon line)) !! 1%nat with
  | Some p => Js.parseInt p
  | None => Js.NaN
  end.

(** The branches of [_processLine] below the final responses: what the
    line does to the connection record and what it emits. *)
Definition unsolicited (mac line : string) (c : conn) : conn * list event :=
  if Js.startsWith line "+BRSF:" then
    let ag := Js.parseInt (Js.trim (afterColon line)) in
    (set_agFeatures (Some ag) c, [AgFeatures mac ag])
  else if Js.startsWith line "+CHLD:" then (c, [])
  else if Js.startsWith line "+BIND:" then (c, [])
  else if Js.startsWith line "+CIND:" && Js.includes line "(" then
    (_parseIndicatorDefinitions (cindGroup line) c, [])
  else if Js.startsWith line "+CIND:" && negb (Js.includes line "(") then
    let values := Js.Number <$> Js.split "," (Js.trim (afterColon line)) in
    _processIndicatorValues mac values c
  else if Js.startsWith line "+CIEV:" then
    _processIndicatorEvent mac (cievIndex line) (cievValue line) c
  else if Js.startsWith line "+CLIP:" then
    match Js.search clipAt line with
    | Some (number, name) => (c, [CallState mac "incoming" number name])
    | None => (c, [])
    end
  else if Js.startsWith line "+CCWA:" then
    match Js.search ccwaAt line with
    | Some number => (c, [CallState mac "waiting" number ""])
    | None => (c, [])
    end
  else if Js.startsWith line "+CLCC:" then (c, _processClcc mac line)
  else if Js.startsWith line "+COPS:" then
    match Js.search quoted line with
    | Some (name, _) => (c, [OperatorName mac name])
    | None => (c, [])
    end
  else if String.eqb line "RING" then (c, [CallState mac "ringing" "" ""])
  else if String.eqb line "NO CARRIER" then (c, [CallState mac "idle" "" ""])
  else if Js.startsWith line "+BCS:" then
    let codec := Js.trim (afterColon line) in
    (socketWrite ("AT+BCS=" +:+ codec +:+ String "013" "") c, [])
  else (c, []).

(** *** The engine state and the command queue *)

(** What a pending timer will run. [AtTimeout] is the time-out callback
    set by [_sendNextCommand]: it closes over the connection object, the
    promise of the command and its text. [Keepalive] is the interval
    callback of [_startKeepalive]: it closes over the connection object
    and the MAC address. *)
Inductive timer : Type :=
| AtTimeout (r : nat) (t : nat) (cmd : string)
| Keepalive (r : nat) (mac : string).

(** The engine: [_connections] maps a normalised MAC address to a
    connection object; [store] holds the connection objects, also those
    that are no longer in [_connections] but still referenced by a timer
    or a callback; [timers] and [immediates] are what is scheduled with
    [setTimeout]/[setInterval] and [setImmediate]; [emitted] is the
    sequence of events emitted so far. *)
Record state : Type := {
  _connections : gmap string nat;
  store : gmap nat conn;
  timers : gmap nat timer;
  immediates : list nat;
  emitted : list event;
  nextRef : nat;
  nextTimer : nat
}.

Definition init : state :=
  {| _connections := ∅; store := ∅; timers := ∅; immediates := [];
     emitted := []; nextRef := 0; nextTimer := 0 |}.

Definition set_connections (v : gmap string nat) (st : state) : state :=
  {| _connections := v; store := store st; timers := timers st;
     immediates := immediates st; emitted := emitted st;
     nextRef := nextRef st; nextTimer := nextTimer st |}.

Definition set_store (v : gmap nat conn) (st : state) : state :=
  {| _connections := _connections st; store := v; timers := timers st;
     immediates := immediates st; emitted := emitted st;
     nextRef := nextRef st; nextTimer := nextTimer st |}.

Definition set_timers (v : gmap nat timer) (st : state) : state :=
  {| _connections := _connections st; store := store st; timers := v;
     immediates := immediates st; emitted := emitted st;
     nextRef := nextRef st; nextTimer := nextTimer st |}.

Definition set_immediates (v : list nat) (st : state) : state :=
  {| _connections := _connections st; store := store st; timers := timers st;
     immediates := v; emitted := emitted st;
     nextRef := nextRef st; nextTimer := nextTimer st |}.

Definition set_emitted (v : list event) (st : state) : state :=
  {| _connections := _connections st; store := store st; timers := timers st;
     immediates := immediates st; emitted := v;
     nextRef := nextRef st; nextTimer := nextTimer st |}.

Definition set_nextRef (v : nat) (st : state) : state :=
  {| _connections := _connections st; store := store st; timers := timers st;
     immediates := immediates st; emitted := emitted st;
     nextRef := v; nextTimer := nextTimer st |}.

Definition set_nextTimer (v : nat) (st : state) : state :=
  {| _connections := _connections st; store := store st; timers := timers st;
     immediates := immediates st; emitted := emitted st;
     nextRef := nextRef st; nextTimer := v |}.

(** [this.emit(..)], for each event of a list in turn. *)
Definition emit (evs : list event) (st : state) : state :=
  set_emitted (emitted st ++ evs) st.

(** Write back the connection object [r]. *)
Definition putConn (r : nat) (c : conn) (st : state) : state :=
  set_store (<[r := c]> (store st)) st.

(** [setTimeout]/[setInterval]: the handle is fresh. *)
Definition addTimer (t : timer) (st : state) : nat * state :=
  (nextTimer st,
   set_nextTimer (S (nextTimer st)) (set_timers (<[nextTimer st := t]> (timers st)) st)).

(** [clearTimeout]/[clearInterval]. *)
Definition clearTimer (tid : nat) (st : state) : state :=
  set_timers (delete tid (timers st)) st.

(** [this._connections.get(this._normalise(mac))]: the connection object
    registered under a MAC address. *)
Definition connOf (mac : string) (st : state) : option (nat * conn) :=
  _connections st !! _normalise mac ≫= fun r => pair r <$> store st !! r.

(** [_sendNextCommand(mac, conn)] on the connection object [r]. The MAC
    address only goes into the log text. *)
Definition _sendNextCommand (r : nat) (st : state) : state :=
  match store st !! r with
  | None => st
  | Some c =>
      match _cmdQueue c with
      | [] => st
      | e :: _ =>
          if _cmdInFlight c then st
          else
            let '(tid, st1) := addTimer (AtTimeout r (ticket e) (cmd e)) st in
            let c1 := set_pending (Some (ticket e, tid)) (set_cmdInFlight true c) in
            let c2 := socketWrite (cmd e +:+ String "013" "") c1 in
            putConn r (set_history (history c2 ++ [HSent (ticket e)]) c2) st1
      end
  end.

(** What [_sendCommand] returns: a promise that is already rejected, or
    the promise [t] of the connection object [r]. *)
Inductive sendResult : Type :=
| Failed (message : string)
| Promised (r : nat) (t : nat).

(** [_sendCommand(mac, cmd)]. *)
Definition _sendCommand (mac cmd : string) (st : state) : sendResult * state :=
  match connOf mac st with
  | None => (Failed ("No HFP connection for " +:+ mac), st)
  | Some (r, c) =>
      let t := issued c in
      let c1 := set_issued (S t)
                  (set_cmdQueue (_cmdQueue c ++ [{| ticket := t; cmd := cmd |}]) c) in
      let st1 := putConn r c1 st in
      (Promised r t,
       if (length (_cmdQueue c1) =? 1)%nat then _sendNextCommand r st1 else st1)
  end.

(** The body shared by [_pendingResolve] and [_pendingReject], closures
    over the promise [t] and the timer [tid]: clear the timer, shift the
    queue, clear the in-flight flag, settle the promise, and schedule
    [_sendNextCommand] with [setImmediate]. *)
Definition complete (r t tid : nat) (o : outcome) (st : state) : state :=
  let st1 := clearTimer tid st in
  match store st1 !! r with
  | None => st1
  | Some c =>
      let c1 := set_cmdInFlight false (set_cmdQueue (tail (_cmdQueue c)) c) in
      set_immediates (immediates st1 ++ [r]) (putConn r (settle t o c1) st1)
  end.

(** The time-out callback of a command. *)
Definition onAtTimeout (r t : nat) (cmd : string) (st : state) : state :=
  match store st !! r with
  | None => st
  | Some c =>
      let c1 := set_cmdInFlight false (set_cmdQueue (tail (_cmdQueue c)) c) in
      _sendNextCommand r
        (putConn r (settle t (Rejected ("AT command timeout: " +:+ cmd)) c1) st)
  end.

(** [_processLine(mac, line, conn)] on the connection object [r]. *)
Definition _processLine (mac line : string) (r : nat) (st : state) : state :=
  match store st !! r with
  | None => st
  | Some c =>
      if String.eqb line "OK" then
        match _pending c with
        | Some (t, tid) =>
            let st1 := complete r t tid (Resolved "OK") st in
            match store st1 !! r with
            | Some c1 => putConn r (set_pending None c1) st1
            | None => st1
            end
        | None => st
        end
      else if Js.startsWith line "ERROR" || Js.startsWith line "+CME ERROR" then
        match _pending c with
        | Some (t, tid) =>
            let st1 := complete r t tid (Rejected line) st in
            match store st1 !! r with
            | Some c1 => putConn r (set_pending None c1) st1
            | None => st1
            end
        | None => st
        end
      else
        let '(c1, evs) := unsolicited mac line c in
        emit evs (putConn r c1 st)
  end.

(** The loop of [_onData] over the complete lines. *)
Fixpoint processLines (mac : string) (lines : list string) (r : nat) (st : state)
  : state :=
  match lines with
  | [] => st
  | line :: rest =>
      let trimmed := Js.trim line in
      processLines mac rest r
        (match trimmed with
         | EmptyString => st
         | _ => _processLine mac trimmed r st
         end)
  end.

(** [_onData(mac, data)]: the last piece of the split is the incomplete
    line and stays in the buffer. *)
Definition _onData (mac data : string) (st : state) : state :=
  match connOf mac st with
  | None => st
  | Some (r, c) =>
      let lines := Js.splitLines (buffer c +:+ data) in
      let st1 := putConn r (set_buffer (List.last lines "") c) st in
      processLines mac (removelast lines) r st1
  end.

(** [_startKeepalive(mac)]. *)
Definition _startKeepalive (mac : string) (st : state) : state :=
  match connOf mac st with
  | None => st
  | Some (r, c) =>
      let st1 := match _keepaliveTimer c with
                 | Some k => clearTimer k st
                 | None => st
                 end in
      let '(tid, st2) := addTimer (Keepalive r mac) st1 in
      putConn r (set_keepaliveTimer (Some tid) c) st2
  end.

(** The interval callback of the keepalive: a failure of the poll is
    only logged. *)
Definition onKeepalive (r : nat) (mac : string) (st : state) : state :=
  match store st !! r with
  | None => st
  | Some c =>
      if slcReady c then snd (_sendCommand mac "AT+CIND?" st) else st
  end.

(** The error every queued command is rejected with by [_cleanup]. *)
Definition closedError : outcome := Rejected "HFP connection closed".

(** The loop of [_cleanup] over the queue. *)
Definition rejectAll (q : list entry) (c : conn) : conn :=
  foldl (fun c e => settle (ticket e) closedError c) c q.

(** [_cleanup(mac)]. *)
Definition _cleanup (mac : string) (st : state) : state :=
  match connOf mac st with
  | None => st
  | Some (r, c) =>
      let st1 := match _keepaliveTimer c with
                 | Some k => clearTimer k st
                 | None => st
                 end in
      let c1 := set_cmdQueue [] (rejectAll (_cmdQueue c) c) in
      let c2 := set_destroyed true c1 in
      emit [Disconnected mac]
        (set_connections (delete (_normalise mac) (_connections st1))
           (putConn r c2 st1))
  end.

(** [_onNewConnection(devicePath, fd, fdProperties)]: the record is
    stored under the normalised address, and [_initSLC] starts with its
    first command. *)
Definition _onNewConnection (devicePath : string) (st : state) : state :=
  let mac := _devicePathToMac devicePath in
  let st1 := emit [PreConnect mac] st in
  let r := nextRef st1 in
  let st2 := set_nextRef (S r)
               (set_connections (<[_normalise mac := r]> (_connections st1))
                  (putConn r (newConn mac) st1)) in
  snd (_sendCommand mac ("AT+BRSF=" +:+ Js.showNum (Js.Int HF_FEATURES)) st2).

(** [_onRequestDisconnection(devicePath)]. *)
Definition _onRequestDisconnection (devicePath : string) (st : state) : state :=
  _cleanup (_devicePathToMac devicePath) st.

(** The end of [_initSLC] after its last command was answered: the
    connection, if it is still there, becomes ready. *)
Definition slcEstablished (mac : string) (st : state) : state :=
  match connOf mac st with
  | None => st
  | Some (r, c) =>
      emit [Connected mac]
        (_startKeepalive mac (putConn r (set_slcReady true c) st))
  end.

(** [isConnected(mac)]. *)
Definition isConnected (mac : string) (st : state) : bool :=
  match connOf mac st with
  | Some (_, c) => slcReady c
  | None => false
  end.

(** *** Call control *)

Inductive operation : Type :=
| answer
| hangup
| reject
| dial (number : string)
| redial
| sendRawAT (cmd : string)
| sendDTMF (tone : string)
| queryCurrentCalls
| setVolume (vol : Z).

Definition isDialChar (c : ascii) : bool :=
  Js.isDigit c || Ascii.eqb c "+" || Ascii.eqb c "*" || Ascii.eqb c "#".

(** The command text each operation hands to [_sendCommand]. The volume
    is an integer here, so [Math.round] has nothing to do. *)
Definition commandOf (op : operation) : string :=
  match op with
  | answer => "ATA"
  | hangup => "AT+CHUP"
  | reject => "AT+CHUP"
  | dial number => "ATD" +:+ Js.keepClass isDialChar number +:+ ";"
  | redial => "AT+BLDN"
  | sendRawAT cmd => cmd
  | sendDTMF tone => "AT+VTS=" +:+ tone
  | queryCurrentCalls => "AT+CLCC"
  | setVolume vol => "AT+VGS=" +:+ Js.showNum (Js.Int (Z.max 0 (Z.min 15 vol)))
  end.

(** An operation called for [mac]. *)
Definition perform (op : operation) (mac : string) (st : state)
  : sendResult * state :=
  _sendCommand mac (commandOf op) st.

(** *** The event loop *)

(** What can happen to the engine: calls of the profile manager, events
    of a channel (the handlers of [_onNewConnection] close over the MAC
    address of their connection), a timer or a [setImmediate] callback
    that runs, a caller that sends a command (a call-control operation,
    or a step of [_initSLC]), and the two ways [_initSLC] ends. *)
Inductive action : Type :=
| NewConnection (devicePath : string)
| RequestDisconnection (devicePath : string)
| SocketData (mac data : string)
| SocketError (mac : string)
| SocketClose (mac : string)
| TimerFires (tid : nat)
| RunImmediate
| Operation (op : operation) (mac : string)
| SlcStep (mac cmd : string)
| SlcEstablished (mac : string)
| SlcFailed (mac : string).

Definition step (a : action) (st : state) : state :=
  match a with
  | NewConnection devicePath => _onNewConnection devicePath st
  | RequestDisconnection devicePath => _onRequestDisconnection devicePath st
  | SocketData mac data => _onData mac data st
  | SocketError mac => _cleanup mac st
  | SocketClose mac => _cleanup mac st
  | TimerFires tid =>
      match timers st !! tid with
      | Some (AtTimeout r t cmd) => onAtTimeout r t cmd (clearTimer tid st)
      | Some (Keepalive r mac) => onKeepalive r mac st
      | None => st
      end
  | RunImmediate =>
      match immediates st with
      | r :: rest => _sendNextCommand r (set_immediates rest st)
      | [] => st
      end
  | Operation op mac => snd (perform op mac st)
  | SlcStep mac cmd => snd (_sendCommand mac cmd st)
  | SlcEstablished mac => slcEstablished mac st
  | SlcFailed mac => _cleanup mac st
  end.

(** The actions that tear a connection down, with the address they hand
    to [_cleanup]: the two channel handlers, the disconnection request
    of the profile manager, and the failure handler of [_initSLC]. *)
Definition teardownMac (a : action) : option string :=
  match a with
  | SocketError mac | SocketClose mac | SlcFailed mac => Some mac
  | RequestDisconnection devicePath => Some (_devicePathToMac devicePath)
  | _ => None
  end.

(** The engine after a sequence of actions. *)
Definition run (acts : list action) (st : state) : state :=
  foldl (fun st a => step a st) st acts.

(** *** The queue discipline, as a monitor of a connection's history *)

(** The monitor remembers the next ticket that may complete and the
    command in flight. A send is accepted only when nothing is in flight
    and only for the oldest command that has not completed; a completion
    is accepted only for that oldest command. *)
Record monitor : Type := { m_next : nat; m_flight : option nat }.

Definition monitorStep (m : monitor) (h : hist) : option monitor :=
  match h with
  | HSent t =>
      match m_flight m with
      | None => if (t =? m_next m)%nat
                then Some {| m_next := m_next m; m_flight := Some t |}
                else None
      | Some _ => None
      end
  | HDone t _ =>
      if (t =? m_next m)%nat
      then Some {| m_next := S t; m_flight := None |}
      else None
  end.

Fixpoint monitorRun (m : monitor) (h : list hist) : option monitor :=
  match h with
  | [] => Some m
  | x :: rest => match monitorStep m x with
                 | Some m' => monitorRun m' rest
                 | None => None
                 end
  end.

Definition monitorOf (h : list hist) : option monitor :=
  monitorRun {| m_next := 0; m_flight := None |} h.

End Hfp.

(** ** The specification's call-state table *)

Module SpecTable.

(** The 24 rows of the table: [call], [callsetup], [callheld] and the
    label the specification gives for them. *)
Definition callStateTable : list (Z * Z * Z * string) :=
  [ (0, 0, 0, "idle");     (0, 0, 1, "idle");     (0, 0, 2, "held");
    (0, 1, 0, "incoming"); (0, 1, 1, "incoming"); (0, 1, 2, "incoming");
    (0, 2, 0, "dialing");  (0, 2, 1, "dialing");  (0, 2, 2, "dialing");
    (0, 3, 0, "alerting"); (0, 3, 1, "alerting"); (0, 3, 2, "alerting");
    (1, 0, 0, "active");   (1, 0, 1, "active");   (1, 0, 2, "held");
    (1, 1, 0, "incoming"); (1, 1, 1, "incoming"); (1, 1, 2, "incoming");
    (1, 2, 0, "dialing");  (1, 2, 1, "dialing");  (1, 2, 2, "dialing");
    (1, 3, 0, "alerting"); (1, 3, 1, "alerting"); (1, 3, 2, "alerting") ]%Z.

Fixpoint tableLabel (rows : list (Z * Z * Z * string)) (call callsetup callheld : Z)
  : option string :=
  match rows with
  | [] => None
  | (a, b, d, label) :: rest =>
      if ((a =? call) && (b =? callsetup) && (d =? callheld))%Z then Some label
      else tableLabel rest call callsetup callheld
  end.

(** The precedence rule in the specification's words. *)
Definition precedenceLabel (call callsetup callheld : Z) : string :=
  if ((call =? 1) && (callsetup =? 0))%Z then
    if (callheld =? 2)%Z then "held" else "active"
  else if (callsetup =? 1)%Z then "incoming"
  else if (callsetup =? 2)%Z then "dialing"
  else if (callsetup =? 3)%Z then "alerting"
  else if (callheld =? 2)%Z then "held"
  else "idle".

(** An indicator that is present has a value in its range. *)
Definition inRange (lo hi : Z) (o : option Z) : Prop :=
  match o with
  | Some z => (lo <= z <= hi)%Z
  | None => True
  end.

End SpecTable.

(** ** The specification's indicator example *)

Module SpecExample.

Definition quote (s : string) : string :=
  String Js.dquote (s +:+ String Js.dquote "").

Definition CRLF : string := String "013" (String "010" "").

(** The indicator-definition line of the example. *)
Definition definitionLine : string :=
  "+CIND: (" +:+ quote "call" +:+ ",(0,1)),("
  +:+ quote "callsetup" +:+ ",(0-3)),("
  +:+ quote "battchg" +:+ ",(0-5))".

(** The indicator-value line of the example. *)
Definition valueLine : string := "+CIND: 0,0,3".

Definition isBatteryLevel (e : Hfp.event) : bool :=
  match e with
  | Hfp.BatteryLevel _ _ => true
  | _ => false
  end.

End SpecExample.

(** ** Consistency of the engine state *)

Module HfpInv.
Import Hfp.

(** The tickets written to the channel, in order. *)
Definition sentOf (h : list hist) : list nat :=
omap (fun x => match x with HSent t => Some t | HDone _ _ => None end) h.

(** The commands in flight after a history: sent and not settled. *)
Definition outstanding (h : list hist) : list nat :=
filter (fun t => t ∉ doneOf h) (sentOf h).

(** The queue of a connection agrees with its history: the monitor
    accepts the history, the queue holds the tickets from the next one to
    complete up to the last one issued, and the flags say what the monitor
    says. A connection whose channel was destroyed has an empty queue. A
    live connection with a command in flight has that command at the head
    of its queue and the callbacks of that command installed. When nothing
    is in flight, callbacks that are still installed are left over from a
    command that timed out, and then the queue is empty; [strong] is false
    for a connection in the middle of a callback, where this last part
    need not hold. *)
Definition queueOk (strong : bool) (c : conn) : Prop :=
exists m,
  monitorOf (history c) = Some m /\
  ticket <$> _cmdQueue c = seq (m_next m) (length (_cmdQueue c)) /\
  m_next m + length (_cmdQueue c) = issued c /\
  if socket_destroyed c then _cmdQueue c = [] /\ m_flight m = None
  else if _cmdInFlight c then
    exists e rest tid,
      _cmdQueue c = e :: rest /\ _pending c = Some (ticket e, tid) /\
      m_flight m = Some (ticket e)
  else m_flight m = None /\
       (strong = true -> _pending c <> None -> _cmdQueue c = []).

(** Consistency of the whole engine. [weakAt] names the connection that
    is in the middle of a callback, if any. *)
Record Inv (weakAt : option nat) (st : state) : Prop := {
  inv_refs : forall r c, store st !! r = Some c -> r < nextRef st;
  inv_mapped : forall k r, _connections st !! k = Some r ->
    exists c, store st !! r = Some c /\ socket_destroyed c = false;
  inv_inj : forall k k' r,
    _connections st !! k = Some r -> _connections st !! k' = Some r -> k = k';
  inv_tfresh : forall tid x, timers st !! tid = Some x -> tid < nextTimer st;
  inv_timeout : forall tid r t cmd, timers st !! tid = Some (AtTimeout r t cmd) ->
    exists c, store st !! r = Some c /\ t < issued c /\
              _pending c = Some (t, tid) /\
              (socket_destroyed c = false -> _cmdInFlight c = true);
  inv_pending : forall r c t tid, store st !! r = Some c -> _pending c = Some (t, tid) ->
    tid < nextTimer st /\ t < issued c /\
    forall x, timers st !! tid = Some x -> exists cmd, x = AtTimeout r t cmd;
  inv_keepalive : forall r c k, store st !! r = Some c -> _keepaliveTimer c = Some k ->
    k < nextTimer st /\
    forall x, timers st !! k = Some x -> exists mac, x = Keepalive r mac;
  inv_queue : forall r c, store st !! r = Some c ->
    queueOk (bool_decide (weakAt <> Some r)) c
}.

(** Two connection records that agree on everything the queue and the
    timers depend on. *)
Definition sameQ (c c' : conn) : Prop :=
  socket_destroyed c' = socket_destroyed c /\
  _cmdQueue c' = _cmdQueue c /\
  _cmdInFlight c' = _cmdInFlight c /\
  _pending c' = _pending c /\
  _keepaliveTimer c' = _keepaliveTimer c /\
  issued c' = issued c /\
  history c' = history c.

(** The connection after one of its installed callbacks ran and the
    callbacks were removed: the two final-response branches of
    [_processLine]. *)
Definition afterResponse (t : nat) (o : outcome) (c : conn) : conn :=
  set_pending None
    (settle t o (set_cmdInFlight false (set_cmdQueue (tail (_cmdQueue c)) c))).

End HfpInv.

(** ** [lib/hfpProfile.js]: the receive buffer and the schedule of the queue *)

Module HfpFrame.
Import Hfp.

(** The state with the receive buffer of the connection object [r]
    replaced. *)
Definition withBuffer (b : string) (r : nat) (st : state) : state :=
  match store st !! r with
  | Some c => putConn r (set_buffer b c) st
  | None => st
  end.

(** No carriage return. *)
Definition noCR (s : string) : bool :=
  Js.allChars (fun c => negb (Ascii.eqb c "013")) s.

End HfpFrame.

Module HfpLive.
Import Hfp.

(** The command in flight on a connection object has its time-out
    pending. *)
Definition armed (st : state) (r : nat) (c : conn) : Prop :=
  _cmdInFlight c = true ->
  exists t tid text, _pending c = Some (t, tid) /\
                     timers st !! tid = Some (AtTimeout r t text).

(** A live connection with commands queued and none in flight has a send
    scheduled. *)
Definition kicked (st : state) (r : nat) (c : conn) : Prop :=
  socket_destroyed c = false -> _cmdInFlight c = false -> _cmdQueue c <> [] ->
  r ∈ immediates st.

(** Every connection object is armed and kicked; [skip] names the
    connection that is about to send, if any. *)
Definition Sched (skip : option nat) (st : state) : Prop :=
  forall r c, store st !! r = Some c ->
    armed st r c /\ (skip <> Some r -> kicked st r c).

(** Timer handles in use are below the next handle. *)
Definition tfresh (st : state) : Prop :=
  forall tid x, timers st !! tid = Some x -> tid < nextTimer st.

End HfpLive.

(** ** [lib/hfpProfile.js]: registration of the profile *)

Module HfpProfile.
Import Hfp.

(** What [register] and [unregister] ask of the bus. *)
Inductive busCall : Type :=
| Export
| GetProxyObject
| RegisterProfile
| UnregisterProfile
| Unexport.

(** The answer to a call: it succeeded, or it failed with an error that
    has a message or not. *)
Inductive busReply : Type :=
| Succeeded
| Refused (message : option string).

(** How [register] and [unregister] end. *)
Inductive ending : Type :=
| Returned
| Thrown (message : option string).

(** The profile object: the engine, the flag [_registered], and the
    calls made on the bus so far. *)
Record profile : Type := {
  engine : state;
  _registered : bool;
  calls : list busCall
}.

Definition newProfile : profile :=
  {| engine := init; _registered := false; calls := [] |}.

Section WithBus.
(** The bus answers a call, given the calls made before. *)
Variable bus : list busCall -> busCall -> busReply.

Definition call (c : busCall) (p : profile) : busReply * profile :=
  (bus (calls p) c,
   {| engine := engine p; _registered := _registered p; calls := calls p ++ [c] |}).

Definition set_registered (v : bool) (p : profile) : profile :=
  {| engine := engine p; _registered := v; calls := calls p |}.

Definition set_engine (v : state) (p : profile) : profile :=
  {| engine := v; _registered := _registered p; calls := calls p |}.

(** [e.message && (e.message.includes('AlreadyExists') ||
    e.message.includes('already registered'))]. *)
Definition alreadyExists (message : option string) : bool :=
  match message with
  | Some s => negb (String.eqb s "")
              && (Js.includes s "AlreadyExists" || Js.includes s "already registered")
  | None => false
  end.

(** [register()]. *)
Definition register (p : profile) : ending * profile :=
  let '(r1, p1) := call Export p in
  match r1 with
  | Refused e => (Thrown e, p1)
  | Succeeded =>
  let '(r2, p2) := call GetProxyObject p1 in
  match r2 with
  | Refused e => (Thrown e, p2)
  | Succeeded =>
      let '(r3, p3) := call RegisterProfile p2 in
      match r3 with
      | Succeeded => (Returned, set_registered true p3)
      | Refused e =>
          if alreadyExists e then
            let '(_, p4) := call UnregisterProfile p3 in
            let '(r5, p5) := call RegisterProfile p4 in
            match r5 with
            | Succeeded => (Returned, set_registered true p5)
            | Refused e' => (Thrown e', p5)
            end
          else (Thrown e, p3)
      end
  end
  end.

(** One turn of the loop of [unregister]: the channel of the connection
    is destroyed and its registration deleted. *)
Definition closeOne (st : state) (kr : string * nat) : state :=
  set_connections (delete kr.1 (_connections st))
    (match store st !! kr.2 with
     | Some c => putConn kr.2 (set_destroyed true c) st
     | None => st
     end).

(** The loop of [unregister] over the registered connections. *)
Definition closeAll (st : state) : state :=
  foldl closeOne st (map_to_list (_connections st)).

(** [unregister()]: a failure of a bus call is caught. *)
Definition unregister (p : profile) : ending * profile :=
  let p1 := set_engine (closeAll (engine p)) p in
  if negb (_registered p1) then (Returned, p1)
  else
    let '(r2, p2) := call GetProxyObject p1 in
    let p3 := match r2 with
              | Succeeded => snd (call UnregisterProfile p2)
              | Refused _ => p2
              end in
    (Returned, set_registered false (snd (call Unexport p3))).

End WithBus.

(** The number of registration calls among the calls on the bus. *)
Definition registerCalls (l : list busCall) : nat :=
  length (List.filter (fun c => match c with RegisterProfile => true | _ => false end) l).

End HfpProfile.

(** ** [lib/bluezManager.js]: the device manager *)

Module Bluez.
Import BluezPath.

Definition OBJECT_MANAGER_IFACE : string := "org.freedesktop.DBus.ObjectManager".
Definition PROPERTIES_IFACE : string := "org.freedesktop.DBus.Properties".
Definition DEVICE_IFACE : string := "org.bluez.Device1".
Definition GATT_SERVICE_IFACE : string := "org.bluez.GattService1".
Definition GATT_CHAR_IFACE : string := "org.bluez.GattCharacteristic1".
Definition BATTERY_IFACE : string := "org.bluez.Battery1".
Definition MEDIA_PLAYER_IFACE : string := "org.bluez.MediaPlayer1".

(** *** Values of the control bus *)

(** What a notification can carry: the JavaScript values the bus binding
    hands over. An object is its list of own properties; a variant is an
    object with the properties [signature] and [value]. Numbers are the
    integers of the bus types. *)
#[warnings="-register-all"]
Inductive JsVal : Type :=
| VUndef
| VNull
| VBool (b : bool)
| VNum (z : Z)
| VStr (s : string)
| VArr (items : list JsVal)
| VBuf (bytes : list Z)
| VObj (fields : list (string * JsVal)).

(** Truthiness. *)
Definition truthy (v : JsVal) : bool :=
  match v with
  | VUndef | VNull => false
  | VBool b => b
  | VNum z => negb (z =? 0)%Z
  | VStr s => negb (String.eqb s "")
  | VArr _ | VBuf _ | VObj _ => true
  end.

(** [a || b] and [a ?? b]. *)
Definition orElse (a b : JsVal) : JsVal := if truthy a then a else b.
Definition nullish (a b : JsVal) : JsVal :=
  match a with
  | VUndef | VNull => b
  | _ => a
  end.

(** Own property [k] of an object: the last definition wins. *)
Fixpoint field (k : string) (fields : list (string * JsVal)) : option JsVal :=
  match fields with
  | [] => None
  | (k', v) :: rest =>
      match field k rest with
      | Some v' => Some v'
      | None => if String.eqb k k' then Some v else None
      end
  end.

(** [k in v] for an object built by the manager. *)
Definition hasField (k : string) (v : JsVal) : bool :=
  match v with
  | VObj fields => bool_decide (is_Some (field k fields))
  | _ => false
  end.

(** [v.k] where [v] is known to be an object or a primitive other than
    [null] and [undefined]. *)
Definition getField (v : JsVal) (k : string) : JsVal :=
  match v with
  | VObj fields => default VUndef (field k fields)
  | _ => VUndef
  end.

(** [_unwrapValue(val)] and [_unwrapVariants(dict)]. A variant is
    replaced by its unwrapped value; a dictionary by the dictionary of its
    unwrapped values; arrays, buffers and primitives are returned as they
    are. *)
Fixpoint _unwrapValue (val : JsVal) : JsVal :=
  match val with
  | VObj fields =>
      let fix value (l : list (string * JsVal)) : option JsVal :=
        match l with
        | [] => None
        | (k, v) :: rest =>
            match value rest with
            | Some v' => Some v'
            | None => if String.eqb k "value" then Some (_unwrapValue v) else None
            end
        end in
      let fix entries (l : list (string * JsVal)) : list (string * JsVal) :=
        match l with
        | [] => []
        | (k, v) :: rest => (k, _unwrapValue v) :: entries rest
        end in
      if bool_decide (is_Some (field "value" fields))
         && bool_decide (is_Some (field "signature" fields))
      then default VUndef (value fields)
      else VObj (entries fields)
  | _ => val
  end.

Definition _unwrapVariants (dict : JsVal) : JsVal :=
  match dict with
  | VObj fields => VObj (List.map (fun kv => (fst kv, _unwrapValue (snd kv))) fields)
  | VArr items =>
      VObj (imap (fun i v => (Js.showNat i, _unwrapValue v)) items)
  | VBuf bytes =>
      VObj (imap (fun i b => (Js.showNat i, VNum b)) bytes)
  | _ => VObj []
  end.

(** *** Computations that may throw *)

(** The result of a computation: a value, or an [Error] with its
    message. The state is kept in both cases: what was done before a throw
    stays done. *)
Inductive exc (A : Type) : Type :=
| Ok (a : A)
| Throw (message : string).
Arguments Ok {A} a.
Arguments Throw {A} message.

(** *** The manager *)

(** A cached device record: the object built by [_buildDeviceInfo], as
    the map of its properties. *)
Abbreviation device := (gmap string JsVal).

(** What the manager emits. *)
Inductive bevent : Type :=
| DeviceFound (mac : string) (info : device)
| DeviceChanged (mac : string) (updates : list (string * JsVal))
| DeviceRemoved (mac : string)
| CharacteristicChanged (path : JsVal) (value : JsVal)
| MediaPlayerAdded (path : JsVal) (interfaces : JsVal)
| MediaPlayerRemoved (path : JsVal) (interfaces : JsVal)
| MediaPlayerChanged (path : JsVal) (changed : JsVal).

(** Calls on the adapter object, and what else [startDiscovery] does. *)
Inductive effect : Type :=
| StopDiscovery
| SetDiscoveryFilter (transport : string) (duplicateData : bool)
| StartDiscovery
| Delay (ms : Z).

(** A rejected bus call: the error and its message, if it has one. *)
Inductive reply : Type :=
| Done
| Failed (message : option string).

(** How a wait for resolved services ended. *)
Inductive waitOutcome : Type :=
| WaitResolved
| WaitRejected (message : string).

(** What surrounds the manager. [listener] stands for the collaborators
    subscribed to the manager's events: whether they throw on an event.
    [notifyHandler] stands for the callbacks registered with
    [startNotify]: whether the callback of a path throws on a value.
    [adapter] answers a call on the adapter object, given
    what was done before. [bufferFrom] and [bufferCompose] are the
    [Buffer] operations used on payloads: [Buffer.from] of a value, and
    the allocation, [writeUInt16LE] and [copy] of
    [_parseManufacturerData]. *)
Record env : Type := {
  listener : bevent -> option string;
  notifyHandler : string -> JsVal -> option string;
  adapter : list effect -> effect -> reply;
  bufferFrom : JsVal -> exc JsVal;
  bufferCompose : Js.num -> JsVal -> exc JsVal
}.

(** The manager object. [_waiters] are the [onChange] listeners of
    [_waitForServicesResolved] that are subscribed to [deviceChanged], in
    subscription order: each is named by the handle of its timer and
    carries the MAC address it waits for. [timers] are the pending
    time-outs of these waits, with their deadline and device path.
    [waits] are the promises of the waits that are settled. [clock] is the
    time in milliseconds. [emitted], [notified] and [effects] record what
    the manager emitted, which notify callbacks it called, and what it
    asked of the adapter. *)
Record manager : Type := {
  hciDevice : nat;
  _discovering : bool;
  _destroyed : bool;
  _devices : gmap string device;
  _deviceProxies : gset string;
  _notifyHandlers : gset string;
  _waiters : list (nat * string);
  timers : gmap nat (Z * string);
  waits : gmap nat waitOutcome;
  clock : Z;
  nextTimer : nat;
  emitted : list bevent;
  notified : list (JsVal * JsVal);
  effects : list effect
}.

Definition newManager (hci : nat) : manager :=
  {| hciDevice := hci; _discovering := false; _destroyed := false;
     _devices := ∅; _deviceProxies := ∅; _notifyHandlers := ∅;
     _waiters := []; timers := ∅; waits := ∅; clock := 0; nextTimer := 0;
     emitted := []; notified := []; effects := [] |}.

Definition set_discovering (v : bool) (m : manager) : manager :=
  {| hciDevice := hciDevice m; _discovering := v; _destroyed := _destroyed m;
     _devices := _devices m; _deviceProxies := _deviceProxies m;
     _notifyHandlers := _notifyHandlers m; _waiters := _waiters m;
     timers := timers m; waits := waits m; clock := clock m;
     nextTimer := nextTimer m; emitted := emitted m; notified := notified m;
     effects := effects m |}.

Definition set_devices (v : gmap string device) (m : manager) : manager :=
  {| hciDevice := hciDevice m; _discovering := _discovering m; _destroyed := _destroyed m;
     _devices := v; _deviceProxies := _deviceProxies m;
     _notifyHandlers := _notifyHandlers m; _waiters := _waiters m;
     timers := timers m; waits := waits m; clock := clock m;
     nextTimer := nextTimer m; emitted := emitted m; notified := notified m;
     effects := effects m |}.

Definition set_deviceProxies (v : gset string) (m : manager) : manager :=
  {| hciDevice := hciDevice m; _discovering := _discovering m; _destroyed := _destroyed m;
     _devices := _devices m; _deviceProxies := v;
     _notifyHandlers := _notifyHandlers m; _waiters := _waiters m;
     timers := timers m; waits := waits m; clock := clock m;
     nextTimer := nextTimer m; emitted := emitted m; notified := notified m;
     effects := effects m |}.

Definition set_waiters (v : list (nat * string)) (m : manager) : manager :=
  {| hciDevice := hciDevice m; _discovering := _discovering m; _destroyed := _destroyed m;
     _devices := _devices m; _deviceProxies := _deviceProxies m;
     _notifyHandlers := _notifyHandlers m; _waiters := v;
     timers := timers m; waits := waits m; clock := clock m;
     nextTimer := nextTimer m; emitted := emitted m; notified := notified m;
     effects := effects m |}.

Definition set_timers (v : gmap nat (Z * string)) (m : manager) : manager :=
  {| hciDevice := hciDevice m; _discovering := _discovering m; _destroyed := _destroyed m;
     _devices := _devices m; _deviceProxies := _deviceProxies m;
     _notifyHandlers := _notifyHandlers m; _waiters := _waiters m;
     timers := v; waits := waits m; clock := clock m;
     nextTimer := nextTimer m; emitted := emitted m; notified := notified m;
     effects := effects m |}.

Definition set_waits (v : gmap nat waitOutcome) (m : manager) : manager :=
  {| hciDevice := hciDevice m; _discovering := _discovering m; _destroyed := _destroyed m;
     _devices := _devices m; _deviceProxies := _deviceProxies m;
     _notifyHandlers := _notifyHandlers m; _waiters := _waiters m;
     timers := timers m; waits := v; clock := clock m;
     nextTimer := nextTimer m; emitted := emitted m; notified := notified m;
     effects := effects m |}.

Definition set_clock (v : Z) (m : manager) : manager :=
  {| hciDevice := hciDevice m; _discovering := _discovering m; _destroyed := _destroyed m;
     _devices := _devices m; _deviceProxies := _deviceProxies m;
     _notifyHandlers := _notifyHandlers m; _waiters := _waiters m;
     timers := timers m; waits := waits m; clock := v;
     nextTimer := nextTimer m; emitted := emitted m; notified := notified m;
     effects := effects m |}.

Definition set_nextTimer (v : nat) (m : manager) : manager :=
  {| hciDevice := hciDevice m; _discovering := _discovering m; _destroyed := _destroyed m;
     _devices := _devices m; _deviceProxies := _deviceProxies m;
     _notifyHandlers := _notifyHandlers m; _waiters := _waiters m;
     timers := timers m; waits := waits m; clock := clock m;
     nextTimer := v; emitted := emitted m; notified := notified m;
     effects := effects m |}.

Definition set_emitted (v : list bevent) (m : manager) : manager :=
  {| hciDevice := hciDevice m; _discovering := _discovering m; _destroyed := _destroyed m;
     _devices := _devices m; _deviceProxies := _deviceProxies m;
     _notifyHandlers := _notifyHandlers m; _waiters := _waiters m;
     timers := timers m; waits := waits m; clock := clock m;
     nextTimer := nextTimer m; emitted := v; notified := notified m;
     effects := effects m |}.

Definition set_notified (v : list (JsVal * JsVal)) (m : manager) : manager :=
  {| hciDevice := hciDevice m; _discovering := _discovering m; _destroyed := _destroyed m;
     _devices := _devices m; _deviceProxies := _deviceProxies m;
     _notifyHandlers := _notifyHandlers m; _waiters := _waiters m;
     timers := timers m; waits := waits m; clock := clock m;
     nextTimer := nextTimer m; emitted := emitted m; notified := v;
     effects := effects m |}.

Definition set_effects (v : list effect) (m : manager) : manager :=
  {| hciDevice := hciDevice m; _discovering := _discovering m; _destroyed := _destroyed m;
     _devices := _devices m; _deviceProxies := _deviceProxies m;
     _notifyHandlers := _notifyHandlers m; _waiters := _waiters m;
     timers := timers m; waits := waits m; clock := clock m;
     nextTimer := nextTimer m; emitted := emitted m; notified := notified m;
     effects := v |}.

(** Synchronous code of the manager: it reads and writes the manager and
    may throw. *)
Definition M (A : Type) : Type := manager -> exc A * manager.

Definition ret {A} (a : A) : M A := fun m => (Ok a, m).
Definition throw {A} (message : string) : M A := fun m => (Throw message, m).
Definition bind {A B} (x : M A) (f : A -> M B) : M B :=
  fun m => match x m with
           | (Ok a, m') => f a m'
           | (Throw e, m') => (Throw e, m')
           end.
Definition lift {A} (x : exc A) : M A := fun m => (x, m).
Definition get : M manager := fun m => (Ok m, m).
Definition modify (f : manager -> manager) : M unit := fun m => (Ok tt, f m).

(** [try { body } catch (e) { }] where the handler only logs. *)
Definition tryCatch (body : M unit) : M unit :=
  fun m => match body m with
           | (_, m') => (Ok tt, m')
           end.

Notation "'let*' x ':=' c1 'in' c2" := (bind c1 (fun x => c2))
  (at level 10, x name, c1 at level 100, c2 at level 200).
Notation "'run*' c1 'in' c2" := (bind c1 (fun _ => c2))
  (at level 10, c1 at level 100, c2 at level 200).

(** *** Waiting for resolved services *)

(** [clearTimeout(timer)]. *)
Definition clearTimer (tid : nat) (m : manager) : manager :=
  set_timers (delete tid (timers m)) m.

(** [this.removeListener('deviceChanged', onChange)] for the listener of
    the wait [tid]. *)
Definition removeListener (tid : nat) (m : manager) : manager :=
  set_waiters (List.filter (fun w => negb (fst w =? tid)%nat) (_waiters m)) m.

(** [resolve()] or [reject(..)] of the promise of the wait [tid]: only
    the first call has an effect. *)
Definition settleWait (tid : nat) (o : waitOutcome) (m : manager) : manager :=
  match waits m !! tid with
  | Some _ => m
  | None => set_waits (<[tid := o]> (waits m)) m
  end.

(** [updates.servicesResolved === true]. *)
Definition servicesResolvedTrue (updates : list (string * JsVal)) : bool :=
  match field "servicesResolved" updates with
  | Some (VBool true) => true
  | _ => false
  end.

(** The listener [onChange] of the wait [tid] for the address [mac]. *)
Definition onChange (tid : nat) (mac changedMac : string)
    (updates : list (string * JsVal)) (m : manager) : manager :=
  if String.eqb changedMac mac && servicesResolvedTrue updates then
    settleWait tid WaitResolved (removeListener tid (clearTimer tid m))
  else m.

(** A [deviceChanged] event reaches the listeners of the waits: the
    emitter calls the listeners that were subscribed when the event was
    emitted, in subscription order. *)
Definition deliverDeviceChanged (changedMac : string)
    (updates : list (string * JsVal)) (m : manager) : manager :=
  foldl (fun m w => onChange (fst w) (snd w) changedMac updates m) m (_waiters m).

(** The time-out callback of the wait [tid]. *)
Definition onWaitTimeout (tid : nat) (devicePath : string) (m : manager) : manager :=
  settleWait tid (WaitRejected ("ServicesResolved timeout for " +:+ devicePath))
    (removeListener tid m).

(** What the bus answers to the direct read of the flag: whether a proxy
    object can be made for the path (asked only when none is cached),
    and the [value] of the variant returned by [Get], or a failure. *)
Record busRead : Type := { proxyOk : bool; propertyValue : exc JsVal }.

(** How [_waitForServicesResolved] goes on after the direct read. *)
Inductive waitStart : Type :=
| ResolvedNow
| Subscribed (tid : nat).

(** The direct read of [_waitForServicesResolved]: [_getDeviceProxy]
    caches a new proxy; a failure of either step is caught. *)
Definition directRead (devicePath : string) (rd : busRead) (m : manager)
  : exc JsVal * manager :=
  if bool_decide (devicePath ∈ _deviceProxies m) then (propertyValue rd, m)
  else if proxyOk rd
       then (propertyValue rd,
             set_deviceProxies ({[devicePath]} ∪ _deviceProxies m) m)
       else (Throw "getProxyObject failed", m).

(** [_waitForServicesResolved(devicePath, timeoutMs)]. *)
Definition _waitForServicesResolved (devicePath : string) (timeoutMs : Z)
    (rd : busRead) (m : manager) : waitStart * manager :=
  match directRead devicePath rd m with
  | (Ok (VBool true), m1) => (ResolvedNow, m1)
  | (_, m1) =>
      let mac := devicePathToMac devicePath in
      let tid := nextTimer m1 in
      (Subscribed tid,
       set_waiters (_waiters m1 ++ [(tid, mac)])
         (set_nextTimer (S tid)
            (set_timers (<[tid := (clock m1 + timeoutMs, devicePath)%Z]> (timers m1)) m1)))
  end.

(** A GATT characteristic and a service as [discoverServices] returns
    them. *)
Record characteristic : Type :=
  { char_uuid : JsVal; char_path : string; char_flags : JsVal }.
Record service : Type :=
  { svc_uuid : JsVal; svc_path : string; svc_primary : JsVal;
    characteristics : list characteristic }.

(** The walk of [discoverServices] over the managed objects, in the order
    of [Object.entries]. *)
Definition enumerateServices (devicePath : string) (objects : list (string * JsVal))
  : list service :=
  omap (fun '(objPath, ifaces) =>
    if Js.startsWith objPath (devicePath +:+ "/")
       && truthy (getField ifaces GATT_SERVICE_IFACE)
    then
      let svcProps := _unwrapVariants (getField ifaces GATT_SERVICE_IFACE) in
      Some {| svc_uuid := orElse (getField svcProps "UUID") (VStr "");
              svc_path := objPath;
              svc_primary := nullish (getField svcProps "Primary") (VBool true);
              characteristics :=
                omap (fun '(charPath, charIfaces) =>
                  if Js.startsWith charPath (objPath +:+ "/")
                     && truthy (getField charIfaces GATT_CHAR_IFACE)
                  then
                    let charProps := _unwrapVariants (getField charIfaces GATT_CHAR_IFACE) in
                    Some {| char_uuid := orElse (getField charProps "UUID") (VStr "");
                            char_path := charPath;
                            char_flags := orElse (getField charProps "Flags") (VArr []) |}
                  else None) objects |}
    else None) objects.

(** [discoverServices(devicePath)] up to the end of its wait: it goes on
    to the enumeration at once, or it is suspended on the wait [tid]. *)
Definition discoverServices (devicePath : string) (rd : busRead) (m : manager)
  : waitStart * manager :=
  _waitForServicesResolved devicePath 30000 rd m.

(** The event loop looks at a time-out and runs it if it is due. *)
Definition dueStep (m : manager) (t : nat * (Z * string)) : manager :=
  if (fst (snd t) <=? clock m)%Z
  then onWaitTimeout (fst t) (snd (snd t)) (clearTimer (fst t) m)
  else m.

(** The event loop runs the time-outs that are due, each once. *)
Definition runDueTimers (m : manager) : manager :=
  foldl dueStep m (map_to_list (timers m)).

(** What happens around a wait: a [deviceChanged] event is emitted, time
    passes (and the time-outs that become due run), and another
    [discoverServices] is called. *)
Inductive waitEvent : Type :=
| Emits (mac : string) (updates : list (string * JsVal))
| Elapses (ms : Z)
| Discovers (devicePath : string) (rd : busRead).

Definition waitStep (e : waitEvent) (m : manager) : manager :=
  match e with
  | Emits mac updates => deliverDeviceChanged mac updates m
  | Elapses ms => runDueTimers (set_clock (clock m + Z.max 0 ms) m)
  | Discovers devicePath rd => snd (discoverServices devicePath rd m)
  end.

Definition waitRun (tr : list waitEvent) (m : manager) : manager :=
  foldl (fun m e => waitStep e m) m tr.

(** The specification of a wait that was subscribed at time [now] for
    the address [mac]: it resolves at the first event for the address that
    carries the flag, and it is rejected with the time-out error as soon
    as the time reaches [deadline] without such an event. *)
Fixpoint expectedWait (mac devicePath : string) (deadline now : Z)
    (tr : list waitEvent) : option waitOutcome :=
  match tr with
  | [] => None
  | Emits mac' updates :: rest =>
      if String.eqb mac' mac && servicesResolvedTrue updates
      then Some WaitResolved
      else expectedWait mac devicePath deadline now rest
  | Elapses ms :: rest =>
      if (deadline <=? now + Z.max 0 ms)%Z
      then Some (WaitRejected ("ServicesResolved timeout for " +:+ devicePath))
      else expectedWait mac devicePath deadline (now + Z.max 0 ms) rest
  | Discovers _ _ :: rest => expectedWait mac devicePath deadline now rest
  end.

(** Handles in use are below the next handle. *)
Definition wfWaits (m : manager) : Prop :=
  (forall tid mac, (tid, mac) ∈ _waiters m -> tid < nextTimer m) /\
  (forall tid x, timers m !! tid = Some x -> tid < nextTimer m) /\
  (forall tid o, waits m !! tid = Some o -> tid < nextTimer m).

(** The wait [tid] is subscribed and not settled. *)
Definition pendingWait (tid : nat) (mac devicePath : string) (deadline : Z)
    (m : manager) : Prop :=
  waits m !! tid = None /\
  timers m !! tid = Some (deadline, devicePath) /\
  (tid, mac) ∈ _waiters m /\
  (forall mac', (tid, mac') ∈ _waiters m -> mac' = mac) /\
  tid < nextTimer m.

Section WithEnv.
Variable E : env.

(** *** Discovery *)

(** A call on the adapter object: the answer depends on what was asked
    before. *)
Definition callAdapter (c : effect) (m : manager) : reply * manager :=
  (adapter E (effects m) c, set_effects (effects m ++ [c]) m).

(** How an [async] method ends. *)
Inductive completion : Type :=
| Returns
| Rejects (message : option string).

(** [e.message && (e.message.includes('InProgress') ||
    e.message.includes('already in progress'))]. *)
Definition inProgress (message : option string) : bool :=
  match message with
  | Some s => negb (String.eqb s "")
              && (Js.includes s "InProgress" || Js.includes s "already in progress")
  | None => false
  end.

(** The part of [startDiscovery] before the start call: a stale session
    is stopped, with a pause after a stop that succeeded, and the filter
    is set; failures of both are ignored. *)
Definition prepareDiscovery (transport : string) (m : manager) : manager :=
  let '(r, m1) := callAdapter StopDiscovery m in
  let m2 := match r with
            | Done => set_effects (effects m1 ++ [Delay 300]) m1
            | Failed _ => m1
            end in
  snd (callAdapter (SetDiscoveryFilter transport true) m2).

(** [startDiscovery(transport)]. *)
Definition startDiscovery (transport : string) (m : manager) : completion * manager :=
  if _destroyed m then (Returns, m)
  else if _discovering m then (Returns, m)
  else
    let '(r, m1) := callAdapter StartDiscovery (prepareDiscovery transport m) in
    match r with
    | Done => (Returns, set_discovering true m1)
    | Failed message =>
        if inProgress message then (Returns, set_discovering true m1)
        else (Rejects message, m1)
    end.

(** [stopDiscovery()]. *)
Definition stopDiscovery (m : manager) : completion * manager :=
  if negb (_discovering m) then (Returns, m)
  else (Returns, set_discovering false (snd (callAdapter StopDiscovery m))).

(** The number of start calls among the effects. *)
Definition startCalls (l : list effect) : nat :=
  length (List.filter (fun c => match c with StartDiscovery => true | _ => false end) l).

(** *** The dispatcher *)

(** A notification as the bus binding delivers it. *)
Record message : Type := {
  msg_interface : JsVal;
  msg_member : JsVal;
  msg_body : JsVal;
  msg_path : JsVal
}.

(** [this.emit(..)]: the listeners run in subscription order, first those
    of the collaborators, which were subscribed when the manager was set
    up, then the listeners of the waits. A listener that throws ends the
    emission. *)
Definition emit (ev : bevent) : M unit := fun m =>
  let m1 := set_emitted (emitted m ++ [ev]) m in
  match listener E ev with
  | Some err => (Throw err, m1)
  | None =>
      (Ok tt,
       match ev with
       | DeviceChanged mac updates => deliverDeviceChanged mac updates m1
       | _ => m1
       end)
  end.

(** [v === s] for a string constant. *)
Definition isStr (s : string) (v : JsVal) : bool :=
  match v with
  | VStr s' => String.eqb s' s
  | _ => false
  end.

(** [v[k]]: a [TypeError] on [undefined] and [null]. *)
Definition getProp (v : JsVal) (k : string) : exc JsVal :=
  match v with
  | VUndef | VNull => Throw "TypeError: Cannot read properties"
  | _ => Ok (getField v k)
  end.

(** Methods of strings and arrays called on a value that may be anything:
    a [TypeError] when the value has no such method. *)
Definition jsStartsWith (v : JsVal) (p : string) : exc bool :=
  match v with
  | VStr s => Ok (Js.startsWith s p)
  | _ => Throw "TypeError: startsWith is not a function"
  end.

Definition bytesToString (bytes : list Z) : string :=
  string_of_list_ascii (List.map (fun b => ascii_of_nat (Z.to_nat b)) bytes).

Definition jsIncludes (v : JsVal) (s : string) : exc bool :=
  match v with
  | VArr items => Ok (existsb (isStr s) items)
  | VStr s' => Ok (Js.includes s' s)
  | VBuf bytes => Ok (Js.includes (bytesToString bytes) s)
  | _ => Throw "TypeError: includes is not a function"
  end.

Definition jsToUpperCase (v : JsVal) : exc string :=
  match v with
  | VStr s => Ok (Js.toUpperCase s)
  | _ => Throw "TypeError: toUpperCase is not a function"
  end.

Definition jsDevicePathToMac (v : JsVal) : exc string :=
  match v with
  | VStr s => Ok (devicePathToMac s)
  | _ => Throw "TypeError: match is not a function"
  end.

(** The elements an array pattern takes from a value; a [TypeError] when
    the value is not iterable. *)
Definition iterate (v : JsVal) : exc (list JsVal) :=
  match v with
  | VArr items => Ok items
  | VStr s => Ok (List.map (fun c => VStr (String c "")) (list_ascii_of_string s))
  | VBuf bytes => Ok (VNum <$> bytes)
  | _ => Throw "TypeError: not iterable"
  end.

Definition element (i : nat) (l : list JsVal) : JsVal := default VUndef (l !! i).

(** [Object.entries(v)] of an object, an array or a buffer. *)
Definition entriesOf (v : JsVal) : list (string * JsVal) :=
  match v with
  | VObj fields => fields
  | VArr items => imap (fun i x => (Js.showNat i, x)) items
  | VBuf bytes => imap (fun i b => (Js.showNat i, VNum b)) bytes
  | _ => []
  end.

Definition isObject (v : JsVal) : bool :=
  match v with
  | VArr _ | VBuf _ | VObj _ => true
  | _ => false
  end.

(** The payload as a buffer: a buffer as it is, an array through
    [Buffer.from], anything else as the empty buffer. *)
Definition payloadBuffer (payloadBytes : JsVal) : exc JsVal :=
  match payloadBytes with
  | VBuf _ => Ok payloadBytes
  | VArr _ => bufferFrom E payloadBytes
  | _ => Ok (VBuf [])
  end.

(** [_parseManufacturerData(mfData)]. *)
Definition _parseManufacturerData (mfData : JsVal) : exc JsVal :=
  if negb (truthy mfData) || negb (isObject mfData) then Ok VNull
  else
    match entriesOf mfData with
    | [] => Ok VNull
    | (companyIdStr, payload) :: _ =>
        match payloadBuffer (_unwrapValue payload) with
        | Ok payloadBuf => bufferCompose E (Js.Number companyIdStr) payloadBuf
        | Throw e => Throw e
        end
    end.

(** The short form of a service UUID. *)
Definition shortUuid (uuid : string) : string :=
  let normalized := Js.keepClass (fun c => negb (Ascii.eqb c "-")) (Js.toLowerCase uuid) in
  if (String.length normalized =? 32)%nat
  then Js.takeChars 4 (Js.dropChars 4 normalized)
  else normalized.

(** [_parseServiceData(svcData)]. *)
Fixpoint serviceEntries (entries : list (string * JsVal)) : exc (list JsVal) :=
  match entries with
  | [] => Ok []
  | (uuid, payload) :: rest =>
      match payloadBuffer (_unwrapValue payload) with
      | Ok data =>
          match serviceEntries rest with
          | Ok l => Ok (VObj [("uuid", VStr (shortUuid uuid)); ("data", data)] :: l)
          | Throw e => Throw e
          end
      | Throw e => Throw e
      end
  end.

Definition _parseServiceData (svcData : JsVal) : exc JsVal :=
  if negb (truthy svcData) || negb (isObject svcData) then Ok (VArr [])
  else match serviceEntries (entriesOf svcData) with
       | Ok l => Ok (VArr l)
       | Throw e => Throw e
       end.

(** [_detectDeviceType(addressType, btClass)]. *)
Definition _detectDeviceType (addressType btClass : JsVal) : string :=
  let hasBle := isStr "public" addressType || isStr "random" addressType in
  let hasClassic := match btClass with
                    | VNum z => (0 <? z)%Z
                    | _ => false
                    end in
  if hasBle && hasClassic then "dual"
  else if hasClassic then "classic"
  else "le".

(** [_buildDeviceInfo(path, props)]. *)
Definition _buildDeviceInfo (path : string) (props : JsVal) : exc device :=
  let addressType := orElse (getField props "AddressType") (VStr "unknown") in
  let btClass := nullish (getField props "Class") VNull in
  match _parseManufacturerData (getField props "ManufacturerData") with
  | Throw e => Throw e
  | Ok manufacturerData =>
      match _parseServiceData (getField props "ServiceData") with
      | Throw e => Throw e
      | Ok serviceData =>
          Ok (list_to_map
                [ ("path", VStr path);
                  ("address", orElse (getField props "Address") (VStr ""));
                  ("name", orElse (getField props "Name") (VStr ""));
                  ("alias", orElse (getField props "Alias") (VStr ""));
                  ("rssi", nullish (getField props "RSSI") VNull);
                  ("txPower", nullish (getField props "TxPower") VNull);
                  ("paired", nullish (getField props "Paired") (VBool false));
                  ("bonded", nullish (getField props "Bonded") (VBool false));
                  ("trusted", nullish (getField props "Trusted") (VBool false));
                  ("blocked", nullish (getField props "Blocked") (VBool false));
                  ("connected", nullish (getField props "Connected") (VBool false));
                  ("addressType", addressType);
                  ("class", btClass);
                  ("icon", orElse (getField props "Icon") (VStr ""));
                  ("battery", VNull);
                  ("servicesResolved",
                   nullish (getField props "ServicesResolved") (VBool false));
                  ("type", VStr (_detectDeviceType addressType btClass));
                  ("manufacturerData", manufacturerData);
                  ("serviceData", serviceData);
                  ("uuids", match getField props "UUIDs" with
                            | VArr l => VArr l
                            | _ => VArr []
                            end) ])
      end
  end.

(** [this._devices.set(mac, info)] and an assignment to a property of the
    cached record of [mac]. *)
Definition setDevice (mac : string) (info : device) (m : manager) : manager :=
  set_devices (<[mac := info]> (_devices m)) m.

Definition setDeviceField (mac k : string) (v : JsVal) (m : manager) : manager :=
  set_devices (alter (fun d => <[k := v]> d) mac (_devices m)) m.

(** [_onInterfacesAdded(path, interfaces)]. *)
Definition _onInterfacesAdded (path interfaces : JsVal) : M unit :=
  let* m := get in
  let prefix := adapterPath (hciDevice m) in
  let* media := lift (getProp interfaces MEDIA_PLAYER_IFACE) in
  run* (if truthy media then
          let* inScope := lift (jsStartsWith path prefix) in
          if inScope then emit (MediaPlayerAdded path interfaces) else ret tt
        else ret tt) in
  if negb (truthy (getField interfaces DEVICE_IFACE)) then ret tt else
  let* inScope := lift (jsStartsWith path prefix) in
  if negb inScope then ret tt else
  let props := _unwrapVariants (getField interfaces DEVICE_IFACE) in
  let* mac := (if truthy (getField props "Address")
               then lift (jsToUpperCase (getField props "Address"))
               else lift (jsDevicePathToMac path)) in
  if String.eqb mac "" then ret tt else
  match path with
  | VStr p =>
      let* info := lift (_buildDeviceInfo p props) in
      let info' :=
        if truthy (getField interfaces BATTERY_IFACE)
        then <["battery" :=
                 nullish (getField (_unwrapVariants (getField interfaces BATTERY_IFACE))
                            "Percentage") VNull]> info
        else info in
      run* modify (setDevice mac info') in
      emit (DeviceFound mac info')
  | _ => ret tt
  end.

(** [_onInterfacesRemoved(path, interfaces)]. *)
Definition _onInterfacesRemoved (path interfaces : JsVal) : M unit :=
  let* isMedia := lift (jsIncludes interfaces MEDIA_PLAYER_IFACE) in
  run* (if isMedia then emit (MediaPlayerRemoved path interfaces) else ret tt) in
  let* isDevice := lift (jsIncludes interfaces DEVICE_IFACE) in
  if negb isDevice then ret tt else
  let* mac := lift (jsDevicePathToMac path) in
  if String.eqb mac "" then ret tt else
  run* modify (fun m =>
         set_deviceProxies
           (match path with
            | VStr p => _deviceProxies m ∖ {[p]}
            | _ => _deviceProxies m
            end)
           (set_devices (delete mac (_devices m)) m)) in
  emit (DeviceRemoved mac).

(** The properties [_onDevicePropertiesChanged] copies as they are: the
    name on the bus and the name in the record. *)
Definition plainProperties : list (string * string) :=
  [ ("RSSI", "rssi"); ("Connected", "connected"); ("Paired", "paired");
    ("Bonded", "bonded"); ("Trusted", "trusted"); ("Blocked", "blocked");
    ("Name", "name"); ("Alias", "alias"); ("TxPower", "txPower");
    ("ServicesResolved", "servicesResolved") ].

(** One property that is parsed before it is stored. *)
Definition parsedProperty (mac busName name : string) (parse : JsVal -> exc JsVal)
    (unwrapped : JsVal) (updates : list (string * JsVal))
  : M (list (string * JsVal)) :=
  if hasField busName unwrapped then
    let* v := lift (parse (getField unwrapped busName)) in
    run* modify (setDeviceField mac name v) in
    ret (updates ++ [(name, v)])
  else ret updates.

(** [_onDevicePropertiesChanged(path, changed)]. *)
Definition _onDevicePropertiesChanged (path : string) (changed : JsVal) : M unit :=
  let mac := devicePathToMac path in
  if String.eqb mac "" then ret tt else
  let* m := get in
  run* (match _devices m !! mac with
        | Some _ => ret tt
        | None =>
            let* info := lift (_buildDeviceInfo path (VObj [])) in
            modify (setDevice mac (<["address" := VStr mac]> info))
        end) in
  let unwrapped := _unwrapVariants changed in
  let plain :=
    omap (fun '(busName, name) =>
            if hasField busName unwrapped
            then Some (name, getField unwrapped busName)
            else None) plainProperties in
  run* modify (fun m => foldl (fun m '(name, v) => setDeviceField mac name v m) m plain) in
  let* updates1 := parsedProperty mac "ManufacturerData" "manufacturerData"
                     _parseManufacturerData unwrapped plain in
  let* updates := parsedProperty mac "ServiceData" "serviceData"
                    _parseServiceData unwrapped updates1 in
  match updates with
  | [] => ret tt
  | _ => emit (DeviceChanged mac updates)
  end.

(** [_onBatteryChanged(path, changed)]. *)
Definition _onBatteryChanged (path : string) (changed : JsVal) : M unit :=
  let mac := devicePathToMac path in
  if String.eqb mac "" then ret tt else
  let* m := get in
  match _devices m !! mac with
  | None => ret tt
  | Some _ =>
      let unwrapped := _unwrapVariants changed in
      if hasField "Percentage" unwrapped then
        run* modify (setDeviceField mac "battery" (getField unwrapped "Percentage")) in
        emit (DeviceChanged mac [("battery", getField unwrapped "Percentage")])
      else ret tt
  end.

(** The GATT branch of [_onPropertiesChanged]: the callback registered
    for the path is called inside its own [try], then the event is
    emitted. *)
Definition onCharacteristicChanged (path changed : JsVal) : M unit :=
  let unwrapped := _unwrapVariants changed in
  if hasField "Value" unwrapped then
    let* buf := lift (bufferFrom E (orElse (getField unwrapped "Value") (VArr []))) in
    let* m := get in
    run* (match path with
          | VStr p =>
              if bool_decide (p ∈ _notifyHandlers m)
              then tryCatch
                     (run* modify (fun m => set_notified (notified m ++ [(path, buf)]) m) in
                      match notifyHandler E p buf with
                      | Some err => throw err
                      | None => ret tt
                      end)
              else ret tt
          | _ => ret tt
          end) in
    emit (CharacteristicChanged path buf)
  else ret tt.

(** The test [iface === X && path.startsWith(prefix)]. *)
Definition onScope (iface : JsVal) (name : string) (path : JsVal) (prefix : string)
  : M bool :=
  if isStr name iface then lift (jsStartsWith path prefix) else ret false.

(** [_onPropertiesChanged(path, iface, changed, _invalidated)]. *)
Definition _onPropertiesChanged (path iface changed : JsVal) : M unit :=
  let* m := get in
  let prefix := adapterPath (hciDevice m) in
  let* isDevice := onScope iface DEVICE_IFACE path (prefix +:+ "/dev_") in
  if isDevice then
    match path with
    | VStr p => _onDevicePropertiesChanged p changed
    | _ => ret tt
    end
  else
  let* isBattery := onScope iface BATTERY_IFACE path (prefix +:+ "/dev_") in
  if isBattery then
    match path with
    | VStr p => _onBatteryChanged p changed
    | _ => ret tt
    end
  else
  let* isMedia := onScope iface MEDIA_PLAYER_IFACE path prefix in
  if isMedia then emit (MediaPlayerChanged path (_unwrapVariants changed))
  else if isStr GATT_CHAR_IFACE iface && truthy changed
  then onCharacteristicChanged path changed
  else ret tt.

(** The body of the [try] of [_onDbusMessage]. *)
Definition dispatch (msg : message) : M unit :=
  if isStr OBJECT_MANAGER_IFACE (msg_interface msg)
     && isStr "InterfacesAdded" (msg_member msg) && truthy (msg_body msg)
  then
    let* parts := lift (iterate (msg_body msg)) in
    _onInterfacesAdded (element 0 parts) (element 1 parts)
  else if isStr OBJECT_MANAGER_IFACE (msg_interface msg)
          && isStr "InterfacesRemoved" (msg_member msg) && truthy (msg_body msg)
  then
    let* parts := lift (iterate (msg_body msg)) in
    _onInterfacesRemoved (element 0 parts) (element 1 parts)
  else if isStr PROPERTIES_IFACE (msg_interface msg)
          && isStr "PropertiesChanged" (msg_member msg) && truthy (msg_body msg)
          && truthy (msg_path msg)
  then
    let* parts := lift (iterate (msg_body msg)) in
    _onPropertiesChanged (msg_path msg) (element 0 parts) (element 1 parts)
  else ret tt.

(** [_onDbusMessage(msg)]. A value that is no object, [null] or
    [undefined] is [None]. *)
Definition _onDbusMessage (msg : option message) : M unit := fun m =>
  match msg with
  | None => (Ok tt, m)
  | Some msg =>
      if _destroyed m || negb (truthy (msg_interface msg)) then (Ok tt, m)
      else tryCatch (dispatch msg) m
  end.

(** The bus connection hands the notifications to the dispatcher one
    after the other; an exception that left the dispatcher would end
    this. *)
Fixpoint busLoop (msgs : list (option message)) : M unit :=
  match msgs with
  | [] => ret tt
  | msg :: rest => run* _onDbusMessage msg in busLoop rest
  end.

End WithEnv.

End Bluez.

(** ** Statements about the manager *)

Module BluezInv.
Import BluezPath Bluez.




(** An adapter on which discovery is already running. *)
Definition busyAdapter : env :=
  {| listener := fun _ => None;
     notifyHandler := fun _ _ => None;
     adapter := fun _ c =>
       match c with
       | StartDiscovery => Failed (Some "org.bluez.Error.InProgress: Operation already in progress")
       | StopDiscovery => Failed (Some "org.bluez.Error.Failed: No discovery started")
       | _ => Done
       end;
     bufferFrom := fun v => Ok v;
     bufferCompose := fun _ v => Ok v |}.

(** Collaborators whose listeners throw on every [deviceFound] event. *)
Definition throwingListener : env :=
  {| listener := fun ev => match ev with
                           | DeviceFound _ _ => Some "listener failed"
                           | _ => None
                           end;
     notifyHandler := fun _ _ => None;
     adapter := fun _ _ => Done;
     bufferFrom := fun v => Ok v;
     bufferCompose := fun _ v => Ok v |}.

End BluezInv.

(** ** [lib/bluezManager.js]: the device cache and the waits *)

Module BluezCache.
Import BluezPath Bluez.

(** A computation under which a property of the device cache, once
    true, stays true. *)
Definition preservesCache (Q : gmap string device -> Prop) {A} (x : M A) : Prop :=
  forall m, Q (_devices m) -> Q (_devices (x m).2).

(** The cache holds a record for [mac] that names [path] and [mac]. *)
Definition hasRecord (mac path : string) (devices : gmap string device) : Prop :=
  exists d, devices !! mac = Some d /\
            d !! "path" = Some (VStr path) /\ d !! "address" = Some (VStr mac).

End BluezCache.

Module BluezWaits.
Import BluezPath Bluez.

(** The listeners and the time-outs of the waits go together: a wait has
    a pending time-out exactly when its listener is subscribed, and a
    settled wait has neither. *)
Definition tidyWaits (m : manager) : Prop :=
  wfWaits m /\
  (forall tid, is_Some (waits m !! tid) -> timers m !! tid = None) /\
  (forall tid, is_Some (timers m !! tid) <-> exists mac, (tid, mac) ∈ _waiters m).

End BluezWaits.

(** ** The adapter: the callers of the two libraries *)

Module AdapterIds.
Import BluezPath.

Definition isColon (c : ascii) : bool := Ascii.eqb c ":".

(** [-[0-9A-F]{2}] at the head of a text. *)
Definition dashOctet (s : string) : option string :=
  match s with
  | String "-" r => upperOctet r
  | _ => None
  end.

(** [/^[0-9A-F]{2}(-[0-9A-F]{2}){5}$/.test(p)]. *)
Definition isDashedMac (p : string) : bool :=
  match sixTimes upperOctet dashOctet p with
  | Some EmptyString => true
  | _ => false
  end.

(** [_extractMacFromId(localId)]: the first part of the id between dots
    that is a dashed MAC address; [None] is [null]. *)
Definition _extractMacFromId (localId : string) : option string :=
  List.find isDashedMac (Js.split "." localId).

(** [mac.replace(/-/g, ':')], what [onStateChange] hands to the
    libraries. *)
Definition toColons (mac : string) : string := Js.replaceClass isDash ":" mac.

(** [mac.replace(/:/g, '-').toUpperCase()], the device id under which the
    event handlers keep the states of a device. *)
Definition devIdOf (mac : string) : string :=
  Js.toUpperCase (Js.replaceClass isColon "-" mac).

End AdapterIds.

Module AdapterRetry.

(** An entry of [this._reconnect]. *)
Record retry := { attempt : nat; timer : option nat }.

(** A pending [setTimeout] of [_scheduleHfpReconnect]: the device its
    callback retries, and its delay in milliseconds. *)
Inductive pendingTimer : Type :=
| HfpRetry (mac : string) (delay : Z).

(** The part of the adapter that [_scheduleHfpReconnect] reads and
    writes: [_stopping], whether [this.hfp] is set, the map
    [_reconnect], and the timers of the event loop with the next free
    handle. *)
Record adapterState := {
  _stopping : bool;
  hfp : bool;
  _reconnect : gmap string retry;
  timers : gmap nat pendingTimer;
  nextTimer : nat
}.

(** [Math.min(5000 * Math.pow(2, rs.attempt), 60000)]. *)
Definition hfpDelay (attempt : nat) : Z :=
  Z.min (5000 * 2 ^ Z.of_nat attempt) 60000.

(** [_scheduleHfpReconnect(mac)]. *)
Definition _scheduleHfpReconnect (mac : string) (a : adapterState) : adapterState :=
  if _stopping a || negb (hfp a) then a
  else
    let key := "hfp:" +:+ mac in
    let rs := default {| attempt := 0; timer := None |} (_reconnect a !! key) in
    if (10 <=? attempt rs)%nat then
      {| _stopping := _stopping a; hfp := hfp a;
         _reconnect := delete key (_reconnect a);
         timers := timers a; nextTimer := nextTimer a |}
    else
      let delay := hfpDelay (attempt rs) in
      let cleared := match timer rs with
                     | Some t => delete t (timers a)
                     | None => timers a
                     end in
      let tid := nextTimer a in
      {| _stopping := _stopping a; hfp := hfp a;
         _reconnect := <[key := {| attempt := S (attempt rs); timer := Some tid |}]>
                         (_reconnect a);
         timers := <[tid := HfpRetry mac delay]> cleared;
         nextTimer := S tid |}.

(** A new adapter with the HFP profile set up. *)
Definition newAdapter : adapterState :=
  {| _stopping := false; hfp := true; _reconnect := ∅; timers := ∅; nextTimer := 0 |}.

End AdapterRetry.

(** * Properties *)

#[local] Arguments String.append !s1 s2 /.

(** ** Path and MAC conversion *)

Section PathRoundTrip.
Import BluezPath.

Lemma upperHex_isHex c : isUpperHex c = true -> Js.isHex c = true.
Proof.
  destruct c as [[] [] [] [] [] [] [] []]; vm_compute; congruence.
Qed.

Lemma upperHex_upperChar c : isUpperHex c = true -> Js.upperChar c = c.
Proof.
  destruct c as [[] [] [] [] [] [] [] []]; vm_compute; congruence.
Qed.

Lemma upperHex_plain c :
  isUpperHex c = true ->
  isColonOrDash c = false /\ isUnderscore c = false /\ c <> "d"%char.
Proof.
  destruct c as [[] [] [] [] [] [] [] []]; vm_compute; intuition congruence.
Qed.

(** The search skips a prefix in which the pattern cannot start. *)
Lemma searchMac_skip p s :
  Js.allChars (fun c => negb (Ascii.eqb c "d")) p = true ->
  searchMac (p +:+ s) = searchMac s.
Proof.
  unfold searchMac.
  induction p as [|c p IH]; simpl; [reflexivity|].
  intros H. apply andb_true_iff in H as [Hc Hp].
  unfold macPatternAt, Js.startsWith. simpl.
  destruct (Ascii.eqb_spec c "d") as [->|Hne]; [discriminate|].
  destruct c as [[] [] [] [] [] [] [] []]; try (exfalso; apply Hne; reflexivity);
    simpl; exact (IH Hp).
Qed.

Lemma uint_digits_no_d d :
  Js.allChars (fun c => negb (Ascii.eqb c "d")) (NilEmpty.string_of_uint d) = true.
Proof. induction d; simpl; auto. Qed.

Lemma adapterPath_no_d n :
  Js.allChars (fun c => negb (Ascii.eqb c "d")) (adapterPath n +:+ "/") = true.
Proof.
  unfold adapterPath, Js.showNat, NilZero.string_of_uint.
  assert (G : forall s, Js.allChars (fun c => negb (Ascii.eqb c "d")) s = true ->
              Js.allChars (fun c => negb (Ascii.eqb c "d")) (s +:+ "/") = true).
  { induction s as [|c s IH]; simpl; [reflexivity|].
    intros H. apply andb_true_iff in H as [-> Hs]. simpl. auto. }
  simpl. apply G. destruct (Nat.to_uint n) eqn:E; try reflexivity;
    rewrite <- E; apply uint_digits_no_d.
Qed.

Lemma upperOctet_inv s r :
  upperOctet s = Some r ->
  exists a b, s = String a (String b r) /\ isUpperHex a = true /\ isUpperHex b = true.
Proof.
  destruct s as [|a [|b t]]; simpl; try discriminate.
  destruct (isUpperHex a) eqn:Ea; simpl; try discriminate.
  destruct (isUpperHex b) eqn:Eb; simpl; try discriminate.
  intros [= <-]. eauto.
Qed.

Lemma colonOctet_inv s r :
  colonOctet s = Some r ->
  exists a b, s = String ":" (String a (String b r))
              /\ isUpperHex a = true /\ isUpperHex b = true.
Proof.
  destruct s as [|c t]; simpl; try discriminate.
  destruct (Ascii.eqb_spec c ":") as [->|Hne].
  - intros H. apply upperOctet_inv in H as (a & b & -> & Ha & Hb). eauto.
  - destruct c as [[] [] [] [] [] [] [] []]; try discriminate.
    exfalso. apply Hne. reflexivity.
Qed.

Lemma canonical_inv mac :
  isCanonicalMac mac = true ->
  exists a1 b1 a2 b2 a3 b3 a4 b4 a5 b5 a6 b6,
    mac = String a1 (String b1 (String ":" (String a2 (String b2 (String ":"
          (String a3 (String b3 (String ":" (String a4 (String b4 (String ":"
          (String a5 (String b5 (String ":" (String a6 (String b6 ""))))))))))))))))
    /\ Forall (fun c => isUpperHex c = true)
              [a1; b1; a2; b2; a3; b3; a4; b4; a5; b5; a6; b6].
Proof.
  unfold isCanonicalMac, sixTimes. intros H.
  destruct (upperOctet mac) as [r1|] eqn:E1; simpl in H; [|discriminate].
  destruct (colonOctet r1) as [r2|] eqn:E2; simpl in H; [|discriminate].
  destruct (colonOctet r2) as [r3|] eqn:E3; simpl in H; [|discriminate].
  destruct (colonOctet r3) as [r4|] eqn:E4; simpl in H; [|discriminate].
  destruct (colonOctet r4) as [r5|] eqn:E5; simpl in H; [|discriminate].
  destruct (colonOctet r5) as [r6|] eqn:E6; simpl in H; [|discriminate].
  destruct r6; [|discriminate].
  apply upperOctet_inv in E1 as (a1 & b1 & -> & ? & ?).
  apply colonOctet_inv in E2 as (a2 & b2 & -> & ? & ?).
  apply colonOctet_inv in E3 as (a3 & b3 & -> & ? & ?).
  apply colonOctet_inv in E4 as (a4 & b4 & -> & ? & ?).
  apply colonOctet_inv in E5 as (a5 & b5 & -> & ? & ?).
  apply colonOctet_inv in E6 as (a6 & b6 & -> & ? & ?).
  exists a1, b1, a2, b2, a3, b3, a4, b4, a5, b5, a6, b6.
  split; [reflexivity|]. repeat constructor; assumption.
Qed.

Lemma to_path_char c :
  isUpperHex c = true ->
  Js.upperChar (if isColonOrDash c then "_"%char else c) = c.
Proof.
  intros H. destruct (upperHex_plain c H) as (-> & _ & _).
  apply upperHex_upperChar, H.
Qed.

Lemma to_mac_char c :
  isUpperHex c = true ->
  Js.upperChar (if isUnderscore c then ":"%char else c) = c.
Proof.
  intros H. destruct (upperHex_plain c H) as (_ & -> & _).
  apply upperHex_upperChar, H.
Qed.

Lemma append_assoc_str (a b c : string) : (a +:+ b) +:+ c = a +:+ (b +:+ c).
Proof. induction a as [|x a IH]; simpl; [reflexivity | rewrite IH; reflexivity]. Qed.

Lemma searchMac_hit s g : macPatternAt s = Some g -> searchMac s = Some g.
Proof. intros H. unfold searchMac. destruct s; cbn [Js.search]; rewrite H; reflexivity. Qed.

Lemma hexPair_upper a b r :
  isUpperHex a = true -> isUpperHex b = true ->
  hexPair (String a (String b r)) = Some r.
Proof. intros Ha Hb. simpl. rewrite !upperHex_isHex by assumption. reflexivity. Qed.

Lemma sepHexPair_upper a b r :
  isUpperHex a = true -> isUpperHex b = true ->
  sepHexPair (String "_" (String a (String b r))) = Some r.
Proof. intros Ha Hb. simpl. rewrite !upperHex_isHex by assumption. reflexivity. Qed.

(** C9: a canonical MAC address (upper case, six hexadecimal octets
    separated by colons) is returned unchanged by [macToDevicePath]
    followed by [devicePathToMac], on every adapter index. *)
Theorem mac_path_roundtrip (hciDevice : nat) (mac : string) :
  isCanonicalMac mac = true ->
  devicePathToMac (macToDevicePath hciDevice mac) = mac.
Proof.
  intros H. apply canonical_inv in H
    as (a1 & b1 & a2 & b2 & a3 & b3 & a4 & b4 & a5 & b5 & a6 & b6 & -> & HF).
  repeat (apply Forall_cons_1 in HF as [? HF]).
  unfold devicePathToMac, macToDevicePath.
  change (adapterPath hciDevice +:+ "/dev_" +:+ ?x)
    with (adapterPath hciDevice +:+ "/" +:+ ("dev_" +:+ x)).
  rewrite <- append_assoc_str, searchMac_skip by apply adapterPath_no_d.
  unfold Js.toUpperCase, Js.replaceClass. cbn [Js.mapChars].
  change (Js.upperChar (if isColonOrDash ":" then "_"%char else ":"%char))
    with "_"%char.
  rewrite !to_path_char by assumption.
  erewrite searchMac_hit.
  2:{ unfold macPatternAt.
      change (Js.startsWith ("dev_" +:+ ?x) "dev_") with true.
      cbn [Js.dropChars append Js.takeChars]. unfold sixTimes.
      rewrite hexPair_upper by assumption. cbn [mbind option_bind].
      repeat (rewrite sepHexPair_upper by assumption; cbn [mbind option_bind]).
      reflexivity. }
  cbn [Js.mapChars].
  change (Js.upperChar (if isUnderscore "_" then ":"%char else "_"%char))
    with ":"%char.
  rewrite !to_mac_char by assumption.
  reflexivity.
Qed.

Lemma mac_path_roundtrip_witness :
  devicePathToMac (macToDevicePath 0 "AA:BB:CC:DD:EE:FF") = "AA:BB:CC:DD:EE:FF".
Proof. apply mac_path_roundtrip. reflexivity. Defined.

End PathRoundTrip.

(** ** Call-state derivation *)

Section CallState.
Import Hfp SpecTable.

Lemma range_0_1 z : (0 <= z <= 1)%Z -> z = 0%Z \/ z = 1%Z.
Proof. lia. Qed.
Lemma range_0_2 z : (0 <= z <= 2)%Z -> z = 0%Z \/ z = 1%Z \/ z = 2%Z.
Proof. lia. Qed.
Lemma range_0_3 z : (0 <= z <= 3)%Z -> z = 0%Z \/ z = 1%Z \/ z = 2%Z \/ z = 3%Z.
Proof. lia. Qed.

(** C2: for every combination of [call] in 0..1, [callsetup] in 0..3 and
    [callheld] in 0..2, an absent indicator counting as 0, the event
    emitted by [_deriveCallState] carries the label of the table, which
    is also the label of the precedence rule. *)
Theorem call_state_table (mac : string) (c : conn) (call callsetup callheld : option Z) :
  inRange 0 1 call -> inRange 0 3 callsetup -> inRange 0 2 callheld ->
  indicators c !! "call" = Js.Int <$> call ->
  indicators c !! "callsetup" = Js.Int <$> callsetup ->
  indicators c !! "callheld" = Js.Int <$> callheld ->
  let a := default 0%Z call in
  let b := default 0%Z callsetup in
  let d := default 0%Z callheld in
  tableLabel callStateTable a b d = Some (precedenceLabel a b d) /\
  _deriveCallState mac c = [CallState mac (precedenceLabel a b d) "" ""].
Proof.
  intros Ha Hb Hd Ea Eb Ed a b d.
  unfold _deriveCallState, callStateLabel, indicatorOr0.
  rewrite Ea, Eb, Ed. subst a b d.
  destruct call as [a|], callsetup as [b|], callheld as [d|]; simpl in *;
    repeat match goal with
           | H : (0 <= _ <= 1)%Z |- _ => apply range_0_1 in H
           | H : (0 <= _ <= 2)%Z |- _ => apply range_0_2 in H
           | H : (0 <= _ <= 3)%Z |- _ => apply range_0_3 in H
           end;
    intuition (subst; split; reflexivity).
Qed.

Lemma call_state_table_witness :
  let c := set_indicators (<["call" := Js.Int 1]> (<["callheld" := Js.Int 2]> ∅))
             (newConn "AA:BB:CC:DD:EE:FF") in
  tableLabel callStateTable 1 0 2 = Some (precedenceLabel 1 0 2) /\
  _deriveCallState "AA:BB:CC:DD:EE:FF" c
  = [CallState "AA:BB:CC:DD:EE:FF" (precedenceLabel 1 0 2) "" ""].
Proof.
  intros c.
  apply (call_state_table "AA:BB:CC:DD:EE:FF" c (Some 1%Z) None (Some 2%Z));
    simpl; try lia; try exact I; reflexivity.
Defined.

End CallState.

(** ** Records and the store *)

Section StateFacts.
Import Hfp.

Lemma emit_nil st : emit [] st = st.
Proof. destruct st. unfold emit, set_emitted. simpl. rewrite app_nil_r. reflexivity. Qed.

Lemma putConn_same r c st : store st !! r = Some c -> putConn r c st = st.
Proof.
  intros H. destruct st. unfold putConn, set_store. simpl in *.
  rewrite insert_id by assumption. reflexivity.
Qed.

Lemma store_putConn r c st : store (putConn r c st) !! r = Some c.
Proof. unfold putConn. simpl. apply lookup_insert_eq. Qed.

Lemma store_putConn_ne r r' c st :
  r <> r' -> store (putConn r c st) !! r' = store st !! r'.
Proof. intros H. unfold putConn. simpl. apply lookup_insert_ne, H. Qed.

Lemma connOf_Some mac st r c :
  _connections st !! _normalise mac = Some r -> store st !! r = Some c ->
  connOf mac st = Some (r, c).
Proof. intros H1 H2. unfold connOf. rewrite H1. simpl. rewrite H2. reflexivity. Qed.

Lemma connOf_None mac st :
  _connections st !! _normalise mac = None -> connOf mac st = None.
Proof. intros H. unfold connOf. rewrite H. reflexivity. Qed.

End StateFacts.

(** ** Operations without a connection *)

Section NoConnection.
Import Hfp.

(** C10: every call-control operation called for a MAC address that has
    no connection record is rejected with the error
    [No HFP connection for <mac>] and leaves the whole engine state as
    it was: nothing is written to a channel, no queue changes and no
    record is created. *)
Theorem operation_without_connection (op : operation) (mac : string) (st : state) :
  _connections st !! _normalise mac = None ->
  perform op mac st = (Failed ("No HFP connection for " +:+ mac), st).
Proof.
  intros H. unfold perform, _sendCommand.
  rewrite connOf_None by assumption. reflexivity.
Qed.

Lemma operation_without_connection_witness :
  perform (dial "+49 170 1234") "AA:BB:CC:DD:EE:FF" init
  = (Failed ("No HFP connection for " +:+ "AA:BB:CC:DD:EE:FF"), init).
Proof. apply operation_without_connection. reflexivity. Defined.

End NoConnection.

(** ** Indicator events with an unknown index *)

Section UnknownIndicator.
Import Hfp.

Lemma indicatorName_empty c idx : indicatorMap c = [] -> indicatorName c idx = None.
Proof.
  intros H. unfold indicatorName. rewrite H.
  destruct idx as [z|]; [|reflexivity]. destruct (1 <=? z)%Z; reflexivity.
Qed.

Lemma unsolicited_ciev mac rest c :
  unsolicited mac ("+CIEV:" +:+ rest) c
  = _processIndicatorEvent mac (cievIndex ("+CIEV:" +:+ rest))
                                (cievValue ("+CIEV:" +:+ rest)) c.
Proof. reflexivity. Qed.

Lemma processLine_ciev mac rest r c st :
  store st !! r = Some c ->
  _processLine mac ("+CIEV:" +:+ rest) r st
  = let '(c1, evs) := _processIndicatorEvent mac (cievIndex ("+CIEV:" +:+ rest))
                                             (cievValue ("+CIEV:" +:+ rest)) c in
    emit evs (putConn r c1 st).
Proof. intros H. unfold _processLine. rewrite H. reflexivity. Qed.

(** C8: a [+CIEV:] line whose index names no entry of the connection's
    indicator table (always so while the table is empty) changes
    nothing: the indicator values and every other part of the engine
    state stay as they were, no event is emitted, and the lines after it
    are processed as if it had not been there. *)
Theorem ciev_unknown_index_ignored (mac rest : string) (r : nat) (c : conn) (st : state)
    (raw : string) (lines : list string) :
  store st !! r = Some c ->
  indicatorMap c = [] \/ indicatorName c (cievIndex ("+CIEV:" +:+ rest)) = None ->
  Js.trim raw = "+CIEV:" +:+ rest ->
  _processLine mac ("+CIEV:" +:+ rest) r st = st /\
  processLines mac (raw :: lines) r st = processLines mac lines r st.
Proof.
  intros Hc Hidx Hraw.
  assert (Hn : indicatorName c (cievIndex ("+CIEV:" +:+ rest)) = None).
  { destruct Hidx as [H|H]; [apply indicatorName_empty, H | exact H]. }
  assert (Hl : _processLine mac ("+CIEV:" +:+ rest) r st = st).
  { rewrite (processLine_ciev _ _ _ c) by assumption.
    unfold _processIndicatorEvent. rewrite Hn.
    rewrite putConn_same by assumption. apply emit_nil. }
  split; [exact Hl|].
  cbn [processLines]. rewrite Hraw. simpl in Hl |- *. rewrite Hl. reflexivity.
Qed.

Lemma ciev_unknown_index_ignored_witness :
  let st := run [NewConnection "/org/bluez/hci0/dev_AA_BB_CC_DD_EE_FF"] init in
  _processLine "AA:BB:CC:DD:EE:FF" ("+CIEV:" +:+ " 2,1") 0 st = st /\
  processLines "AA:BB:CC:DD:EE:FF" ["  +CIEV: 2,1 "; "OK"] 0 st
  = processLines "AA:BB:CC:DD:EE:FF" ["OK"] 0 st.
Proof.
  intros st.
  eapply (ciev_unknown_index_ignored "AA:BB:CC:DD:EE:FF" " 2,1" 0 _ st).
  - vm_compute. reflexivity.
  - left. reflexivity.
  - vm_compute. reflexivity.
Defined.

End UnknownIndicator.

(** ** The indicator example *)

Section IndicatorExample.
Import Hfp SpecExample.

Lemma definition_line_names mac c :
  unsolicited mac definitionLine c
  = (set_indicatorMap ["call"; "callsetup"; "battchg"] c, []).
Proof. vm_compute. reflexivity. Qed.

Lemma processLine_unsolicited mac line r c st :
  store st !! r = Some c ->
  String.eqb line "OK" = false ->
  Js.startsWith line "ERROR" || Js.startsWith line "+CME ERROR" = false ->
  _processLine mac line r st
  = emit (snd (unsolicited mac line c)) (putConn r (fst (unsolicited mac line c)) st).
Proof.
  intros Hc H1 H2. unfold _processLine. rewrite Hc, H1, H2.
  destruct (unsolicited mac line c). reflexivity.
Qed.

(** C7: a connection that has no indicator yet and an empty receive
    buffer is fed the definition line and then the value line 0,0,3.
    Its name table becomes call, callsetup, battchg in this order, its
    value map becomes call 0, callsetup 0, battchg 3, and among the
    events emitted by the two lines exactly one is a battery-level
    event, with value 3. *)
Theorem indicator_example (mac : string) (r : nat) (c : conn) (st : state) :
  connOf mac st = Some (r, c) ->
  buffer c = "" ->
  indicators c = ∅ ->
  let st' := _onData mac (definitionLine +:+ CRLF +:+ valueLine +:+ CRLF) st in
  exists c' evs,
    store st' !! r = Some c' /\
    indicatorMap c' = ["call"; "callsetup"; "battchg"] /\
    indicators c' = <["battchg" := Js.Int 3]>
                      (<["callsetup" := Js.Int 0]> (<["call" := Js.Int 0]> ∅)) /\
    emitted st' = emitted st ++ evs /\
    filter (fun e => isBatteryLevel e = true) evs = [BatteryLevel mac (Js.Int 3)].
Proof.
  intros Hconn Hbuf Hind st'. subst st'.
  unfold _onData. rewrite Hconn, Hbuf.
  change (Js.splitLines ("" +:+ definitionLine +:+ CRLF +:+ valueLine +:+ CRLF))
    with [definitionLine; valueLine; ""].
  cbn [removelast List.last processLines].
  change (Js.trim definitionLine) with definitionLine.
  change (Js.trim valueLine) with valueLine.
  set (c0 := set_buffer "" c).
  set (st0 := putConn r c0 st).
  assert (E1 : _processLine mac definitionLine r st0
               = putConn r (set_indicatorMap ["call"; "callsetup"; "battchg"] c0) st0).
  { rewrite (processLine_unsolicited _ _ _ c0)
      by (try apply store_putConn; reflexivity).
    rewrite definition_line_names. apply emit_nil. }
  set (c1 := set_indicatorMap ["call"; "callsetup"; "battchg"] c0) in *.
  change (match valueLine with "" => _ | String _ _ => _ end)
    with (_processLine mac valueLine r (_processLine mac definitionLine r st0)).
  rewrite E1.
  rewrite (processLine_unsolicited _ _ _ c1)
    by (try apply store_putConn; reflexivity).
  assert (E2 : unsolicited mac valueLine c1
               = (set_indicators (<["battchg" := Js.Int 3]>
                      (<["callsetup" := Js.Int 0]> (<["call" := Js.Int 0]> ∅))) c1,
                  [Indicator mac "call" (Js.Int 0);
                   Indicator mac "callsetup" (Js.Int 0);
                   Indicator mac "battchg" (Js.Int 3);
                   BatteryLevel mac (Js.Int 3);
                   CallState mac "idle" "" ""])).
  { subst c1 c0. destruct c. simpl in Hind. subst. vm_compute. reflexivity. }
  rewrite E2. cbn [fst snd].
  eexists _, _. split; [apply store_putConn|].
  split; [reflexivity|]. split; [reflexivity|]. split; reflexivity.
Qed.

Lemma indicator_example_witness :
  let st := run [NewConnection "/org/bluez/hci0/dev_AA_BB_CC_DD_EE_FF"] init in
  let st' := _onData "AA:BB:CC:DD:EE:FF"
               (definitionLine +:+ CRLF +:+ valueLine +:+ CRLF) st in
  exists c' evs,
    store st' !! 0 = Some c' /\
    indicatorMap c' = ["call"; "callsetup"; "battchg"] /\
    indicators c' = <["battchg" := Js.Int 3]>
                      (<["callsetup" := Js.Int 0]> (<["call" := Js.Int 0]> ∅)) /\
    emitted st' = emitted st ++ evs /\
    filter (fun e => isBatteryLevel e = true) evs
    = [BatteryLevel "AA:BB:CC:DD:EE:FF" (Js.Int 3)].
Proof.
  intros st.
  eapply (indicator_example "AA:BB:CC:DD:EE:FF" 0 _ st).
  - vm_compute. reflexivity.
  - reflexivity.
  - reflexivity.
Defined.

End IndicatorExample.

(** ** Teardown *)

Section Teardown.
Import Hfp.

Lemma settle_history_incl t o c x :
  x ∈ history c -> x ∈ history (settle t o c).
Proof.
  intros H. unfold settle. case_bool_decide; [exact H|].
  simpl. apply elem_of_app. left. exact H.
Qed.

Lemma doneOf_app h1 h2 : doneOf (h1 ++ h2) = doneOf h1 ++ doneOf h2.
Proof. unfold doneOf. apply omap_app. Qed.

Lemma elem_of_doneOf t h : t ∈ doneOf h <-> exists o, HDone t o ∈ h.
Proof.
  unfold doneOf. rewrite list_elem_of_omap. split.
  - intros ([t'|t' o] & Hin & Heq); [discriminate|].
    injection Heq as ->. eauto.
  - intros (o & Hin). exists (HDone t o). auto.
Qed.

(** After [rejectAll], a queued promise that was pending is rejected
    with the closing error; promises settled before keep their outcome. *)
Lemma rejectAll_history q : forall c,
  (forall x, x ∈ history c -> x ∈ history (rejectAll q c)) /\
  (forall e, e ∈ q -> ticket e ∉ doneOf (history c) ->
             HDone (ticket e) closedError ∈ history (rejectAll q c)).
Proof.
  induction q as [|e0 q IH]; intros c; simpl.
  - split; [auto|]. intros e He. inversion He.
  - destruct (IH (settle (ticket e0) closedError c)) as [IH1 IH2].
    split.
    + intros x Hx. apply IH1, settle_history_incl, Hx.
    + intros e He Hnot.
      assert (Hhere : ticket e = ticket e0 ->
                      HDone (ticket e) closedError ∈ history (settle (ticket e0) closedError c)).
      { intros Heq. unfold settle. rewrite <- Heq.
        rewrite bool_decide_eq_false_2 by exact Hnot.
        simpl. apply elem_of_app. right. apply list_elem_of_singleton. reflexivity. }
      destruct (decide (ticket e = ticket e0)) as [Heq|Hne].
      * apply IH1, Hhere, Heq.
      * apply elem_of_cons in He as [->|He]; [congruence|].
        apply IH2; [exact He|].
        unfold settle. case_bool_decide; [exact Hnot|].
        simpl. rewrite doneOf_app. simpl.
        intros Hin. apply elem_of_app in Hin as [Hin|Hin]; [auto|].
        apply list_elem_of_singleton in Hin. congruence.
Qed.

Lemma rejectAll_fields q : forall c,
  socket_destroyed (rejectAll q c) = socket_destroyed c /\
  _keepaliveTimer (rejectAll q c) = _keepaliveTimer c.
Proof.
  induction q as [|e q IH]; intros c; [auto|].
  change (rejectAll (e :: q) c) with (rejectAll q (settle (ticket e) closedError c)).
  destruct (IH (settle (ticket e) closedError c)) as [-> ->].
  unfold settle. case_bool_decide; auto.
Qed.

Lemma cleanup_absent mac st :
  _connections st !! _normalise mac = None -> _cleanup mac st = st.
Proof. intros H. unfold _cleanup. rewrite connOf_None by assumption. reflexivity. Qed.

Lemma step_teardown a mac st :
  teardownMac a = Some mac -> step a st = _cleanup mac st.
Proof. destruct a; simpl; intros [= <-]; reflexivity. Qed.

Lemma connections_cleanup mac r c st :
  connOf mac st = Some (r, c) ->
  _connections (_cleanup mac st) = delete (_normalise mac) (_connections st).
Proof.
  intros H. unfold _cleanup. rewrite H.
  destruct (_keepaliveTimer c); reflexivity.
Qed.

(** C3: the first teardown of a connection, whichever of the channel
    error, the channel close, the disconnection request or the failure
    of the SLC set-up causes it, clears the keepalive timer, rejects
    every queued command that is still pending with the error
    [HFP connection closed], empties the queue, destroys the channel,
    removes the record and emits one [disconnected] event. Every
    further teardown for the same address, in any number and order,
    finds no record and changes nothing, so [disconnected] is emitted
    exactly once. *)
Theorem teardown_once (a : action) (mac : string) (r : nat) (c : conn) (st : state)
    (more : list action) :
  teardownMac a = Some mac ->
  connOf mac st = Some (r, c) ->
  Forall (fun b => exists m, teardownMac b = Some m /\ _normalise m = _normalise mac) more ->
  let st' := step a st in
  (forall k, _keepaliveTimer c = Some k -> timers st' !! k = None) /\
  (exists c', store st' !! r = Some c' /\
              _cmdQueue c' = [] /\ socket_destroyed c' = true /\
              forall e, e ∈ _cmdQueue c -> ticket e ∉ doneOf (history c) ->
                        HDone (ticket e) closedError ∈ history c') /\
  _connections st' !! _normalise mac = None /\
  emitted st' = emitted st ++ [Disconnected mac] /\
  run more st' = st' /\
  emitted (run (a :: more) st) = emitted st ++ [Disconnected mac].
Proof.
  intros Ha Hconn Hmore st'. subst st'.
  rewrite (step_teardown _ _ _ Ha).
  assert (Hgone : _connections (_cleanup mac st) !! _normalise mac = None).
  { rewrite (connections_cleanup _ _ _ _ Hconn). apply lookup_delete_eq. }
  assert (Hrun : run more (_cleanup mac st) = _cleanup mac st).
  { induction Hmore as [|b more (m & Hb & Hm) _ IH]; [reflexivity|].
    unfold run in *. cbn [foldl]. rewrite (step_teardown _ _ _ Hb).
    rewrite cleanup_absent by (rewrite Hm; exact Hgone). exact IH. }
  assert (Hev : emitted (_cleanup mac st) = emitted st ++ [Disconnected mac]).
  { unfold _cleanup. rewrite Hconn. destruct (_keepaliveTimer c); reflexivity. }
  split; [|split; [|split; [exact Hgone|split; [exact Hev|split; [exact Hrun|]]]]].
  - intros k Hk. unfold _cleanup. rewrite Hconn, Hk. simpl. apply lookup_delete_eq.
  - exists (set_destroyed true (set_cmdQueue [] (rejectAll (_cmdQueue c) c))).
    split.
    { unfold _cleanup. rewrite Hconn.
      destruct (_keepaliveTimer c); simpl; apply lookup_insert_eq. }
    split; [reflexivity|]. split; [reflexivity|].
    intros e He Hnot. simpl. apply rejectAll_history; assumption.
  - change (run (a :: more) st) with (run more (step a st)).
    rewrite (step_teardown _ _ _ Ha), Hrun. exact Hev.
Qed.

Lemma teardown_once_witness :
  let path := "/org/bluez/hci0/dev_AA_BB_CC_DD_EE_FF" in
  let mac := "AA:BB:CC:DD:EE:FF" in
  let st := run [NewConnection path; SlcEstablished mac; Operation hangup mac] init in
  let more := [SocketClose mac; RequestDisconnection path; SocketError mac] in
  exists c, connOf mac st = Some (0, c) /\
    let st' := step (SocketError mac) st in
    (forall k, _keepaliveTimer c = Some k -> timers st' !! k = None) /\
    (exists c', store st' !! 0 = Some c' /\
                _cmdQueue c' = [] /\ socket_destroyed c' = true /\
                forall e, e ∈ _cmdQueue c -> ticket e ∉ doneOf (history c) ->
                          HDone (ticket e) closedError ∈ history c') /\
    _connections st' !! _normalise mac = None /\
    emitted st' = emitted st ++ [Disconnected mac] /\
    run more st' = st' /\
    emitted (run (SocketError mac :: more) st) = emitted st ++ [Disconnected mac].
Proof.
  intros path mac st more. eexists. split; [vm_compute; reflexivity|].
  apply (teardown_once (SocketError mac) mac 0 _ st more).
  - reflexivity.
  - vm_compute. reflexivity.
  - repeat constructor; eexists; split; reflexivity.
Defined.

End Teardown.

(** ** The queue discipline *)

Section Monitor.
Import Hfp HfpInv.

Lemma monitorRun_app m h1 h2 :
  monitorRun m (h1 ++ h2) = monitorRun m h1 ≫= fun m' => monitorRun m' h2.
Proof.
  revert m. induction h1 as [|x h1 IH]; intros m; simpl; [reflexivity|].
  destruct (monitorStep m x); simpl; [apply IH | reflexivity].
Qed.

Lemma monitorOf_snoc h m x m' :
  monitorOf h = Some m -> monitorStep m x = Some m' ->
  monitorOf (h ++ [x]) = Some m'.
Proof.
  unfold monitorOf. intros H1 H2. rewrite monitorRun_app, H1. simpl.
  rewrite H2. reflexivity.
Qed.

Lemma monitorRun_done m0 h m :
  monitorRun m0 h = Some m ->
  m_next m0 <= m_next m /\ doneOf h = seq (m_next m0) (m_next m - m_next m0).
Proof.
  revert m0. induction h as [|x h IH]; intros m0; simpl.
  - intros [= <-]. rewrite Nat.sub_diag. split; [lia | reflexivity].
  - destruct (monitorStep m0 x) as [m1|] eqn:E; [|discriminate].
    intros H. apply IH in H as [Hle Hd].
    destruct x as [t|t o]; simpl in E.
    + destruct (m_flight m0); [discriminate|].
      destruct (Nat.eqb_spec t (m_next m0)); [|discriminate].
      injection E as <-. simpl in *. auto.
    + destruct (Nat.eqb_spec t (m_next m0)) as [->|]; [|discriminate].
      injection E as <-. simpl in Hle, Hd. split; [lia|].
      change (doneOf (HDone (m_next m0) o :: h)) with (m_next m0 :: doneOf h).
      rewrite Hd.
      replace (m_next m - m_next m0) with (S (m_next m - S (m_next m0))) by lia.
      reflexivity.
Qed.

Lemma monitorOf_done h m : monitorOf h = Some m -> doneOf h = seq 0 (m_next m).
Proof.
  intros H. apply monitorRun_done in H as [_ H]. simpl in H.
  rewrite Nat.sub_0_r in H. exact H.
Qed.

Lemma done_iff_lt h m t : monitorOf h = Some m -> t ∈ doneOf h <-> t < m_next m.
Proof.
  intros H. rewrite (monitorOf_done _ _ H), elem_of_seq. lia.
Qed.

Lemma settle_fresh t o c :
  t ∉ doneOf (history c) -> settle t o c = set_history (history c ++ [HDone t o]) c.
Proof. intros H. unfold settle. rewrite bool_decide_eq_false_2 by exact H. reflexivity. Qed.

Lemma settle_done t o c : t ∈ doneOf (history c) -> settle t o c = c.
Proof. intros H. unfold settle. rewrite bool_decide_eq_true_2 by exact H. reflexivity. Qed.

End Monitor.

Section Frame.
Import Hfp HfpInv.

Lemma queueOk_weaken c : queueOk true c -> forall b, queueOk b c.
Proof.
  intros (m & H1 & H2 & H3 & H4) b. exists m. repeat split; try assumption.
  destruct (socket_destroyed c); [exact H4|].
  destruct (_cmdInFlight c); [exact H4|].
  destruct H4 as [H4 H5]. split; [exact H4|]. intros ->. auto.
Qed.

Lemma queueOk_flag (w w' : option nat) (r r0 : nat) c :
  r0 <> r -> (w = None \/ w = Some r) ->
  queueOk (bool_decide (w <> Some r0)) c -> queueOk (bool_decide (w' <> Some r0)) c.
Proof.
  intros Hne Hw H. apply queueOk_weaken.
  rewrite bool_decide_eq_true_2 in H; [exact H|].
  destruct Hw as [->| ->]; congruence.
Qed.

(** One connection object and the timers change; fresh timers belong to
    that connection; no address is newly registered. *)
Lemma inv_update w w' r c c' st st' :
  Inv w st -> store st !! r = Some c ->
  (w = None \/ w = Some r) ->
  store st' = <[r := c']> (store st) ->
  nextRef st' = nextRef st ->
  nextTimer st <= nextTimer st' ->
  (forall k r0, _connections st' !! k = Some r0 -> _connections st !! k = Some r0) ->
  (forall k, _connections st' !! k = Some r -> socket_destroyed c' = false) ->
  (forall tid x, timers st' !! tid = Some x ->
     tid < nextTimer st' /\
     (timers st !! tid = Some x \/
      (nextTimer st <= tid /\
       ((exists t cmd, x = AtTimeout r t cmd) \/ (exists mac, x = Keepalive r mac))))) ->
  (forall tid t cmd, timers st' !! tid = Some (AtTimeout r t cmd) ->
     t < issued c' /\ _pending c' = Some (t, tid) /\
     (socket_destroyed c' = false -> _cmdInFlight c' = true)) ->
  (forall t tid, _pending c' = Some (t, tid) ->
     tid < nextTimer st' /\ t < issued c' /\
     forall x, timers st' !! tid = Some x -> exists cmd, x = AtTimeout r t cmd) ->
  (forall k, _keepaliveTimer c' = Some k ->
     k < nextTimer st' /\
     forall x, timers st' !! k = Some x -> exists mac, x = Keepalive r mac) ->
  queueOk (bool_decide (w' <> Some r)) c' ->
  Inv w' st'.
Proof.
  intros HI Hc Hw Hstore Hnr Hnt Hconn Hlive Htim Hto Hpend Hkeep Hq.
  destruct HI as [I1 I2 I3 I4 I5 I6 I7 I8].
  assert (Hlook : forall r0 c0, store st' !! r0 = Some c0 ->
            (r0 = r /\ c0 = c') \/ (r0 <> r /\ store st !! r0 = Some c0)).
  { intros r0 c0. rewrite Hstore. destruct (decide (r0 = r)) as [->|Hne].
    - rewrite lookup_insert_eq. intros [= <-]. left. auto.
    - rewrite lookup_insert_ne by congruence. intros H0. right. auto. }
  constructor.
  - intros r0 c0 H. rewrite Hnr. apply Hlook in H as [[-> _]|[_ H]]; eauto.
  - intros k r0 H. destruct (decide (r0 = r)) as [->|Hne].
    + exists c'. split; [rewrite Hstore; apply lookup_insert_eq | eapply Hlive, H].
    + destruct (I2 k r0 (Hconn _ _ H)) as (c0 & H0 & H1).
      exists c0. split; [rewrite Hstore, lookup_insert_ne by congruence; exact H0 | exact H1].
  - intros k k' r0 H H'. eapply I3; eauto.
  - intros tid x H. apply Htim in H. tauto.
  - intros tid r0 t cmd H. destruct (decide (r0 = r)) as [->|Hne].
    + exists c'. split; [rewrite Hstore; apply lookup_insert_eq | apply (Hto _ _ _ H)].
    + destruct (Htim _ _ H) as [_ [Hold|(_ & [(? & ? & [=])|(? & [=])])]]; [|congruence].
      destruct (I5 _ _ _ _ Hold) as (c0 & H0 & H1).
      exists c0. split; [rewrite Hstore, lookup_insert_ne by congruence; exact H0 | exact H1].
  - intros r0 c0 t tid H Hp. apply Hlook in H as [[-> ->]|[Hne H]]; [apply Hpend, Hp|].
    destruct (I6 _ _ _ _ H Hp) as (Ha & Hb & Hd).
    split; [lia|]. split; [exact Hb|].
    intros x Hx. destruct (Htim _ _ Hx) as [_ [Hold|[Hge _]]]; [eauto | lia].
  - intros r0 c0 k H Hk. apply Hlook in H as [[-> ->]|[Hne H]]; [apply Hkeep, Hk|].
    destruct (I7 _ _ _ H Hk) as (Ha & Hd).
    split; [lia|].
    intros x Hx. destruct (Htim _ _ Hx) as [_ [Hold|[Hge _]]]; [eauto | lia].
  - intros r0 c0 H. apply Hlook in H as [[-> ->]|[Hne H]]; [exact Hq|].
    eapply queueOk_flag; eauto.
Qed.

End Frame.

Section Queue.
Import Hfp HfpInv.

Lemma inv_strengthen w st :
  Inv w st ->
  (forall r c, w = Some r -> store st !! r = Some c -> queueOk true c) ->
  Inv None st.
Proof.
  intros [I1 I2 I3 I4 I5 I6 I7 I8] H. constructor; try assumption.
  intros r c Hc. rewrite bool_decide_eq_true_2 by congruence.
  destruct (decide (w = Some r)) as [->|Hne]; [eauto|].
  specialize (I8 r c Hc). rewrite bool_decide_eq_true_2 in I8 by exact Hne. exact I8.
Qed.

Lemma inv_weaken w st : Inv None st -> Inv w st.
Proof.
  intros [I1 I2 I3 I4 I5 I6 I7 I8]. constructor; try assumption.
  intros r c Hc. apply queueOk_weaken. specialize (I8 r c Hc).
  rewrite bool_decide_eq_true_2 in I8 by congruence. exact I8.
Qed.

Lemma seq_head {A} (f : A -> nat) (x : A) (l : list A) n :
  f <$> (x :: l) = seq n (length (x :: l)) -> f x = n /\ f <$> l = seq (S n) (length l).
Proof. simpl. intros [= H1 H2]. auto. Qed.

(** [_sendNextCommand] re-establishes consistency of the connection it
    is called for. *)
Lemma sendNext_inv w r st :
  (w = None \/ w = Some r) -> Inv w st -> Inv None (_sendNextCommand r st).
Proof.
  intros Hw HI. unfold _sendNextCommand.
  destruct (store st !! r) as [c|] eqn:Hc.
  2:{ apply (inv_strengthen w); [exact HI|]. intros r0 c0 Hw0 H0.
      destruct Hw as [->| ->]; [discriminate|]. injection Hw0 as <-. congruence. }
  assert (Hq := inv_queue _ _ HI r c Hc).
  destruct (_cmdQueue c) as [|e rest] eqn:Eq.
  { apply (inv_strengthen w); [exact HI|]. intros r0 c0 Hw0 H0.
    destruct Hw as [->| ->]; [discriminate|]. injection Hw0 as <-.
    assert (c0 = c) as -> by congruence.
    destruct Hq as (m & H1 & H2 & H3 & H4). exists m. rewrite Eq in *.
    repeat split; try assumption.
    destruct (socket_destroyed c); [exact H4|].
    destruct (_cmdInFlight c); [exact H4|]. tauto. }
  destruct (_cmdInFlight c) eqn:Ef.
  { apply (inv_strengthen w); [exact HI|]. intros r0 c0 Hw0 H0.
    destruct Hw as [->| ->]; [discriminate|]. injection Hw0 as <-.
    assert (c0 = c) as -> by congruence.
    destruct Hq as (m & H1 & H2 & H3 & H4). exists m. rewrite Eq, Ef in *.
    repeat split; try assumption. }
  destruct Hq as (m & H1 & H2 & H3 & H4). rewrite Eq, Ef in *.
  destruct (socket_destroyed c) eqn:Ed; [destruct H4; discriminate|].
  destruct H4 as [Hfl _]. pose proof H2 as Hseq. apply seq_head in H2 as [Ht Hrest].
  unfold addTimer, socketWrite. cbn [set_cmdInFlight set_pending socket_destroyed].
  rewrite Ed.
  eapply (inv_update w None r c); try exact HI; try exact Hc; try exact Hw;
    try reflexivity.
  - cbn. lia.
  - cbn. auto.
  - intros k _. cbn. exact Ed.
  - cbn. intros tid x. rewrite lookup_insert. case_decide as Hd.
    + intros [= <-]. subst tid. split; [lia|]. right. split; [lia|]. left. eauto.
    + intros Hx. split; [|auto]. apply (inv_tfresh _ _ HI) in Hx. lia.
  - cbn. intros tid t cmd0. rewrite lookup_insert. case_decide as Hd.
    + intros [= <- <-]. subst tid. split; [simpl in H3; lia|]. auto.
    + intros Hx. destruct (inv_timeout _ _ HI _ _ _ _ Hx) as (c0 & H0 & _ & _ & Hfl').
      assert (c0 = c) as -> by congruence. specialize (Hfl' Ed). congruence.
  - cbn. intros t tid [= <- <-]. split; [lia|]. split; [simpl in H3; lia|].
    intros x. rewrite lookup_insert_eq. intros [= <-]. eauto.
  - cbn. intros k Hk. destruct (inv_keepalive _ _ HI _ _ _ Hc Hk) as [Hlt Hx].
    split; [lia|]. intros x. rewrite lookup_insert_ne by lia. apply Hx.
  - exists {| m_next := m_next m; m_flight := Some (ticket e) |}. cbn.
    rewrite Eq, Ed. split.
    { eapply monitorOf_snoc; [exact H1|]. simpl. rewrite Hfl, Ht, Nat.eqb_refl.
      reflexivity. }
    split; [exact Hseq|].
    split; [exact H3|]. exists e, rest, (nextTimer st). auto.
Qed.

Lemma connOf_inv mac st r c :
  connOf mac st = Some (r, c) ->
  _connections st !! _normalise mac = Some r /\ store st !! r = Some c.
Proof.
  unfold connOf. destruct (_connections st !! _normalise mac) as [r0|]; [|discriminate].
  simpl. destruct (store st !! r0) as [c0|] eqn:E; [|discriminate].
  simpl. intros [= <- <-]. auto.
Qed.

Lemma inv_emit w evs st : Inv w st -> Inv w (emit evs st).
Proof. intros [I1 I2 I3 I4 I5 I6 I7 I8]. constructor; assumption. Qed.

Lemma inv_immediates w v st : Inv w st -> Inv w (set_immediates v st).
Proof. intros [I1 I2 I3 I4 I5 I6 I7 I8]. constructor; assumption. Qed.


Lemma sameQ_refl c : sameQ c c.
Proof. repeat split. Qed.

Lemma sameQ_trans c1 c2 c3 : sameQ c1 c2 -> sameQ c2 c3 -> sameQ c1 c3.
Proof.
  intros (A1 & A2 & A3 & A4 & A5 & A6 & A7) (B1 & B2 & B3 & B4 & B5 & B6 & B7).
  repeat split; congruence.
Qed.

Lemma queueOk_sameQ b c c' : sameQ c c' -> queueOk b c -> queueOk b c'.
Proof.
  intros (A1 & A2 & A3 & A4 & A5 & A6 & A7) (m & H1 & H2 & H3 & H4).
  exists m. rewrite A1, A2, A3, A4, A6, A7. auto.
Qed.

Lemma inv_sameQ r c c' st :
  Inv None st -> store st !! r = Some c -> sameQ c c' -> Inv None (putConn r c' st).
Proof.
  intros HI Hc HS. pose proof HS as (A1 & A2 & A3 & A4 & A5 & A6 & A7).
  eapply (inv_update None None r c); try exact HI; try exact Hc; try reflexivity;
    cbn; auto.
  - intros k Hk. rewrite A1. destruct (inv_mapped _ _ HI _ _ Hk) as (c0 & H0 & H1).
    congruence.
  - intros tid x Hx. split; [eapply inv_tfresh; eauto | auto].
  - intros tid t cmd0 Hx. rewrite A1, A3, A4, A6.
    destruct (inv_timeout _ _ HI _ _ _ _ Hx) as (c0 & H0 & H1).
    assert (c0 = c) as -> by congruence. exact H1.
  - intros t tid. rewrite A4, A6. apply (inv_pending _ _ HI), Hc.
  - intros k. rewrite A5. apply (inv_keepalive _ _ HI), Hc.
  - eapply queueOk_sameQ; [exact HS|]. apply (inv_queue _ _ HI), Hc.
Qed.

Lemma fmap_snoc_seq (q : list entry) n t :
  ticket <$> q = seq n (length q) ->
  ticket <$> (q ++ [{| ticket := n + length q; cmd := t |}])
  = seq n (length (q ++ [{| ticket := n + length q; cmd := t |}])).
Proof.
  intros H. rewrite fmap_app, H, length_app. simpl.
  rewrite seq_app. reflexivity.
Qed.

(** [_sendCommand] keeps the engine consistent. *)
Lemma sendCommand_inv mac text st :
  Inv None st -> Inv None (snd (_sendCommand mac text st)).
Proof.
  intros HI. unfold _sendCommand.
  destruct (connOf mac st) as [[r c]|] eqn:Hconn; [|exact HI].
  apply connOf_inv in Hconn as [Hk Hc].
  destruct (inv_mapped _ _ HI _ _ Hk) as (c0 & H0 & Hlive).
  assert (c0 = c) as -> by congruence. clear H0.
  cbn [snd].
  set (c1 := set_issued _ _).
  assert (Hw : forall w, w = Some r \/ (w = None /\ _cmdQueue c <> []) ->
                         Inv w (putConn r c1 st)).
  { intros w Hstrong.
    eapply (inv_update None w r c); try exact HI; try exact Hc; try reflexivity;
      subst c1; cbn; auto.
    - intros tid x Hx. split; [eapply inv_tfresh; eauto | auto].
    - intros tid t cmd0 Hx.
      destruct (inv_timeout _ _ HI _ _ _ _ Hx) as (c0 & H0 & H1 & H2).
      assert (c0 = c) as -> by congruence. split; [lia | exact H2].
    - intros t tid Hp. destruct (inv_pending _ _ HI _ _ _ _ Hc Hp) as (? & ? & ?).
      split; [assumption|]. split; [lia | assumption].
    - intros k. apply (inv_keepalive _ _ HI), Hc.
    - destruct (inv_queue _ _ HI _ _ Hc) as (m & H1 & H2 & H3 & H4).
      exists m. cbn. rewrite Hlive in *. split; [exact H1|].
      rewrite <- H3. split; [apply fmap_snoc_seq, H2|].
      split; [rewrite length_app; simpl; lia|].
      destruct (_cmdInFlight c).
      + destruct H4 as (e & rest & tid & -> & Hp & Hf).
        exists e, (rest ++ [{| ticket := m_next m + length (e :: rest); cmd := text |}]), tid.
        auto.
      + destruct H4 as [Hf Hs]. split; [exact Hf|].
        intros Hb Hp. exfalso.
        rewrite bool_decide_eq_true_2 in Hs by congruence.
        apply bool_decide_eq_true_1 in Hb.
        destruct Hstrong as [->|[_ Hne]]; [congruence|]. apply Hne, Hs; auto. }
  destruct (length (_cmdQueue c1) =? 1) eqn:El.
  - apply (sendNext_inv (Some r)); auto.
  - apply Hw. right. split; [reflexivity|].
    intros Hq. subst c1. cbn in El. rewrite Hq in El. discriminate.
Qed.

Lemma valuesLoop_sameQ mac names : forall values b c,
  sameQ c (indicatorValuesLoop mac names values b c).1.2.
Proof.
  induction names as [|n names IH]; intros values b c; simpl; [apply sameQ_refl|].
  destruct values as [|v values]; [apply sameQ_refl|].
  specialize (IH values
    (b || isCallIndicator n &&
          match indicators c !! n with Some p => negb (Js.num_seq p v) | None => true end)
    (set_indicators (setIndicator n v (indicators c)) c)).
  destruct (indicatorValuesLoop mac names values _ _) as [[b' c'] evs].
  simpl in *. eapply sameQ_trans; [|exact IH]. repeat split.
Qed.

Lemma unsolicited_sameQ mac line c : sameQ c (unsolicited mac line c).1.
Proof.
  unfold unsolicited.
  repeat match goal with
         | |- context [if ?b then _ else _] => destruct b
         end;
    try (simpl; apply sameQ_refl); try (repeat split; fail).
  - unfold _processIndicatorValues.
    pose proof (valuesLoop_sameQ mac (indicatorMap c)
                  (Js.Number <$> Js.split "," (Js.trim (afterColon line))) false c) as H.
    destruct (indicatorValuesLoop _ _ _ _ _) as [[b' c'] evs]. exact H.
  - unfold _processIndicatorEvent. destruct (indicatorName _ _); simpl;
      [repeat split | apply sameQ_refl].
  - destruct (Js.search clipAt line) as [[? ?]|]; apply sameQ_refl.
  - destruct (Js.search ccwaAt line); apply sameQ_refl.
  - destruct (Js.search quoted line) as [[? ?]|]; apply sameQ_refl.
  - unfold socketWrite. simpl. destruct (socket_destroyed c); repeat split.
Qed.


Lemma complete_state r c t tid o st :
  store st !! r = Some c ->
  match store (complete r t tid o st) !! r with
  | Some c1 => putConn r (set_pending None c1) (complete r t tid o st)
  | None => complete r t tid o st
  end
  = set_immediates (immediates st ++ [r])
      (putConn r (afterResponse t o c) (clearTimer tid st)).
Proof.
  intros Hc. unfold complete. cbn [store clearTimer set_timers]. rewrite Hc.
  cbn [store set_immediates putConn set_store]. rewrite lookup_insert_eq.
  unfold putConn, set_store, set_immediates, afterResponse. cbn.
  rewrite insert_insert_eq. reflexivity.
Qed.

Lemma queueOk_response t tid o c :
  queueOk true c -> _pending c = Some (t, tid) -> t < issued c ->
  queueOk true (afterResponse t o c).
Proof.
  intros (m & H1 & H2 & H3 & H4) Hp Ht. unfold afterResponse.
  destruct (socket_destroyed c) eqn:Ed.
  { destruct H4 as [Hq Hf]. rewrite Hq in *. simpl in H3.
    rewrite settle_done by (cbn; apply (done_iff_lt _ m); [exact H1 | lia]).
    exists m. cbn. rewrite Ed. auto. }
  destruct (_cmdInFlight c) eqn:Ef.
  - destruct H4 as (e & rest & tid0 & Hq & Hp0 & Hf).
    rewrite Hq in *. apply seq_head in H2 as [Hte Hrest].
    assert (t = ticket e) as -> by congruence.
    rewrite settle_fresh
      by (cbn; rewrite (done_iff_lt _ m) by exact H1; lia).
    exists {| m_next := S (ticket e); m_flight := None |}. cbn. rewrite Ed.
    split.
    { eapply monitorOf_snoc; [exact H1|]. simpl. rewrite Hte, Nat.eqb_refl. reflexivity. }
    rewrite Hte. split; [exact Hrest|]. split; [simpl in H3; lia|].
    split; [reflexivity|]. intros _ Hn. congruence.
  - destruct H4 as [Hf Hs]. rewrite Hs in * by (auto; congruence). simpl in H3.
    rewrite settle_done by (cbn; apply (done_iff_lt _ m); [exact H1 | lia]).
    exists m. cbn. rewrite Ed.
    repeat split; auto.
Qed.

Lemma response_inv r c t tid o st :
  Inv None st -> store st !! r = Some c -> _pending c = Some (t, tid) ->
  Inv None (set_immediates (immediates st ++ [r])
              (putConn r (afterResponse t o c) (clearTimer tid st))).
Proof.
  intros HI Hc Hp. apply inv_immediates.
  destruct (inv_pending _ _ HI _ _ _ _ Hc Hp) as (Htid & Ht & Hown).
  assert (Hd : socket_destroyed (afterResponse t o c) = socket_destroyed c).
  { unfold afterResponse, settle. case_bool_decide; reflexivity. }
  assert (Hi : issued (afterResponse t o c) = issued c).
  { unfold afterResponse, settle. case_bool_decide; reflexivity. }
  assert (Hk : _keepaliveTimer (afterResponse t o c) = _keepaliveTimer c).
  { unfold afterResponse, settle. case_bool_decide; reflexivity. }
  eapply (inv_update None None r c); try exact HI; try exact Hc; try reflexivity;
    cbn [nextTimer timers _connections putConn clearTimer set_store set_timers]; auto.
  - intros k Hk0. rewrite Hd. destruct (inv_mapped _ _ HI _ _ Hk0) as (c0 & H0 & H1).
    congruence.
  - intros x y Hx. apply lookup_delete_Some in Hx as [_ Hx].
    split; [eapply inv_tfresh; eauto | auto].
  - intros tid0 t0 cmd0 Hx. apply lookup_delete_Some in Hx as [Hne Hx].
    destruct (inv_timeout _ _ HI _ _ _ _ Hx) as (c0 & H0 & _ & Hp0 & _).
    assert (c0 = c) as -> by congruence. congruence.
  - intros t0 tid0 Hp0. unfold afterResponse in Hp0. discriminate.
  - intros k. rewrite Hk. intros Hk0.
    destruct (inv_keepalive _ _ HI _ _ _ Hc Hk0) as [? Hx]. split; [assumption|].
    intros x Hx0. apply lookup_delete_Some in Hx0 as [_ Hx0]. eauto.
  - apply (queueOk_response t tid); [|exact Hp|exact Ht].
    pose proof (inv_queue _ _ HI _ _ Hc) as Hq.
    rewrite bool_decide_eq_true_2 in Hq by congruence. exact Hq.
Qed.

Lemma processLine_inv mac line r st :
  Inv None st -> Inv None (_processLine mac line r st).
Proof.
  intros HI. unfold _processLine.
  destruct (store st !! r) as [c|] eqn:Hc; [|exact HI].
  destruct (String.eqb line "OK").
  { destruct (_pending c) as [[t tid]|] eqn:Hp; [|exact HI].
    cbv zeta. rewrite (complete_state r c) by exact Hc.
    apply response_inv; assumption. }
  destruct (Js.startsWith line "ERROR" || Js.startsWith line "+CME ERROR").
  { destruct (_pending c) as [[t tid]|] eqn:Hp; [|exact HI].
    cbv zeta. rewrite (complete_state r c) by exact Hc.
    apply response_inv; assumption. }
  pose proof (unsolicited_sameQ mac line c) as HS.
  destruct (unsolicited mac line c) as [c1 evs]. simpl in HS.
  apply inv_emit. eapply inv_sameQ; eauto.
Qed.

Lemma processLines_inv mac lines r : forall st,
  Inv None st -> Inv None (processLines mac lines r st).
Proof.
  induction lines as [|l lines IH]; intros st HI; simpl; [exact HI|].
  apply IH. destruct (Js.trim l); [exact HI | apply processLine_inv, HI].
Qed.

Lemma onData_inv mac data st : Inv None st -> Inv None (_onData mac data st).
Proof.
  intros HI. unfold _onData.
  destruct (connOf mac st) as [[r c]|] eqn:Hconn; [|exact HI].
  apply connOf_inv in Hconn as [_ Hc].
  apply processLines_inv. eapply inv_sameQ; eauto. repeat split.
Qed.

(** The time-out of a command. *)
Lemma timeout_inv tid r t text st :
  Inv None st -> timers st !! tid = Some (AtTimeout r t text) ->
  Inv None (onAtTimeout r t text (clearTimer tid st)).
Proof.
  intros HI Htm.
  destruct (inv_timeout _ _ HI _ _ _ _ Htm) as (c & Hc & Ht & Hp & Hfl).
  unfold onAtTimeout. cbn [store clearTimer set_timers]. rewrite Hc.
  apply (sendNext_inv (Some r)); [auto|].
  set (o := Rejected _).
  set (c1 := settle t o _).
  assert (Hd : socket_destroyed c1 = socket_destroyed c).
  { subst c1. unfold settle. case_bool_decide; reflexivity. }
  assert (Hi : issued c1 = issued c).
  { subst c1. unfold settle. case_bool_decide; reflexivity. }
  assert (Hk : _keepaliveTimer c1 = _keepaliveTimer c).
  { subst c1. unfold settle. case_bool_decide; reflexivity. }
  assert (Hp1 : _pending c1 = _pending c).
  { subst c1. unfold settle. case_bool_decide; reflexivity. }
  eapply (inv_update None (Some r) r c); try exact HI; try exact Hc; try reflexivity;
    cbn [nextTimer timers _connections putConn clearTimer set_store set_timers]; auto.
  - intros k Hk0. rewrite Hd. destruct (inv_mapped _ _ HI _ _ Hk0) as (c0 & H0 & H1).
    congruence.
  - intros x y Hx. apply lookup_delete_Some in Hx as [_ Hx].
    split; [eapply inv_tfresh; eauto | auto].
  - intros tid0 t0 cmd0 Hx. apply lookup_delete_Some in Hx as [Hne Hx].
    destruct (inv_timeout _ _ HI _ _ _ _ Hx) as (c0 & H0 & _ & Hp0 & _).
    assert (c0 = c) as -> by congruence. congruence.
  - intros t0 tid0. rewrite Hp1, Hi, Hp. intros [= <- <-].
    destruct (inv_pending _ _ HI _ _ _ _ Hc Hp) as (? & ? & ?).
    split; [assumption|]. split; [assumption|].
    intros x Hx. rewrite lookup_delete_eq in Hx. discriminate.
  - intros k. rewrite Hk. intros Hk0.
    destruct (inv_keepalive _ _ HI _ _ _ Hc Hk0) as [? Hx]. split; [assumption|].
    intros x Hx0. apply lookup_delete_Some in Hx0 as [_ Hx0]. eauto.
  - rewrite bool_decide_eq_false_2 by auto.
    pose proof (inv_queue _ _ HI _ _ Hc) as (m & H1 & H2 & H3 & H4).
    subst c1. destruct (socket_destroyed c) eqn:Ed.
    { destruct H4 as [Hq Hf]. rewrite Hq in *. simpl in H3.
      rewrite settle_done by (cbn; apply (done_iff_lt _ m); [exact H1 | lia]).
      exists m. cbn. rewrite Ed. auto. }
    rewrite Hfl in H4 by reflexivity.
    destruct H4 as (e & rest & tid0 & Hq & Hp0 & Hf).
    rewrite Hq in *. apply seq_head in H2 as [Hte Hrest].
    assert (t = ticket e) as -> by congruence.
    rewrite settle_fresh
      by (cbn; rewrite (done_iff_lt _ m) by exact H1; lia).
    exists {| m_next := S (ticket e); m_flight := None |}. cbn. rewrite Ed.
    split.
    { eapply monitorOf_snoc; [exact H1|]. simpl. rewrite Hte, Nat.eqb_refl. reflexivity. }
    rewrite Hte. split; [exact Hrest|]. split; [simpl in H3; lia|].
    split; [reflexivity|]. intros [=].
Qed.

Lemma rejectAll_sameQ q : forall c,
  socket_destroyed (rejectAll q c) = socket_destroyed c /\
  _cmdQueue (rejectAll q c) = _cmdQueue c /\
  _cmdInFlight (rejectAll q c) = _cmdInFlight c /\
  _pending (rejectAll q c) = _pending c /\
  _keepaliveTimer (rejectAll q c) = _keepaliveTimer c /\
  issued (rejectAll q c) = issued c.
Proof.
  induction q as [|e q IH]; intros c; [repeat split|].
  change (rejectAll (e :: q) c) with (rejectAll q (settle (ticket e) closedError c)).
  destruct (IH (settle (ticket e) closedError c)) as (-> & -> & -> & -> & -> & ->).
  unfold settle. case_bool_decide; repeat split.
Qed.

Lemma rejectAll_exact q : forall c n,
  ticket <$> q = seq n (length q) ->
  doneOf (history c) = seq 0 n ->
  history (rejectAll q c)
  = history c ++ ((fun e => HDone (ticket e) closedError) <$> q).
Proof.
  induction q as [|e q IH]; intros c n Hq Hd.
  - simpl. rewrite app_nil_r. reflexivity.
  - change (rejectAll (e :: q) c) with (rejectAll q (settle (ticket e) closedError c)).
    apply seq_head in Hq as [He Hq].
    rewrite settle_fresh by (rewrite Hd, elem_of_seq; lia).
    rewrite (IH _ (S n)); [| exact Hq |].
    + cbn. rewrite <- app_assoc. reflexivity.
    + change (doneOf (history c ++ [HDone (ticket e) closedError]) = seq 0 (S n)).
      rewrite doneOf_app, Hd, He, seq_S. reflexivity.
Qed.

Lemma monitor_rejects q : forall m,
  ticket <$> q = seq (m_next m) (length q) ->
  (q = [] -> m_flight m = None) ->
  monitorRun m ((fun e => HDone (ticket e) closedError) <$> q)
  = Some {| m_next := m_next m + length q; m_flight := None |}.
Proof.
  induction q as [|e q IH]; intros m Hq Hf.
  - simpl. destruct m as [n f]. simpl in *. rewrite Hf, Nat.add_0_r by reflexivity.
    reflexivity.
  - apply seq_head in Hq as [He Hq]. cbn. rewrite He, Nat.eqb_refl.
    rewrite (IH {| m_next := S (m_next m); m_flight := None |}); auto.
    cbn. f_equal. f_equal. lia.
Qed.

Lemma cleanup_inv mac st : Inv None st -> Inv None (_cleanup mac st).
Proof.
  intros HI. unfold _cleanup.
  destruct (connOf mac st) as [[r c]|] eqn:Hconn; [|exact HI].
  apply connOf_inv in Hconn as [Hkey Hc].
  destruct (inv_mapped _ _ HI _ _ Hkey) as (c0 & H0 & Hlive).
  assert (c0 = c) as -> by congruence. clear H0.
  apply inv_emit.
  destruct (rejectAll_sameQ (_cmdQueue c) c) as (R1 & R2 & R3 & R4 & R5 & R6).
  set (c2 := set_destroyed true _).
  set (st1 := match _keepaliveTimer c with Some k => clearTimer k st | None => st end).
  assert (Ht1 : forall tid x, timers st1 !! tid = Some x -> timers st !! tid = Some x).
  { intros tid x. subst st1. destruct (_keepaliveTimer c); [|auto].
    cbn. intros Hx. apply lookup_delete_Some in Hx as [_ Hx]. exact Hx. }
  assert (Hs1 : store st1 = store st /\ _connections st1 = _connections st /\
                nextTimer st1 = nextTimer st /\ nextRef st1 = nextRef st).
  { subst st1. destruct (_keepaliveTimer c); repeat split. }
  destruct Hs1 as (S1 & S2 & S3 & S4).
  eapply (inv_update None None r c); try exact HI; try exact Hc;
    cbn [store nextRef nextTimer timers _connections putConn set_connections set_store];
    auto.
  - rewrite S1. reflexivity.
  - lia.
  - rewrite S2. intros k r0 Hk. apply lookup_delete_Some in Hk as [_ Hk]. exact Hk.
  - rewrite S2. intros k Hk. apply lookup_delete_Some in Hk as [Hne Hk].
    exfalso. apply Hne. eapply inv_inj; eauto.
  - intros tid x Hx. apply Ht1 in Hx. rewrite S3.
    split; [eapply inv_tfresh; eauto | auto].
  - intros tid t cmd0 Hx. apply Ht1 in Hx.
    destruct (inv_timeout _ _ HI _ _ _ _ Hx) as (c0 & H0 & H1 & H2 & _).
    assert (c0 = c) as -> by congruence.
    subst c2. cbn. rewrite R4, R6. split; [exact H1|]. split; [exact H2|]. discriminate.
  - subst c2. cbn. rewrite R4, R6, S3. intros t tid Hp.
    destruct (inv_pending _ _ HI _ _ _ _ Hc Hp) as (? & ? & Hx).
    split; [assumption|]. split; [assumption|]. intros x Hx0. apply Hx, Ht1, Hx0.
  - subst c2. cbn. rewrite R5, S3. intros k Hk.
    destruct (inv_keepalive _ _ HI _ _ _ Hc Hk) as (? & Hx).
    split; [assumption|]. intros x Hx0. apply Hx, Ht1, Hx0.
  - pose proof (inv_queue _ _ HI _ _ Hc) as (m & H1 & H2 & H3 & H4).
    exists {| m_next := m_next m + length (_cmdQueue c); m_flight := None |}.
    subst c2. cbn. rewrite R6.
    rewrite (rejectAll_exact _ _ (m_next m)); [|exact H2|apply monitorOf_done, H1].
    split.
    { unfold monitorOf in *. rewrite monitorRun_app, H1. cbn.
      apply monitor_rejects; [exact H2|].
      intros Hq. rewrite Hlive in H4. destruct (_cmdInFlight c).
      + destruct H4 as (e & rest & tid & He & _). congruence.
      + tauto. }
    repeat split. lia.
Qed.

Lemma queueOk_keepalive b v c : queueOk b c -> queueOk b (set_keepaliveTimer v c).
Proof. intros (m & H). exists m. exact H. Qed.

Lemma startKeepalive_inv mac st : Inv None st -> Inv None (_startKeepalive mac st).
Proof.
  intros HI. unfold _startKeepalive.
  destruct (connOf mac st) as [[r c]|] eqn:Hconn; [|exact HI].
  apply connOf_inv in Hconn as [Hkey Hc].
  set (st1 := match _keepaliveTimer c with Some k => clearTimer k st | None => st end).
  assert (Ht1 : forall tid x, timers st1 !! tid = Some x -> timers st !! tid = Some x).
  { intros tid x. subst st1. destruct (_keepaliveTimer c); [|auto].
    cbn. intros Hx. apply lookup_delete_Some in Hx as [_ Hx]. exact Hx. }
  assert (Hs1 : store st1 = store st /\ _connections st1 = _connections st /\
                nextTimer st1 = nextTimer st /\ nextRef st1 = nextRef st).
  { subst st1. destruct (_keepaliveTimer c); repeat split. }
  destruct Hs1 as (S1 & S2 & S3 & S4).
  unfold addTimer.
  eapply (inv_update None None r c); try exact HI; try exact Hc;
    cbn [store nextRef nextTimer timers _connections putConn set_connections set_store
         set_nextTimer set_timers];
    auto.
  - rewrite S1. reflexivity.
  - lia.
  - rewrite S2. auto.
  - intros k Hk. cbn. destruct (inv_mapped _ _ HI k r) as (c0 & H0 & H1); [congruence|].
    congruence.
  - rewrite S3. intros tid x. rewrite lookup_insert. case_decide as Hd.
    + intros [= <-]. split; [lia|]. right. split; [lia|]. right. eauto.
    + intros Hx. apply Ht1 in Hx. split; [|auto]. apply (inv_tfresh _ _ HI) in Hx. lia.
  - rewrite S3. intros tid t cmd0. rewrite lookup_insert. case_decide as Hd; [discriminate|].
    intros Hx. apply Ht1 in Hx.
    destruct (inv_timeout _ _ HI _ _ _ _ Hx) as (c0 & H0 & H1).
    assert (c0 = c) as -> by congruence. exact H1.
  - rewrite S3. cbn. intros t tid Hp.
    destruct (inv_pending _ _ HI _ _ _ _ Hc Hp) as (? & ? & Hx).
    split; [lia|]. split; [assumption|]. intros x.
    rewrite lookup_insert_ne by lia. intros Hx0. apply Hx, Ht1, Hx0.
  - rewrite S3. cbn. intros k [= <-]. split; [lia|].
    intros x. rewrite lookup_insert_eq. intros [= <-]. eauto.
  - apply queueOk_keepalive. pose proof (inv_queue _ _ HI _ _ Hc) as Hq. exact Hq.
Qed.

Lemma slcEstablished_inv mac st : Inv None st -> Inv None (slcEstablished mac st).
Proof.
  intros HI. unfold slcEstablished.
  destruct (connOf mac st) as [[r c]|] eqn:Hconn; [|exact HI].
  apply connOf_inv in Hconn as [Hkey Hc].
  apply inv_emit, startKeepalive_inv. eapply inv_sameQ; eauto. repeat split.
Qed.

Lemma queueOk_new b mac : queueOk b (newConn mac).
Proof.
  exists {| m_next := 0; m_flight := None |}. cbn. repeat split.
Qed.

Lemma newConnection_inv path st : Inv None st -> Inv None (_onNewConnection path st).
Proof.
  intros HI. unfold _onNewConnection. apply sendCommand_inv.
  set (mac := _devicePathToMac path).
  destruct HI as [I1 I2 I3 I4 I5 I6 I7 I8].
  assert (Hfresh : store st !! nextRef st = None).
  { destruct (store st !! nextRef st) eqn:E; [|reflexivity].
    apply I1 in E. lia. }
  assert (Hlook : forall r0 c0, <[nextRef st := newConn mac]> (store st) !! r0 = Some c0 ->
            (r0 = nextRef st /\ c0 = newConn mac) \/
            (r0 <> nextRef st /\ store st !! r0 = Some c0)).
  { intros r0 c0. destruct (decide (r0 = nextRef st)) as [->|Hne].
    - rewrite lookup_insert_eq. intros [= <-]. auto.
    - rewrite lookup_insert_ne by congruence. auto. }
  constructor; cbn.
  - intros r0 c0 H. apply Hlook in H as [[-> _]|[_ H]]; [lia|]. apply I1 in H. lia.
  - intros k r0. rewrite lookup_insert. case_decide as Hd.
    + intros [= <-]. exists (newConn mac). rewrite lookup_insert_eq. auto.
    + intros Hk. destruct (I2 _ _ Hk) as (c0 & Hc0 & Hl0). exists c0.
      rewrite lookup_insert_ne; [auto|]. apply I1 in Hc0. lia.
  - intros k k' r0. rewrite !lookup_insert.
    repeat case_decide; try congruence.
    + intros [= <-] Hk. destruct (I2 _ _ Hk) as (c0 & Hc0 & _). apply I1 in Hc0. lia.
    + intros Hk [= <-]. destruct (I2 _ _ Hk) as (c0 & Hc0 & _). apply I1 in Hc0. lia.
    + apply I3.
  - exact I4.
  - intros tid r0 t cmd0 H. destruct (I5 _ _ _ _ H) as (c0 & Hc0 & Hl0).
    exists c0. rewrite lookup_insert_ne; [auto|]. apply I1 in Hc0. lia.
  - intros r0 c0 t tid H. apply Hlook in H as [[-> ->]|[_ H]]; [discriminate|].
    apply I6, H.
  - intros r0 c0 k H. apply Hlook in H as [[-> ->]|[_ H]]; [discriminate|].
    apply I7, H.
  - intros r0 c0 H. apply Hlook in H as [[-> ->]|[_ H]]; [apply queueOk_new|].
    apply I8, H.
Qed.

Lemma init_inv : Inv None init.
Proof.
  constructor; cbn; intros *; rewrite ?lookup_empty; discriminate.
Qed.

Lemma step_inv a st : Inv None st -> Inv None (step a st).
Proof.
  intros HI. destruct a; cbn [step].
  - apply newConnection_inv, HI.
  - apply cleanup_inv, HI.
  - apply onData_inv, HI.
  - apply cleanup_inv, HI.
  - apply cleanup_inv, HI.
  - destruct (timers st !! tid) as [[r t text|r mac]|] eqn:Htm; [| |exact HI].
    + apply timeout_inv; assumption.
    + unfold onKeepalive. destruct (store st !! r) as [c|]; [|exact HI].
      destruct (slcReady c); [apply sendCommand_inv, HI | exact HI].
  - destruct (immediates st) as [|r rest]; [exact HI|].
    apply (sendNext_inv None); [auto|]. apply inv_immediates, HI.
  - apply sendCommand_inv, HI.
  - apply sendCommand_inv, HI.
  - apply slcEstablished_inv, HI.
  - apply cleanup_inv, HI.
Qed.

Lemma run_inv acts : forall st, Inv None st -> Inv None (run acts st).
Proof.
  unfold run. induction acts as [|a acts IH]; intros st HI; simpl; [exact HI|].
  apply IH, step_inv, HI.
Qed.

Lemma sentOf_app h1 h2 : sentOf (h1 ++ h2) = sentOf h1 ++ sentOf h2.
Proof. unfold sentOf. apply omap_app. Qed.

Lemma monitorOf_snoc_inv h x m' :
  monitorOf (h ++ [x]) = Some m' ->
  exists m, monitorOf h = Some m /\ monitorStep m x = Some m'.
Proof.
  unfold monitorOf. rewrite monitorRun_app.
  destruct (monitorRun _ h) as [m|]; [|discriminate]. cbn.
  destruct (monitorStep m x) as [m1|] eqn:E; [|discriminate].
  intros [= <-]. eauto.
Qed.

Lemma monitorOf_prefix pre post m :
  monitorOf (pre ++ post) = Some m -> exists m', monitorOf pre = Some m'.
Proof.
  unfold monitorOf. rewrite monitorRun_app.
  destruct (monitorRun _ pre) as [m'|]; [eauto | discriminate].
Qed.

Lemma filter_not_in_snoc (D S : list nat) (t : nat) :
  filter (fun s => s ∉ D ++ [t]) S = filter (fun s => s <> t) (filter (fun s => s ∉ D) S).
Proof.
  induction S as [|s S IH]; [reflexivity|].
  rewrite !filter_cons, IH.
  destruct (decide (s ∉ D ++ [t])) as [H1|H1], (decide (s ∉ D)) as [H2|H2].
  - rewrite filter_cons. destruct (decide (s <> t)) as [H3|H3]; [reflexivity|].
    exfalso. apply H1, elem_of_app. right. apply list_elem_of_singleton.
    destruct (decide (s = t)); tauto.
  - exfalso. apply H2. intros Hd. apply H1, elem_of_app. auto.
  - rewrite filter_cons. destruct (decide (s <> t)) as [H3|H3]; [|reflexivity].
    exfalso. apply H1. intros Hin. apply elem_of_app in Hin as [Hin|Hin]; [auto|].
    apply list_elem_of_singleton in Hin. auto.
  - reflexivity.
Qed.

(** What the monitor says is in flight is what was sent and not settled. *)
Lemma monitor_outstanding h : forall m,
  monitorOf h = Some m ->
  (forall t, m_flight m = Some t -> t = m_next m) /\
  outstanding h = match m_flight m with Some t => [t] | None => [] end.
Proof.
  induction h as [|x h IH] using rev_ind; intros m' H.
  - injection H as <-. split; [discriminate | reflexivity].
  - apply monitorOf_snoc_inv in H as (m & Hm & Hstep).
    destruct (IH m Hm) as [Hfl Hout]. unfold outstanding in *.
    rewrite sentOf_app, doneOf_app.
    destruct x as [t|t o]; simpl in Hstep.
    + destruct (m_flight m) eqn:Ef; [discriminate|].
      destruct (Nat.eqb_spec t (m_next m)) as [->|]; [|discriminate].
      injection Hstep as <-. split; [cbn; intros t [= <-]; reflexivity|].
      cbn [m_flight].
      change (doneOf [HSent (m_next m)]) with (@nil nat).
      change (sentOf [HSent (m_next m)]) with [m_next m].
      rewrite app_nil_r, filter_app, Hout, filter_cons_True, filter_nil;
        [reflexivity|].
      rewrite (done_iff_lt _ m) by exact Hm. lia.
    + destruct (Nat.eqb_spec t (m_next m)) as [->|]; [|discriminate].
      injection Hstep as <-. split; [cbn; discriminate|].
      cbn [m_flight].
      change (doneOf [HDone (m_next m) o]) with [m_next m].
      change (sentOf [HDone (m_next m) o]) with (@nil nat).
      rewrite app_nil_r, filter_not_in_snoc, Hout.
      destruct (m_flight m) as [t0|] eqn:Ef; [|reflexivity].
      rewrite (Hfl t0) by reflexivity. rewrite filter_cons_False, filter_nil; auto.
Qed.

End Queue.

Section QueueDiscipline.
Import Hfp HfpInv.

(** C1: on every connection object, after any sequence of actions (new
    connections, channel data, errors and closes, timers, scheduled
    callbacks, call-control operations, steps of the SLC set-up, its
    completion and its failure), the history of sends and completions is
    accepted by the monitor: a command was written only when nothing was
    in flight, and only the oldest command that had not completed; every
    completion was that of the oldest command that had not completed. So
    at every point of the history at most one command is in flight, the
    promises were settled in the order the commands were enqueued, the
    queue holds exactly the commands issued and not completed, in that
    order, and the command in flight, if any, is the head of the queue. *)
Theorem queue_discipline (acts : list action) (r : nat) (c : conn) :
  store (run acts init) !! r = Some c ->
  exists m,
    monitorOf (history c) = Some m /\
    (forall pre post, history c = pre ++ post -> length (outstanding pre) <= 1) /\
    doneOf (history c) = seq 0 (m_next m) /\
    ticket <$> _cmdQueue c = seq (m_next m) (length (_cmdQueue c)) /\
    m_next m + length (_cmdQueue c) = issued c /\
    (forall t, m_flight m = Some t ->
       outstanding (history c) = [t] /\ _cmdInFlight c = true /\
       exists e rest, _cmdQueue c = e :: rest /\ ticket e = t).
Proof.
  intros Hc.
  pose proof (run_inv acts init init_inv) as HI.
  pose proof (inv_queue _ _ HI _ _ Hc) as (m & H1 & H2 & H3 & H4).
  exists m. split; [exact H1|]. split.
  { intros pre post Hh. rewrite Hh in H1.
    apply monitorOf_prefix in H1 as (m' & Hm').
    destruct (monitor_outstanding _ _ Hm') as [_ ->].
    destruct (m_flight m'); simpl; lia. }
  split; [apply monitorOf_done, H1|]. split; [exact H2|]. split; [exact H3|].
  intros t Hf. destruct (monitor_outstanding _ _ H1) as [_ Hout].
  rewrite Hf in Hout. split; [exact Hout|].
  destruct (socket_destroyed c); [destruct H4; congruence|].
  destruct (_cmdInFlight c); [|destruct H4; congruence].
  destruct H4 as (e & rest & tid & Hq & _ & Hfl).
  split; [reflexivity|]. exists e, rest. split; [exact Hq | congruence].
Qed.

Lemma queue_discipline_witness :
  let acts := [NewConnection "/org/bluez/hci0/dev_AA_BB_CC_DD_EE_FF";
               Operation answer "AA:BB:CC:DD:EE:FF";
               SocketData "AA:BB:CC:DD:EE:FF" ("OK" +:+ String "013" "");
               RunImmediate] in
  exists c, store (run acts init) !! 0 = Some c /\
    exists m,
      monitorOf (history c) = Some m /\
      (forall pre post, history c = pre ++ post -> length (outstanding pre) <= 1) /\
      doneOf (history c) = seq 0 (m_next m) /\
      ticket <$> _cmdQueue c = seq (m_next m) (length (_cmdQueue c)) /\
      m_next m + length (_cmdQueue c) = issued c /\
      (forall t, m_flight m = Some t ->
         outstanding (history c) = [t] /\ _cmdInFlight c = true /\
         exists e rest, _cmdQueue c = e :: rest /\ ticket e = t).
Proof.
  intros acts. eexists. split; [vm_compute; reflexivity|].
  apply (queue_discipline acts 0). vm_compute. reflexivity.
Defined.

End QueueDiscipline.

(** ** Waiting for resolved services *)

Section Waits.
Import BluezPath Bluez.

Lemma waiters_removeListener tid m w :
  w ∈ _waiters (removeListener tid m) <-> w ∈ _waiters m /\ fst w <> tid.
Proof.
  unfold removeListener. cbn. rewrite list_elem_of_In, filter_In, <- list_elem_of_In.
  rewrite negb_true_iff, Nat.eqb_neq. tauto.
Qed.

Lemma waits_settleWait tid o m tid' :
  waits (settleWait tid o m) !! tid'
  = match waits m !! tid' with
    | Some x => Some x
    | None => if decide (tid' = tid) then Some o else None
    end.
Proof.
  unfold settleWait. destruct (waits m !! tid) eqn:E.
  - destruct (waits m !! tid') eqn:E'; [reflexivity|].
    case_decide; [congruence | reflexivity].
  - cbn. rewrite lookup_insert. case_decide.
    + subst. rewrite E. rewrite decide_True by reflexivity. reflexivity.
    + rewrite decide_False by congruence. destruct (waits m !! tid'); reflexivity.
Qed.

Lemma settleWait_fields tid o m :
  _waiters (settleWait tid o m) = _waiters m /\
  timers (settleWait tid o m) = timers m /\
  clock (settleWait tid o m) = clock m /\
  nextTimer (settleWait tid o m) = nextTimer m.
Proof. unfold settleWait. destruct (waits m !! tid); repeat split. Qed.

(** A settled wait stays as it is. *)
Lemma settled_onChange tid o t mac cm upd m :
  waits m !! tid = Some o -> waits (onChange t mac cm upd m) !! tid = Some o.
Proof.
  intros H. unfold onChange. destruct (_ && _); [|exact H].
  rewrite waits_settleWait. cbn. rewrite H. reflexivity.
Qed.

Lemma settled_timeout tid o t path m :
  waits m !! tid = Some o ->
  waits (onWaitTimeout t path (clearTimer t m)) !! tid = Some o.
Proof.
  intros H. unfold onWaitTimeout. rewrite waits_settleWait. cbn. rewrite H. reflexivity.
Qed.

Lemma settled_foldl {A} (f : manager -> A -> manager) tid o :
  (forall m a, waits m !! tid = Some o -> waits (f m a) !! tid = Some o) ->
  forall l m, waits m !! tid = Some o -> waits (foldl f m l) !! tid = Some o.
Proof.
  intros Hf l. induction l as [|a l IH]; intros m H; simpl; [exact H|].
  apply IH, Hf, H.
Qed.

Lemma settled_step tid o e m :
  waits m !! tid = Some o -> waits (waitStep e m) !! tid = Some o.
Proof.
  intros H. destruct e as [cm upd|ms|path rd]; cbn [waitStep].
  - unfold deliverDeviceChanged. apply settled_foldl; [|exact H].
    intros m0 a. apply settled_onChange.
  - unfold runDueTimers. apply settled_foldl; [|exact H].
    intros m0 a H0. unfold dueStep.
    destruct (_ <=? _)%Z; [apply settled_timeout, H0 | exact H0].
  - unfold discoverServices, _waitForServicesResolved, directRead.
    repeat match goal with
           | |- context [if ?b then _ else _] => destruct b
           | |- context [match ?x with _ => _ end] => destruct x
           end; exact H.
Qed.

Lemma settled_run tid o tr : forall m,
  waits m !! tid = Some o -> waits (waitRun tr m) !! tid = Some o.
Proof.
  unfold waitRun. induction tr as [|e tr IH]; intros m H; simpl; [exact H|].
  apply IH, settled_step, H.
Qed.

Lemma pending_settle_other tid mac path d t o m :
  t <> tid -> pendingWait tid mac path d m -> pendingWait tid mac path d (settleWait t o m).
Proof.
  intros Hne (H1 & H2 & H3 & H4 & H5).
  destruct (settleWait_fields t o m) as (F1 & F2 & F3 & F4).
  unfold pendingWait. rewrite waits_settleWait, H1, F1, F2, F4.
  rewrite decide_False by congruence. auto.
Qed.

Lemma pending_remove_other tid mac path d t m :
  t <> tid -> pendingWait tid mac path d m ->
  pendingWait tid mac path d (removeListener t (clearTimer t m)).
Proof.
  intros Hne (H1 & H2 & H3 & H4 & H5). unfold pendingWait.
  split; [exact H1|]. split; [cbn; rewrite lookup_delete_ne by congruence; exact H2|].
  split; [apply waiters_removeListener; cbn; auto|].
  split; [|exact H5].
  intros mac' Hin. apply waiters_removeListener in Hin as [Hin _]. apply H4, Hin.
Qed.

Lemma pending_onChange_other tid mac path d t mac' cm upd m :
  t <> tid -> pendingWait tid mac path d m ->
  pendingWait tid mac path d (onChange t mac' cm upd m).
Proof.
  intros Hne H. unfold onChange. destruct (_ && _); [|exact H].
  apply pending_settle_other; [exact Hne|]. apply pending_remove_other; assumption.
Qed.

Lemma pending_timeout_other tid mac path d t path' m :
  t <> tid -> pendingWait tid mac path d m ->
  pendingWait tid mac path d (onWaitTimeout t path' (clearTimer t m)).
Proof.
  intros Hne H. unfold onWaitTimeout.
  apply pending_settle_other; [exact Hne|].
  apply (pending_remove_other _ _ _ _ t) in H; [|exact Hne].
  destruct H as (H1 & H2 & H3 & H4 & H5). unfold pendingWait. cbn in *.
  rewrite lookup_delete_ne in H2 by congruence.
  rewrite lookup_delete_ne by congruence. auto.
Qed.

Lemma clock_onChange t mac cm upd m : clock (onChange t mac cm upd m) = clock m.
Proof.
  unfold onChange. destruct (_ && _); [|reflexivity].
  destruct (settleWait_fields t WaitResolved (removeListener t (clearTimer t m)))
    as (_ & _ & -> & _). reflexivity.
Qed.

Lemma clock_timeout t path m : clock (onWaitTimeout t path (clearTimer t m)) = clock m.
Proof.
  unfold onWaitTimeout.
  destruct (settleWait_fields t (WaitRejected ("ServicesResolved timeout for " +:+ path))
              (removeListener t (clearTimer t m))) as (_ & _ & -> & _). reflexivity.
Qed.

Lemma clock_deliver cm upd m : clock (deliverDeviceChanged cm upd m) = clock m.
Proof.
  unfold deliverDeviceChanged. generalize (_waiters m) as l. intros l. revert m.
  induction l as [|w l IH]; intros m; simpl; [reflexivity|].
  rewrite IH. apply clock_onChange.
Qed.

(** An event that does not carry the flag for the address leaves the
    wait subscribed. *)
Lemma deliver_nomatch tid mac path d cm upd l : forall m,
  String.eqb cm mac && servicesResolvedTrue upd = false ->
  pendingWait tid mac path d m ->
  (forall mac', (tid, mac') ∈ l -> mac' = mac) ->
  pendingWait tid mac path d (foldl (fun m w => onChange (fst w) (snd w) cm upd m) m l).
Proof.
  intros m Hno. revert m. induction l as [|[t mac'] l IH]; intros m Hp Hl; simpl; [exact Hp|].
  apply IH; [|intros x Hx; apply Hl; right; exact Hx].
  destruct (decide (t = tid)) as [->|Hne].
  - rewrite (Hl mac') by left. unfold onChange. rewrite Hno. exact Hp.
  - apply pending_onChange_other; assumption.
Qed.

(** An event that carries the flag for the address resolves the wait. *)
Lemma deliver_match tid mac path d cm upd l : forall m,
  String.eqb cm mac && servicesResolvedTrue upd = true ->
  pendingWait tid mac path d m ->
  (forall mac', (tid, mac') ∈ l -> mac' = mac) ->
  (tid, mac) ∈ l ->
  waits (foldl (fun m w => onChange (fst w) (snd w) cm upd m) m l) !! tid
  = Some WaitResolved.
Proof.
  intros m Hyes. revert m.
  induction l as [|[t mac'] l IH]; intros m Hp Hl Hin; simpl; [inversion Hin|].
  destruct (decide (t = tid)) as [->|Hne].
  - rewrite (Hl mac') by left.
    apply settled_foldl; [intros m0 a; apply settled_onChange|].
    unfold onChange. rewrite Hyes, waits_settleWait. cbn.
    destruct Hp as (-> & _). rewrite decide_True by reflexivity. reflexivity.
  - apply IH.
    + apply pending_onChange_other; assumption.
    + intros x Hx. apply Hl. right. exact Hx.
    + apply elem_of_cons in Hin as [[= ? ?]|Hin]; [congruence | exact Hin].
Qed.

Lemma clock_dueFold l : forall m, clock (foldl dueStep m l) = clock m.
Proof.
  induction l as [|x l IH]; intros m; simpl; [reflexivity|].
  rewrite IH. unfold dueStep. destruct (_ <=? _)%Z; [apply clock_timeout | reflexivity].
Qed.

Lemma due_notyet tid mac path d l : forall m,
  (clock m < d)%Z ->
  pendingWait tid mac path d m ->
  (forall x, (tid, x) ∈ l -> x = (d, path)) ->
  pendingWait tid mac path d (foldl dueStep m l).
Proof.
  induction l as [|[t [d' p']] l IH]; intros m Hc Hp Hl; simpl; [exact Hp|].
  assert (Hstep : pendingWait tid mac path d (dueStep m (t, (d', p'))) /\
                  clock (dueStep m (t, (d', p'))) = clock m).
  { unfold dueStep. cbn. destruct (d' <=? clock m)%Z eqn:E; [|auto].
    split; [|apply clock_timeout].
    destruct (decide (t = tid)) as [->|Hne].
    - assert (Heq : (d', p') = (d, path)) by (apply Hl; left).
      injection Heq as -> ->. apply Z.leb_le in E. lia.
    - apply pending_timeout_other; assumption. }
  destruct Hstep as [Hp' Hc'].
  apply IH; [lia | exact Hp' | intros x Hx; apply Hl; right; exact Hx].
Qed.

Lemma due_fires tid mac path d l : forall m,
  (d <= clock m)%Z ->
  pendingWait tid mac path d m ->
  (forall x, (tid, x) ∈ l -> x = (d, path)) ->
  (tid, (d, path)) ∈ l ->
  waits (foldl dueStep m l) !! tid
  = Some (WaitRejected ("ServicesResolved timeout for " +:+ path)).
Proof.
  induction l as [|[t [d' p']] l IH]; intros m Hc Hp Hl Hin; simpl; [inversion Hin|].
  destruct (decide (t = tid)) as [->|Hne].
  - assert (Heq : (d', p') = (d, path)) by (apply Hl; left).
    injection Heq as -> ->.
    apply settled_foldl.
    { intros m0 a H0. unfold dueStep.
      destruct (_ <=? _)%Z; [apply settled_timeout, H0 | exact H0]. }
    unfold dueStep. cbn. rewrite (proj2 (Z.leb_le _ _) Hc).
    unfold onWaitTimeout. rewrite waits_settleWait. cbn.
    destruct Hp as (-> & _). rewrite decide_True by reflexivity. reflexivity.
  - apply IH.
    + assert (clock (dueStep m (t, (d', p'))) = clock m) as ->; [|exact Hc].
      unfold dueStep. cbn. destruct (_ <=? _)%Z; [apply clock_timeout | reflexivity].
    + unfold dueStep. cbn. destruct (_ <=? _)%Z; [|exact Hp].
      apply pending_timeout_other; assumption.
    + intros x Hx. apply Hl. right. exact Hx.
    + apply elem_of_cons in Hin as [[= ? ?]|Hin]; [congruence | exact Hin].
Qed.

(** The two ways [discoverServices] starts. *)
Lemma discover_cases path rd m :
  let X := discoverServices path rd m in
  (X.1 = ResolvedNow /\ (directRead path rd m).1 = Ok (VBool true) /\
   clock X.2 = clock m /\ waits X.2 = waits m /\ _waiters X.2 = _waiters m /\
   timers X.2 = timers m /\ nextTimer X.2 = nextTimer m) \/
  (X.1 = Subscribed (nextTimer m) /\ (directRead path rd m).1 <> Ok (VBool true) /\
   clock X.2 = clock m /\ waits X.2 = waits m /\
   _waiters X.2 = _waiters m ++ [(nextTimer m, devicePathToMac path)] /\
   timers X.2 = <[nextTimer m := ((clock m + 30000)%Z, path)]> (timers m) /\
   nextTimer X.2 = S (nextTimer m)).
Proof.
  unfold discoverServices, _waitForServicesResolved.
  assert (Hd : clock (directRead path rd m).2 = clock m /\
               waits (directRead path rd m).2 = waits m /\
               _waiters (directRead path rd m).2 = _waiters m /\
               timers (directRead path rd m).2 = timers m /\
               nextTimer (directRead path rd m).2 = nextTimer m).
  { unfold directRead. case_bool_decide; [repeat split|].
    destruct (proxyOk rd); repeat split. }
  destruct (directRead path rd m) as [v m1]. cbn in Hd.
  destruct Hd as (D1 & D2 & D3 & D4 & D5).
  destruct v as [[| |[]| | | | |]|]; cbn; rewrite ?D1, ?D2, ?D3, ?D4, ?D5;
    first [ left; repeat split; fail
          | right; repeat split; discriminate ].
Qed.

Lemma discover_fields path rd m :
  clock (discoverServices path rd m).2 = clock m /\
  waits (discoverServices path rd m).2 = waits m /\
  (forall w, w ∈ _waiters m -> w ∈ _waiters (discoverServices path rd m).2) /\
  (forall w, w ∈ _waiters (discoverServices path rd m).2 ->
             w ∈ _waiters m \/ fst w = nextTimer m) /\
  (forall t x, timers m !! t = Some x -> t <> nextTimer m ->
               timers (discoverServices path rd m).2 !! t = Some x) /\
  nextTimer m <= nextTimer (discoverServices path rd m).2.
Proof.
  destruct (discover_cases path rd m) as [(_ & _ & -> & -> & -> & -> & ->)
                                         |(_ & _ & -> & -> & -> & -> & ->)].
  - repeat split; auto.
  - split; [reflexivity|]. split; [reflexivity|].
    split; [intros w Hw; apply elem_of_app; auto|].
    split.
    { intros w Hw. apply elem_of_app in Hw as [Hw|Hw]; [auto|].
      apply list_elem_of_singleton in Hw as ->. auto. }
    split; [intros t x Hx Hne; rewrite lookup_insert_ne by congruence; exact Hx | lia].
Qed.

Lemma pending_discover tid mac path d path' rd m :
  pendingWait tid mac path d m ->
  pendingWait tid mac path d (discoverServices path' rd m).2.
Proof.
  intros (H1 & H2 & H3 & H4 & H5).
  destruct (discover_fields path' rd m) as (F1 & F2 & F3 & F4 & F5 & F7).
  unfold pendingWait. rewrite F2.
  split; [exact H1|]. split; [apply F5; [exact H2 | lia]|].
  split; [apply F3, H3|]. split; [|lia].
  intros mac' Hin. apply F4 in Hin as [Hin|Hin]; [apply H4, Hin | cbn in Hin; lia].
Qed.

(** The wait follows its specification. *)
Lemma wait_follows_spec tid mac path d tr : forall m,
  pendingWait tid mac path d m -> (clock m < d)%Z ->
  waits (waitRun tr m) !! tid = expectedWait mac path d (clock m) tr.
Proof.
  induction tr as [|e tr IH]; intros m Hp Hc.
  - destruct Hp as (H1 & _). exact H1.
  - change (waitRun (e :: tr) m) with (waitRun tr (waitStep e m)).
    pose proof Hp as (H1 & H2 & H3 & H4 & H5).
    destruct e as [cm upd|ms|path' rd]; cbn [waitStep expectedWait].
    + destruct (String.eqb cm mac && servicesResolvedTrue upd) eqn:E.
      * apply settled_run. unfold deliverDeviceChanged.
        eapply deliver_match; eauto.
      * rewrite <- (clock_deliver cm upd m). apply IH.
        -- unfold deliverDeviceChanged. eapply deliver_nomatch; eauto.
        -- rewrite clock_deliver. exact Hc.
    + set (m0 := set_clock (clock m + Z.max 0 ms) m).
      assert (Hp0 : pendingWait tid mac path d m0) by exact Hp.
      assert (Hl : forall x, (tid, x) ∈ map_to_list (timers m0) -> x = (d, path)).
      { intros x Hx. apply elem_of_map_to_list in Hx. cbn in Hx. congruence. }
      destruct (d <=? clock m + Z.max 0 ms)%Z eqn:E.
      * apply settled_run. unfold runDueTimers.
        eapply due_fires; eauto.
        -- apply Z.leb_le in E. exact E.
        -- apply elem_of_map_to_list. exact H2.
      * apply Z.leb_gt in E.
        replace (clock m + Z.max 0 ms)%Z with (clock (runDueTimers m0))
          by (unfold runDueTimers; rewrite clock_dueFold; reflexivity).
        apply IH.
        -- unfold runDueTimers. eapply due_notyet; eauto.
        -- unfold runDueTimers. rewrite clock_dueFold. exact E.
    + destruct (discover_fields path' rd m) as (F1 & _).
      rewrite <- F1. apply IH; [apply pending_discover, Hp | rewrite F1; exact Hc].
Qed.

Lemma wf_settle t o m : wfWaits m -> t < nextTimer m -> wfWaits (settleWait t o m).
Proof.
  intros (W1 & W2 & W3) Ht.
  destruct (settleWait_fields t o m) as (F1 & F2 & F3 & F4).
  unfold wfWaits. rewrite F1, F2, F4. split; [exact W1|]. split; [exact W2|].
  intros tid x. rewrite waits_settleWait.
  destruct (waits m !! tid) eqn:E; [intros _; eapply W3, E|].
  case_decide; [intros _; subst; exact Ht | discriminate].
Qed.

Lemma wf_remove t m : wfWaits m -> wfWaits (removeListener t (clearTimer t m)).
Proof.
  intros (W1 & W2 & W3). unfold wfWaits. cbn.
  split.
  { intros tid mac Hin.
    apply (waiters_removeListener t (clearTimer t m)) in Hin as [Hin _].
    eapply W1, Hin. }
  split; [|exact W3].
  intros tid x Hx. apply lookup_delete_Some in Hx as [_ Hx]. eapply W2, Hx.
Qed.

Lemma wf_onChange t mac cm upd m :
  wfWaits m -> t < nextTimer m ->
  wfWaits (onChange t mac cm upd m) /\ nextTimer (onChange t mac cm upd m) = nextTimer m.
Proof.
  intros HW Ht. unfold onChange. destruct (_ && _); [|auto].
  split; [apply wf_settle; [apply wf_remove, HW | exact Ht]|].
  destruct (settleWait_fields t WaitResolved (removeListener t (clearTimer t m)))
    as (_ & _ & _ & ->). reflexivity.
Qed.

Lemma wf_dueStep m x :
  wfWaits m -> fst x < nextTimer m ->
  wfWaits (dueStep m x) /\ nextTimer (dueStep m x) = nextTimer m.
Proof.
  intros HW Ht. unfold dueStep. destruct (_ <=? _)%Z; [|auto]. unfold onWaitTimeout.
  split.
  - apply wf_settle; [|exact Ht].
    apply (wf_remove (fst x)) in HW. destruct HW as (W1 & W2 & W3).
    unfold wfWaits. cbn in *. split; [exact W1|]. split; [|exact W3].
    intros tid y Hy. apply lookup_delete_Some in Hy as [Hne Hy].
    eapply W2. rewrite lookup_delete_ne by congruence. exact Hy.
  - match goal with |- nextTimer (settleWait ?a ?b ?c) = _ =>
      destruct (settleWait_fields a b c) as (_ & _ & _ & ->) end. reflexivity.
Qed.

Lemma wf_foldl {A} (f : manager -> A -> manager) (key : A -> nat) :
  (forall m a, wfWaits m -> key a < nextTimer m ->
               wfWaits (f m a) /\ nextTimer (f m a) = nextTimer m) ->
  forall l m, wfWaits m -> (forall a, a ∈ l -> key a < nextTimer m) ->
              wfWaits (foldl f m l).
Proof.
  intros Hf l. induction l as [|a l IH]; intros m HW Hl; simpl; [exact HW|].
  destruct (Hf m a HW) as [HW' Hn]; [apply Hl; left|].
  apply IH; [exact HW'|]. intros b Hb. rewrite Hn. apply Hl. right. exact Hb.
Qed.

Lemma wf_step e m : wfWaits m -> wfWaits (waitStep e m).
Proof.
  intros HW. pose proof HW as (W1 & W2 & W3).
  destruct e as [cm upd|ms|path rd]; cbn [waitStep].
  - unfold deliverDeviceChanged.
    apply (wf_foldl _ fst); [|exact HW|].
    + intros m0 [t mac]. apply wf_onChange.
    + intros [t mac] Hin. eapply W1, Hin.
  - unfold runDueTimers.
    apply (wf_foldl _ fst); [intros m0 x; apply wf_dueStep | exact HW |].
    intros [t x] Hin. apply elem_of_map_to_list in Hin. eapply W2, Hin.
  - destruct (discover_cases path rd m) as [(_ & _ & _ & E2 & E3 & E4 & E5)
                                           |(_ & _ & _ & E2 & E3 & E4 & E5)];
      unfold wfWaits; rewrite E2, E3, E4, E5; [exact HW|].
    split.
    { intros tid mac Hin. apply elem_of_app in Hin as [Hin|Hin].
      - apply W1 in Hin. lia.
      - apply list_elem_of_singleton in Hin. injection Hin as -> _. lia. }
    split.
    { intros tid x. rewrite lookup_insert. case_decide; [intros _; lia|].
      intros Hx. apply W2 in Hx. lia. }
    intros tid o Ho. apply W3 in Ho. lia.
Qed.

Lemma wf_run tr : forall m, wfWaits m -> wfWaits (waitRun tr m).
Proof.
  unfold waitRun. induction tr as [|e tr IH]; intros m HW; simpl; [exact HW|].
  apply IH, wf_step, HW.
Qed.

Lemma wf_new hci : wfWaits (newManager hci).
Proof.
  unfold wfWaits. cbn. repeat split; intros *; rewrite ?lookup_empty;
    try discriminate. intros H. inversion H.
Qed.

(** What the direct read gives, in terms of what the bus answers: the
    value of the flag when a proxy for the device is cached or the bus
    hands one out, and a failure otherwise. *)
Lemma directRead_value path rd m :
  (directRead path rd m).1
  = if bool_decide (path ∈ _deviceProxies m) || proxyOk rd
    then propertyValue rd
    else Throw "getProxyObject failed".
Proof.
  unfold directRead. case_bool_decide; [reflexivity|].
  destruct (proxyOk rd); reflexivity.
Qed.

(** C4: [discoverServices] first waits for the services-resolved flag.
    When the device has a proxy (a cached one, or one the bus hands out
    now) and the bus answers the read of the flag with [true], it goes on
    at once and subscribes nothing: listeners, timers and waits are as
    before. When no proxy can be had, or the read fails or gives
    anything but [true], it subscribes a listener and a 30-second
    time-out, and, whatever happens afterwards, the wait is settled as
    specified: it resolves at the first [deviceChanged] event for the MAC
    address of the device path that carries [servicesResolved = true],
    and it is rejected with the error [ServicesResolved timeout for
    <path>] when 30000 ms have passed without such an event; until then
    it stays pending. *)
Theorem discover_waits_for_resolved (hci : nat) (before : list waitEvent)
    (path : string) (rd : busRead) (after : list waitEvent) :
  let m := waitRun before (newManager hci) in
  let start := (discoverServices path rd m).1 in
  let m1 := (discoverServices path rd m).2 in
  ((path ∈ _deviceProxies m \/ proxyOk rd = true) ->
   propertyValue rd = Ok (VBool true) ->
   start = ResolvedNow /\
   _waiters m1 = _waiters m /\ timers m1 = timers m /\ waits m1 = waits m) /\
  (((path ∉ _deviceProxies m) /\ proxyOk rd = false) \/
   propertyValue rd <> Ok (VBool true) ->
   exists tid,
     start = Subscribed tid /\
     (tid, devicePathToMac path) ∈ _waiters m1 /\
     timers m1 !! tid = Some ((clock m + 30000)%Z, path) /\
     waits (waitRun after m1) !! tid
     = expectedWait (devicePathToMac path) path (clock m + 30000) (clock m) after).
Proof.
  intros m start m1. subst start m1.
  assert (HW : wfWaits m) by (apply wf_run, wf_new).
  pose proof HW as (W1 & W2 & W3).
  pose proof (directRead_value path rd m) as Hv.
  destruct (discover_cases path rd m) as [(E0 & Hr & E1 & E2 & E3 & E4 & E5)
                                         |(E0 & Hr & E1 & E2 & E3 & E4 & E5)].
  - split; [intros _ _; auto|].
    intros Hn. exfalso. rewrite Hr in Hv. clear Hr.
    destruct Hn as [[Hp Hb]|Hn].
    + rewrite (bool_decide_eq_false_2 _ Hp), Hb in Hv. discriminate.
    + destruct (bool_decide (path ∈ _deviceProxies m) || proxyOk rd);
        [congruence | discriminate].
  - split.
    { intros Hp Hy. exfalso. apply Hr. rewrite Hv, Hy.
      destruct Hp as [Hp|Hp].
      - rewrite (bool_decide_eq_true_2 _ Hp). reflexivity.
      - rewrite Hp, orb_true_r. reflexivity. }
    intros _.
    exists (nextTimer m). split; [exact E0|].
    assert (Hp : pendingWait (nextTimer m) (devicePathToMac path) path
                   (clock m + 30000) (discoverServices path rd m).2).
    { unfold pendingWait. rewrite E2, E3, E4, E5.
      split.
      { destruct (waits m !! nextTimer m) eqn:E; [|reflexivity].
        apply W3 in E. lia. }
      split; [apply lookup_insert_eq|].
      split; [apply elem_of_app; right; apply list_elem_of_singleton; reflexivity|].
      split; [|lia].
      intros mac' Hin. apply elem_of_app in Hin as [Hin|Hin].
      - apply W1 in Hin. lia.
      - apply list_elem_of_singleton in Hin. congruence. }
    pose proof Hp as (_ & P2 & P3 & _).
    split; [exact P3|]. split; [exact P2|].
    rewrite <- E1 at 2. apply wait_follows_spec; [exact Hp | rewrite E1; lia].
Qed.

Lemma discover_waits_for_resolved_witness :
  let m := newManager 0 in
  let path := "/org/bluez/hci0/dev_AA_BB_CC_DD_EE_FF" in
  let resolved := {| proxyOk := true; propertyValue := Ok (VBool true) |} in
  let unresolved := {| proxyOk := true; propertyValue := Ok (VBool false) |} in
  let after := [Elapses 1000;
                Emits "AA:BB:CC:DD:EE:FF" [("servicesResolved", VBool true)];
                Elapses 60000] in
  ((discoverServices path resolved m).1 = ResolvedNow /\
   _waiters (discoverServices path resolved m).2 = _waiters m) /\
  exists tid,
    (discoverServices path unresolved m).1 = Subscribed tid /\
    waits (waitRun after (discoverServices path unresolved m).2) !! tid = Some WaitResolved.
Proof.
  intros m path resolved unresolved after. split.
  - destruct (discover_waits_for_resolved 0 [] path resolved after) as [H _].
    destruct H as (H1 & H2 & _); [right; reflexivity | reflexivity |].
    split; [exact H1 | exact H2].
  - destruct (discover_waits_for_resolved 0 [] path unresolved after) as [_ H].
    destruct H as (tid & H1 & _ & _ & H4); [right; discriminate|].
    exists tid. split; [exact H1|].
    etransitivity; [exact H4 | vm_compute; reflexivity].
Defined.

End Waits.

(** ** Discovery *)

Section Discovery.
Import BluezPath Bluez BluezInv.
Variable E : env.

Lemma startCalls_app l1 l2 : startCalls (l1 ++ l2) = startCalls l1 + startCalls l2.
Proof. unfold startCalls. rewrite List.filter_app, length_app. reflexivity. Qed.

Lemma prepare_fields transport m :
  _destroyed (prepareDiscovery E transport m) = _destroyed m /\
  _discovering (prepareDiscovery E transport m) = _discovering m /\
  startCalls (effects (prepareDiscovery E transport m)) = startCalls (effects m).
Proof.
  unfold prepareDiscovery, callAdapter.
  destruct (adapter E (effects m) StopDiscovery);
    cbn [fst snd effects set_effects _destroyed _discovering];
    rewrite !startCalls_app; cbn; repeat split; lia.
Qed.

(** C5: [startDiscovery] is idempotent. Called while discovery is flagged
    as running, it returns at once, without error and without any call on
    the adapter: the manager is unchanged. So, on a manager that is not
    destroyed and not yet discovering, a first call that returns without
    error followed by a second call performs the start call exactly once,
    and the second call returns without error. And when the start call
    fails with an error whose message contains [InProgress] or
    [already in progress], [startDiscovery] returns without error and the
    discovering flag is set. *)
Theorem startDiscovery_idempotent (transport transport' : string) (m : manager) :
  (_discovering m = true -> startDiscovery E transport m = (Returns, m)) /\
  (_destroyed m = false -> _discovering m = false ->
   (startDiscovery E transport m).1 = Returns ->
   let m1 := (startDiscovery E transport m).2 in
   startDiscovery E transport' m1 = (Returns, m1) /\
   startCalls (effects m1) = S (startCalls (effects m))) /\
  (_destroyed m = false -> _discovering m = false ->
   forall message,
     (callAdapter E StartDiscovery (prepareDiscovery E transport m)).1 = Failed message ->
     inProgress message = true ->
     (startDiscovery E transport m).1 = Returns /\
     _discovering (startDiscovery E transport m).2 = true).
Proof.
  split; [|split].
  - intros Hd. unfold startDiscovery. rewrite Hd. destruct (_destroyed m); reflexivity.
  - intros Hx Hd. unfold startDiscovery at 1 2. rewrite Hx, Hd.
    destruct (prepare_fields transport m) as (P1 & P2 & P3).
    unfold callAdapter.
    destruct (adapter E _ StartDiscovery) as [|message] eqn:Ea;
      cbn [fst snd effects set_effects set_discovering].
    + intros _. split.
      * unfold startDiscovery. cbn [_destroyed _discovering set_effects set_discovering].
        rewrite P1, Hx. reflexivity.
      * rewrite startCalls_app, P3. cbn. lia.
    + destruct (inProgress message);
        cbn [fst snd effects set_effects set_discovering]; [|discriminate].
      intros _. split.
      * unfold startDiscovery. cbn [_destroyed _discovering set_effects set_discovering].
        rewrite P1, Hx. reflexivity.
      * rewrite startCalls_app, P3. cbn. lia.
  - intros Hx Hd message Hm Hp. unfold startDiscovery. rewrite Hx, Hd.
    destruct (callAdapter E StartDiscovery (prepareDiscovery E transport m)) as [r m1].
    cbn in Hm. subst r. rewrite Hp. auto.
Qed.

End Discovery.

Section DiscoveryWitness.
Import BluezPath Bluez BluezInv.

Lemma startDiscovery_idempotent_witness :
  let m := newManager 0 in
  let m1 := (startDiscovery busyAdapter "le" m).2 in
  (startDiscovery busyAdapter "auto" m1 = (Returns, m1) /\
   startCalls (effects m1) = S (startCalls (effects m))) /\
  ((startDiscovery busyAdapter "le" m).1 = Returns /\
   _discovering (startDiscovery busyAdapter "le" m).2 = true) /\
  startDiscovery busyAdapter "le" m1 = (Returns, m1).
Proof.
  intros m m1.
  destruct (startDiscovery_idempotent busyAdapter "le" "auto" m) as (_ & H2 & H3).
  destruct (startDiscovery_idempotent busyAdapter "le" "auto" m1) as (H1 & _ & _).
  split; [apply H2; reflexivity|].
  split; [eapply H3; reflexivity|].
  apply H1. reflexivity.
Defined.

End DiscoveryWitness.

(** ** The dispatcher *)

Section Dispatcher.
Import BluezPath Bluez BluezInv.
Variable E : env.













Lemma devices_settleWait t o m : _devices (settleWait t o m) = _devices m.
Proof. unfold settleWait. destruct (waits m !! t); reflexivity. Qed.

Lemma devices_onChange t mac cm upd m : _devices (onChange t mac cm upd m) = _devices m.
Proof.
  unfold onChange. destruct (_ && _); [|reflexivity]. rewrite devices_settleWait.
  reflexivity.
Qed.

Lemma devices_deliver cm upd m : _devices (deliverDeviceChanged cm upd m) = _devices m.
Proof.
  unfold deliverDeviceChanged. generalize (_waiters m). intros l. revert m.
  induction l as [|w l IH]; intros m; simpl; [reflexivity|].
  rewrite IH. apply devices_onChange.
Qed.






















End Dispatcher.

Section DispatcherExample.
Import BluezPath Bluez BluezInv.

(** A listener that throws on every [deviceFound] event does not stop the
    dispatcher: both devices of two notifications are cached. *)
Example dispatcher_survives_listener :
  let added mac :=
    Some {| msg_interface := VStr OBJECT_MANAGER_IFACE;
            msg_member := VStr "InterfacesAdded";
            msg_body := VArr [VStr ("/org/bluez/hci0/dev_" +:+ mac);
                              VObj [(DEVICE_IFACE, VObj [])]];
            msg_path := VStr "/" |} in
  let r := busLoop throwingListener [added "AA_BB_CC_DD_EE_01"; added "AA_BB_CC_DD_EE_02"]
             (newManager 0) in
  r.1 = Ok tt /\
  dom (_devices r.2) = {["AA:BB:CC:DD:EE:01"; "AA:BB:CC:DD:EE:02"]} /\
  length (emitted r.2) = 2.
Proof. vm_compute. repeat split. Qed.

End DispatcherExample.

(** ** Spellings of an address *)

Section Spellings.
Import BluezPath Hfp.

Lemma mapChars_compose f g s :
  Js.mapChars f (Js.mapChars g s) = Js.mapChars (fun c => f (g c)) s.
Proof. induction s as [|c s IH]; simpl; [reflexivity | rewrite IH; reflexivity]. Qed.

Lemma mapChars_ext f g s :
  (forall c, f c = g c) -> Js.mapChars f s = Js.mapChars g s.
Proof. intros H. induction s as [|c s IH]; simpl; [reflexivity | rewrite H, IH; reflexivity]. Qed.

Lemma normalise_char c :
  Js.upperChar (if Ascii.eqb (Js.upperChar (if Ascii.eqb c "-" then ":"%char else c)) "-"
                then ":"%char
                else Js.upperChar (if Ascii.eqb c "-" then ":"%char else c))
  = Js.upperChar (if Ascii.eqb c "-" then ":"%char else c).
Proof. destruct c as [[] [] [] [] [] [] [] []]; reflexivity. Qed.

Lemma normalise_twice mac : _normalise (_normalise mac) = _normalise mac.
Proof.
  unfold _normalise, Js.toUpperCase, Js.replaceClass.
  rewrite !mapChars_compose. apply mapChars_ext. intros c. apply normalise_char.
Qed.

(** X1: [_normalise] is idempotent, so an address is looked up under
    the same key whether it is given as it is or already normalised:
    [isConnected] and the lookup of the connection record do not tell a
    spelling from its normal form. *)
Theorem hfp_lookup_normalised (mac : string) (st : state) :
  _normalise (_normalise mac) = _normalise mac /\
  connOf (_normalise mac) st = connOf mac st /\
  isConnected (_normalise mac) st = isConnected mac st.
Proof.
  assert (H : connOf (_normalise mac) st = connOf mac st).
  { unfold connOf. rewrite normalise_twice. reflexivity. }
  split; [apply normalise_twice|]. split; [exact H|].
  unfold isConnected. rewrite H. reflexivity.
Qed.

Lemma path_char c :
  Js.upperChar (if isColonOrDash (Js.upperChar (if isDash c then ":"%char else c))
                then "_"%char
                else Js.upperChar (if isDash c then ":"%char else c))
  = Js.upperChar (if isColonOrDash c then "_"%char else c).
Proof. destruct c as [[] [] [] [] [] [] [] []]; reflexivity. Qed.

Lemma macToDevicePath_normalised hci mac :
  macToDevicePath hci (_normaliseMac mac) = macToDevicePath hci mac.
Proof.
  unfold macToDevicePath, _normaliseMac, Js.toUpperCase, Js.replaceClass.
  rewrite !mapChars_compose. do 2 f_equal. apply mapChars_ext. intros c. apply path_char.
Qed.

(** X2: the device path of an address does not depend on its spelling:
    two addresses with the same normal form (upper case, colons for
    dashes) have the same device path, on every adapter. *)
Theorem device_path_of_spelling (hci : nat) (mac mac' : string) :
  _normaliseMac mac = _normaliseMac mac' ->
  macToDevicePath hci mac = macToDevicePath hci mac'.
Proof.
  intros H. rewrite <- (macToDevicePath_normalised hci mac), H.
  apply macToDevicePath_normalised.
Qed.

Lemma device_path_of_spelling_witness :
  macToDevicePath 1 "aa-bb-cc-dd-ee-ff" = macToDevicePath 1 "AA:BB:CC:DD:EE:FF".
Proof. apply device_path_of_spelling. reflexivity. Defined.

End Spellings.

(** ** What [devicePathToMac] returns *)

Section PathResults.
Import BluezPath Hfp.

Lemma search_Some {A} (p : string -> option A) s g :
  Js.search p s = Some g -> exists pre t, s = pre +:+ t /\ p t = Some g.
Proof.
  induction s as [|c s IH]; cbn [Js.search].
  - destruct (p "") eqn:E; [|discriminate]. intros [= ->]. exists "", "". auto.
  - destruct (p (String c s)) eqn:E.
    + intros [= ->]. exists "", (String c s). auto.
    + intros H. apply IH in H as (pre & t & -> & Ht).
      exists (String c pre), t. auto.
Qed.

Lemma hexPair_inv s r :
  hexPair s = Some r ->
  exists a b, s = String a (String b r) /\ Js.isHex a = true /\ Js.isHex b = true.
Proof.
  destruct s as [|a [|b t]]; simpl; try discriminate.
  destruct (Js.isHex a) eqn:Ea; simpl; try discriminate.
  destruct (Js.isHex b) eqn:Eb; simpl; try discriminate.
  intros [= <-]. eauto.
Qed.

Lemma sepHexPair_inv s r :
  sepHexPair s = Some r ->
  exists a b, s = String "_" (String a (String b r))
              /\ Js.isHex a = true /\ Js.isHex b = true.
Proof.
  destruct s as [|c t]; simpl; try discriminate.
  destruct (Ascii.eqb_spec c "_") as [->|Hne].
  - intros H. apply hexPair_inv in H as (a & b & -> & Ha & Hb). eauto.
  - destruct c as [[] [] [] [] [] [] [] []]; try discriminate.
    exfalso. apply Hne. reflexivity.
Qed.

Lemma hex_to_mac c :
  Js.isHex c = true ->
  isUpperHex (Js.upperChar (if isUnderscore c then ":"%char else c)) = true.
Proof. destruct c as [[] [] [] [] [] [] [] []]; vm_compute; congruence. Qed.

Lemma upperOctet_hex a b r :
  Js.isHex a = true -> Js.isHex b = true ->
  upperOctet (String (Js.upperChar (if isUnderscore a then ":"%char else a))
               (String (Js.upperChar (if isUnderscore b then ":"%char else b)) r))
  = Some r.
Proof. intros Ha Hb. simpl. rewrite !hex_to_mac by assumption. reflexivity. Qed.

Lemma macPattern_canonical s g :
  macPatternAt s = Some g ->
  isCanonicalMac (Js.toUpperCase (Js.replaceClass isUnderscore ":" g)) = true.
Proof.
  unfold macPatternAt. destruct (Js.startsWith s "dev_"); [|discriminate].
  unfold sixTimes. generalize (Js.dropChars 4 s). intros body.
  destruct (hexPair body) as [r1|] eqn:E1; simpl; [|discriminate].
  destruct (sepHexPair r1) as [r2|] eqn:E2; simpl; [|discriminate].
  destruct (sepHexPair r2) as [r3|] eqn:E3; simpl; [|discriminate].
  destruct (sepHexPair r3) as [r4|] eqn:E4; simpl; [|discriminate].
  destruct (sepHexPair r4) as [r5|] eqn:E5; simpl; [|discriminate].
  destruct (sepHexPair r5) as [r6|] eqn:E6; simpl; [|discriminate].
  intros [= <-].
  apply hexPair_inv in E1 as (a1 & b1 & -> & ? & ?).
  apply sepHexPair_inv in E2 as (a2 & b2 & -> & ? & ?).
  apply sepHexPair_inv in E3 as (a3 & b3 & -> & ? & ?).
  apply sepHexPair_inv in E4 as (a4 & b4 & -> & ? & ?).
  apply sepHexPair_inv in E5 as (a5 & b5 & -> & ? & ?).
  apply sepHexPair_inv in E6 as (a6 & b6 & -> & ? & ?).
  cbn [Js.takeChars]. unfold Js.toUpperCase, Js.replaceClass. cbn [Js.mapChars].
  unfold isCanonicalMac, sixTimes.
  rewrite upperOctet_hex by assumption. cbn [mbind option_bind].
  change (Js.upperChar (if isUnderscore "_" then ":"%char else "_"%char))
    with ":"%char.
  cbn [colonOctet].
  repeat (rewrite upperOctet_hex by assumption; cbn [mbind option_bind colonOctet]).
  reflexivity.
Qed.

(** X3: [devicePathToMac] returns either the empty string or a canonical
    address (six octets of two upper-case hexadecimal digits, separated
    by colons): a caller that tests the result for emptiness never sees
    a malformed address. *)
Theorem devicePathToMac_empty_or_canonical (path : string) :
  devicePathToMac path = "" \/ isCanonicalMac (devicePathToMac path) = true.
Proof.
  unfold devicePathToMac. destruct (searchMac path) as [g|] eqn:E; [right | left; reflexivity].
  apply search_Some in E as (pre & t & _ & Ht).
  eapply macPattern_canonical, Ht.
Qed.

Lemma search_no_dev {A} (p : string -> option A) s :
  (forall t, Js.startsWith t "dev_" = false -> p t = None) ->
  Js.includes s "dev_" = false -> Js.search p s = None.
Proof.
  intros Hp. induction s as [|c s IH]; intros H.
  - cbn [Js.search]. rewrite Hp by reflexivity. reflexivity.
  - cbn [Js.includes] in H. apply orb_false_iff in H as [H1 H2].
    cbn [Js.search]. rewrite (Hp _ H1). apply IH, H2.
Qed.

(** X4: on a path that has no device part (no [dev_] anywhere) the two
    converters fail differently: the manager's [devicePathToMac] returns
    the empty string, the engine's [_devicePathToMac] returns the path
    itself. *)
Theorem path_without_device_part (path : string) :
  Js.includes path "dev_" = false ->
  devicePathToMac path = "" /\ _devicePathToMac path = path.
Proof.
  intros H. split.
  - unfold devicePathToMac, searchMac. rewrite search_no_dev; [reflexivity| |exact H].
    intros t Ht. unfold macPatternAt. rewrite Ht. reflexivity.
  - unfold _devicePathToMac. rewrite search_no_dev; [reflexivity| |exact H].
    intros t Ht. unfold devPatternAt. rewrite Ht. reflexivity.
Qed.

Lemma path_without_device_part_witness :
  devicePathToMac "/org/bluez/hci0" = "" /\ _devicePathToMac "/org/bluez/hci0" = "/org/bluez/hci0".
Proof. apply path_without_device_part. reflexivity. Defined.

End PathResults.

(** ** A new connection *)

Section NewConnectionFacts.
Import Hfp HfpInv.

(** X5: whatever the state and the device path, [_onNewConnection]
    announces the address with [preConnect], registers a fresh record
    under the normalised address, and starts the handshake at once: the
    feature exchange [AT+BRSF=183] is the one text on the channel, it is
    in flight with its time-out armed, and the connection does not count
    as connected yet. Records of other connection objects are not
    touched. *)
Theorem new_connection_starts_handshake (devicePath : string) (st : state) :
  let mac := _devicePathToMac devicePath in
  let st' := _onNewConnection devicePath st in
  exists c' tid,
    connOf mac st' = Some (nextRef st, c') /\
    socket_written c' = ["AT+BRSF=183" +:+ String "013" ""] /\
    _cmdQueue c' = [{| ticket := 0; cmd := "AT+BRSF=183" |}] /\
    _cmdInFlight c' = true /\
    timers st' !! tid = Some (AtTimeout (nextRef st) 0 "AT+BRSF=183") /\
    isConnected mac st' = false /\
    emitted st' = emitted st ++ [PreConnect mac] /\
    forall r, r <> nextRef st -> store st' !! r = store st !! r.
Proof.
  intros mac st'. subst st'. unfold _onNewConnection. fold mac.
  set (r := nextRef (emit [PreConnect mac] st)).
  set (st2 := set_nextRef _ _).
  assert (Hc : connOf mac st2 = Some (r, newConn mac)).
  { apply connOf_Some; unfold st2; simpl.
    - apply lookup_insert_eq.
    - apply lookup_insert_eq. }
  unfold _sendCommand. rewrite Hc.
  cbn [newConn _cmdQueue set_cmdQueue set_issued length app Nat.eqb issued snd].
  unfold _sendNextCommand. rewrite store_putConn.
  cbn [_cmdQueue set_issued set_cmdQueue _cmdInFlight ticket cmd addTimer].
  eexists _, (nextTimer st). split; [|split; [|split; [|split; [|split; [|split; [|split]]]]]].
  - apply connOf_Some.
    + simpl. apply lookup_insert_eq.
    + simpl. rewrite lookup_insert_eq. reflexivity.
  - reflexivity.
  - reflexivity.
  - reflexivity.
  - simpl. apply lookup_insert_eq.
  - unfold isConnected. erewrite connOf_Some.
    2:{ simpl. apply lookup_insert_eq. }
    2:{ simpl. rewrite lookup_insert_eq. reflexivity. }
    reflexivity.
  - reflexivity.
  - intros r0 Hr. simpl. rewrite !lookup_insert_ne by (intros <-; apply Hr; reflexivity).
    reflexivity.
Qed.

End NewConnectionFacts.

(** ** Lines that are no final response *)

Section IntermediateLines.
Import Hfp HfpInv.

(** X6: a line that is no final response (not [OK], and starting with
    neither [ERROR] nor [+CME ERROR]) never completes a command: the
    queue, the in-flight flag, the installed callbacks, the promises
    settled so far, the timers and the scheduled callbacks are all as
    before, the record stays registered, and no other connection object
    changes. *)
Theorem intermediate_line_keeps_queue (mac line : string) (r : nat) (c : conn) (st : state) :
  store st !! r = Some c ->
  String.eqb line "OK" = false ->
  Js.startsWith line "ERROR" = false ->
  Js.startsWith line "+CME ERROR" = false ->
  let st' := _processLine mac line r st in
  timers st' = timers st /\
  immediates st' = immediates st /\
  _connections st' = _connections st /\
  (forall r', r' <> r -> store st' !! r' = store st !! r') /\
  exists c', store st' !! r = Some c' /\
    _cmdQueue c' = _cmdQueue c /\
    _cmdInFlight c' = _cmdInFlight c /\
    _pending c' = _pending c /\
    issued c' = issued c /\
    history c' = history c.
Proof.
  intros Hc H1 H2 H3 st'. subst st'.
  rewrite (processLine_unsolicited mac line r c) by (try rewrite H2, H3; auto).
  pose proof (unsolicited_sameQ mac line c) as (_ & Hq & Hf & Hp & _ & Hi & Hh).
  destruct (unsolicited mac line c) as [c1 evs]. simpl in *.
  repeat split.
  - intros r' Hr. rewrite lookup_insert_ne by (intros <-; apply Hr; reflexivity).
    reflexivity.
  - exists c1. rewrite lookup_insert_eq. repeat split; assumption.
Qed.

Lemma intermediate_line_keeps_queue_witness :
  let st := run [NewConnection "/org/bluez/hci0/dev_AA_BB_CC_DD_EE_FF"] init in
  let st' := _processLine "AA:BB:CC:DD:EE:FF" "+BRSF: 871" 0 st in
  exists c, store st !! 0 = Some c /\
    timers st' = timers st /\
    immediates st' = immediates st /\
    _connections st' = _connections st /\
    (forall r', r' <> 0 -> store st' !! r' = store st !! r') /\
    exists c', store st' !! 0 = Some c' /\
      _cmdQueue c' = _cmdQueue c /\
      _cmdInFlight c' = _cmdInFlight c /\
      _pending c' = _pending c /\
      issued c' = issued c /\
      history c' = history c.
Proof.
  intros st st'. eexists. split; [vm_compute; reflexivity|].
  apply (intermediate_line_keeps_queue "AA:BB:CC:DD:EE:FF" "+BRSF: 871" 0 _ st);
    vm_compute; reflexivity.
Defined.

Lemma split_no_sep sep s :
  Js.allChars (fun c => negb (Ascii.eqb c sep)) s = true -> Js.split sep s = [s].
Proof.
  induction s as [|c s IH]; simpl; [reflexivity|].
  intros H. apply andb_true_iff in H as [Hc Hs].
  apply negb_true_iff in Hc. rewrite Hc, (IH Hs). reflexivity.
Qed.

(** X7: the codec selection [+BCS: n] of the gateway is answered at
    once and outside the command queue: [AT+BCS=n] goes on the channel
    even while another command is in flight, nothing is queued, no timer
    is set and no event is emitted. *)
Theorem codec_reply_bypasses_queue (mac codec : string) (r : nat) (c : conn) (st : state) :
  store st !! r = Some c ->
  socket_destroyed c = false ->
  Js.allChars (fun ch => negb (Ascii.eqb ch ":")) codec = true ->
  let st' := _processLine mac ("+BCS:" +:+ codec) r st in
  exists c', store st' !! r = Some c' /\
    socket_written c' = socket_written c ++ ["AT+BCS=" +:+ Js.trim codec +:+ String "013" ""] /\
    _cmdQueue c' = _cmdQueue c /\
    _cmdInFlight c' = _cmdInFlight c /\
    history c' = history c /\
    timers st' = timers st /\
    emitted st' = emitted st.
Proof.
  intros Hc Hd Hco st'. subst st'.
  rewrite (processLine_unsolicited mac _ r c) by (auto; reflexivity).
  assert (Hu : unsolicited mac ("+BCS:" +:+ codec) c
               = (socketWrite ("AT+BCS=" +:+ Js.trim codec +:+ String "013" "") c, [])).
  { unfold unsolicited, afterColon.
    change (Js.split ":" ("+BCS:" +:+ codec)) with ("+BCS" :: Js.split ":" codec).
    rewrite (split_no_sep ":" codec Hco). reflexivity. }
  rewrite Hu. cbn [fst snd]. rewrite emit_nil.
  exists (socketWrite ("AT+BCS=" +:+ Js.trim codec +:+ String "013" "") c).
  rewrite store_putConn. unfold socketWrite. rewrite Hd. repeat split.
Qed.

Lemma codec_reply_bypasses_queue_witness :
  let st := run [NewConnection "/org/bluez/hci0/dev_AA_BB_CC_DD_EE_FF"] init in
  let st' := _processLine "AA:BB:CC:DD:EE:FF" ("+BCS:" +:+ " 2") 0 st in
  exists c, store st !! 0 = Some c /\
    exists c', store st' !! 0 = Some c' /\
      socket_written c' = socket_written c ++ ["AT+BCS=" +:+ Js.trim " 2" +:+ String "013" ""] /\
      _cmdQueue c' = _cmdQueue c /\
      _cmdInFlight c' = _cmdInFlight c /\
      history c' = history c /\
      timers st' = timers st /\
      emitted st' = emitted st.
Proof.
  intros st st'. eexists. split; [vm_compute; reflexivity|].
  apply (codec_reply_bypasses_queue "AA:BB:CC:DD:EE:FF" " 2" 0 _ st); vm_compute; reflexivity.
Defined.

End IntermediateLines.

(** ** Indicator reports *)

Section IndicatorReports.
Import Hfp HfpInv.

Lemma set_indicators_id c : set_indicators (indicators c) c = c.
Proof. destruct c. reflexivity. Qed.

Lemma set_indicators_twice m m' c :
  set_indicators m (set_indicators m' c) = set_indicators m c.
Proof. reflexivity. Qed.

(** The loop stores the pairs of names and values from the left and
    emits the events of each pair. *)
Lemma valuesLoop_spec mac names : forall values b c,
  let res := indicatorValuesLoop mac names values b c in
  res.1.2 = set_indicators
              (foldl (fun m p => setIndicator p.1 p.2 m) (indicators c) (zip names values)) c /\
  res.2 = concat ((fun p => _emitIndicator mac p.1 p.2) <$> zip names values).
Proof.
  induction names as [|n names IH]; intros values b c; cbn [indicatorValuesLoop].
  - simpl. rewrite set_indicators_id. auto.
  - destruct values as [|v values].
    + simpl. rewrite set_indicators_id. auto.
    + specialize (IH values
        (b || isCallIndicator n &&
              match indicators c !! n with Some p => negb (Js.num_seq p v) | None => true end)
        (set_indicators (setIndicator n v (indicators c)) c)).
      destruct (indicatorValuesLoop mac names values _ _) as [[b' c'] evs].
      cbn [fst snd] in *. destruct IH as [-> ->]. split; reflexivity.
Qed.

Lemma setIndicator_ne name n v (m : gmap string Js.num) :
  name <> n -> setIndicator n v m !! name = m !! name.
Proof.
  intros H. unfold setIndicator. destruct (String.eqb n "__proto__"); [reflexivity|].
  apply lookup_insert_ne. congruence.
Qed.

Lemma setIndicator_eq n v (m : gmap string Js.num) :
  n <> "__proto__" -> setIndicator n v m !! n = Some v.
Proof.
  intros H. unfold setIndicator. rewrite (proj2 (String.eqb_neq _ _) H).
  apply lookup_insert_eq.
Qed.

(** Nothing is ever stored under the inherited accessor. *)
Lemma setIndicator_proto n v (m : gmap string Js.num) :
  setIndicator n v m !! "__proto__" = m !! "__proto__".
Proof.
  unfold setIndicator. destruct (String.eqb_spec n "__proto__") as [->|Hne]; [reflexivity|].
  apply lookup_insert_ne. exact Hne.
Qed.

Lemma foldl_insert_notin (l : list (string * Js.num)) : forall (m : gmap string Js.num) name,
  name ∉ l.*1 -> foldl (fun m p => setIndicator p.1 p.2 m) m l !! name = m !! name.
Proof.
  induction l as [|[n v] l IH]; intros m name H; simpl; [reflexivity|].
  rewrite fmap_cons in H. apply not_elem_of_cons in H as [Hn Hl].
  rewrite IH by assumption. apply setIndicator_ne. simpl in *. congruence.
Qed.

Lemma foldl_insert_proto (l : list (string * Js.num)) : forall (m : gmap string Js.num),
  foldl (fun m p => setIndicator p.1 p.2 m) m l !! "__proto__" = m !! "__proto__".
Proof.
  induction l as [|[n v] l IH]; intros m; simpl; [reflexivity|].
  rewrite IH. apply setIndicator_proto.
Qed.

Lemma foldl_insert_in (l : list (string * Js.num)) : forall (m : gmap string Js.num) i name v,
  NoDup l.*1 -> l !! i = Some (name, v) -> name <> "__proto__" ->
  foldl (fun m p => setIndicator p.1 p.2 m) m l !! name = Some v.
Proof.
  induction l as [|[n w] l IH]; intros m i name v Hnd Hi Hp; [discriminate|].
  rewrite fmap_cons in Hnd. apply NoDup_cons in Hnd as [Hn Hnd]. simpl.
  destruct i as [|i]; simpl in Hi.
  - injection Hi as -> ->. rewrite foldl_insert_notin by exact Hn.
    apply setIndicator_eq, Hp.
  - eapply IH; eassumption.
Qed.

(** X8: an indicator report is applied to as many indicators as both the
    report and the name table have: the pairs of the i-th name and the
    i-th value. One [indicator] event is emitted for each pair, in order;
    values beyond the name table are dropped; an indicator that is not
    among the paired names keeps its value; when the paired names are
    distinct, each one that the indicator object can hold ends with its
    value of the report. The name [__proto__], which the gateway may
    send too, is the exception: its event is emitted as for any name,
    but the object stores nothing under it, whatever the report. The
    name table is not changed. *)
Theorem indicator_report_pairs (mac : string) (values : list Js.num) (c : conn) :
  let res := _processIndicatorValues mac values c in
  let pairs := zip (indicatorMap c) values in
  omap (fun e => match e with Indicator _ n v => Some (n, v) | _ => None end) res.2 = pairs /\
  indicatorMap res.1 = indicatorMap c /\
  (forall name, name ∉ pairs.*1 -> indicators res.1 !! name = indicators c !! name) /\
  indicators res.1 !! "__proto__" = indicators c !! "__proto__" /\
  (NoDup pairs.*1 ->
   forall i name v, pairs !! i = Some (name, v) -> name <> "__proto__" ->
     indicators res.1 !! name = Some v).
Proof.
  intros res pairs. subst res. unfold _processIndicatorValues.
  pose proof (valuesLoop_spec mac (indicatorMap c) values false c) as [H1 H2].
  destruct (indicatorValuesLoop mac (indicatorMap c) values false c) as [[b c1] evs].
  cbn [fst snd] in *. subst c1 evs. fold pairs.
  split; [|split; [reflexivity|split; [|split]]].
  - assert (G : forall l tl,
      omap (fun e => match e with Indicator _ n v => Some (n, v) | _ => None end)
        (concat ((fun p => _emitIndicator mac p.1 p.2) <$> l) ++ tl)
      = l ++ omap (fun e => match e with Indicator _ n v => Some (n, v) | _ => None end) tl).
    { induction l as [|[n v] l IH]; intros tl; [reflexivity|].
      rewrite fmap_cons. cbn [concat]. rewrite <- app_assoc.
      unfold _emitIndicator at 1. cbn [fst snd].
      change ((?x :: ?l1) ++ ?l2) with (x :: (l1 ++ l2)). cbn [omap list_omap].
      f_equal. rewrite <- IH.
      destruct (String.eqb n "battchg"); [reflexivity|].
      destruct (String.eqb n "signal"); reflexivity. }
    rewrite G. destruct b; simpl; rewrite app_nil_r; reflexivity.
  - intros name H. simpl. apply foldl_insert_notin, H.
  - simpl. apply foldl_insert_proto.
  - intros Hnd i name v Hi Hp. simpl. eapply foldl_insert_in; eassumption.
Qed.

Lemma indicator_report_pairs_witness :
  let c := set_indicatorMap ["call"; "__proto__"; "callsetup"; "battchg"]
             (newConn "AA:BB:CC:DD:EE:FF") in
  let res := _processIndicatorValues "AA:BB:CC:DD:EE:FF"
               [Js.Int 0; Js.Int 7; Js.Int 1; Js.Int 4; Js.Int 9] c in
  indicators res.1 !! "callsetup" = Some (Js.Int 1) /\
  indicators res.1 !! "__proto__" = None.
Proof.
  intros c res.
  destruct (indicator_report_pairs "AA:BB:CC:DD:EE:FF"
              [Js.Int 0; Js.Int 7; Js.Int 1; Js.Int 4; Js.Int 9] c)
    as (_ & _ & _ & Hproto & Hstored).
  split.
  - refine (Hstored _ 2 "callsetup" (Js.Int 1) _ _).
    + apply (bool_decide_unpack _). vm_compute. reflexivity.
    + reflexivity.
    + discriminate.
  - exact Hproto.
Defined.

Lemma num_seq_refl v : v <> Js.NaN -> Js.num_seq v v = true.
Proof. destruct v; [intros _; simpl; apply Z.eqb_refl | congruence]. Qed.

(** A report whose values the record already holds changes nothing and
    does not count as a change of a call indicator. *)
Lemma valuesLoop_same mac names : forall values b c,
  Forall (fun v => v <> Js.NaN) values ->
  (forall p, p ∈ zip names values ->
     p.1 = "__proto__" \/ indicators c !! p.1 = Some p.2) ->
  (indicatorValuesLoop mac names values b c).1 = (b, c).
Proof.
  induction names as [|n names IH]; intros values b c Hv Hp; [reflexivity|].
  destruct values as [|v values]; [reflexivity|].
  cbn [indicatorValuesLoop].
  apply Forall_cons_1 in Hv as [Hv0 Hv].
  assert (Hc : set_indicators (setIndicator n v (indicators c)) c = c /\
               isCallIndicator n &&
               match indicators c !! n with
               | Some p => negb (Js.num_seq p v)
               | None => true
               end = false).
  { destruct (Hp (n, v)) as [H0|H0]; [simpl; left | |]; cbn [fst snd] in H0.
    - subst n. split; [apply set_indicators_id | reflexivity].
    - rewrite H0, (num_seq_refl v Hv0), andb_false_r. split; [|reflexivity].
      unfold setIndicator. destruct (String.eqb n "__proto__"); [apply set_indicators_id|].
      rewrite (insert_id _ _ _ H0). apply set_indicators_id. }
  destruct Hc as [-> ->]. rewrite orb_false_r.
  specialize (IH values b c Hv).
  destruct (indicatorValuesLoop mac names values b c) as [[b' c'] evs].
  cbn [fst] in *. apply IH. intros p Hin. apply Hp. simpl. right. exact Hin.
Qed.

(** X9: a report that repeats the values of the report before it (as
    every keepalive poll does while nothing happens) leaves the record
    as it is and emits no call-state event: the events of the second
    report are exactly the [indicator] events of its pairs, with the
    battery and signal events that go with them. The values are
    numbers, and the paired names are distinct. *)
Theorem repeated_report_is_quiet (mac : string) (values : list Js.num) (c : conn) :
  Forall (fun v => v <> Js.NaN) values ->
  NoDup (zip (indicatorMap c) values).*1 ->
  let c1 := (_processIndicatorValues mac values c).1 in
  _processIndicatorValues mac values c1
  = (c1, concat ((fun p => _emitIndicator mac p.1 p.2) <$> zip (indicatorMap c) values)).
Proof.
  intros Hv Hnd c1.
  pose proof (Hspec := valuesLoop_spec mac (indicatorMap c) values false c).
  assert (Hm : indicatorMap c1 = indicatorMap c).
  { subst c1. unfold _processIndicatorValues.
    destruct Hspec as [H1 _].
    destruct (indicatorValuesLoop mac (indicatorMap c) values false c) as [[b c'] evs].
    cbn [fst snd] in *. subst c'. reflexivity. }
  assert (Hi : forall p, p ∈ zip (indicatorMap c) values ->
                 p.1 = "__proto__" \/ indicators c1 !! p.1 = Some p.2).
  { intros [n v] Hin. apply list_elem_of_lookup in Hin as [i Hin].
    destruct (String.eqb_spec n "__proto__") as [->|Hne]; [left; reflexivity | right].
    subst c1. unfold _processIndicatorValues.
    destruct Hspec as [H1 _].
    destruct (indicatorValuesLoop mac (indicatorMap c) values false c) as [[b c'] evs].
    cbn [fst snd] in *. subst c'. simpl. eapply foldl_insert_in; eassumption. }
  clear Hspec.
  unfold _processIndicatorValues at 1. rewrite Hm.
  pose proof (valuesLoop_same mac (indicatorMap c) values false c1 Hv Hi) as Hs.
  pose proof (valuesLoop_spec mac (indicatorMap c) values false c1) as [_ He].
  destruct (indicatorValuesLoop mac (indicatorMap c) values false c1) as [[b c'] evs].
  cbn [fst snd] in *. injection Hs as -> ->. subst evs. rewrite app_nil_r. reflexivity.
Qed.

Lemma repeated_report_is_quiet_witness :
  let c := set_indicatorMap ["call"; "callsetup"; "battchg"] (newConn "AA:BB:CC:DD:EE:FF") in
  let values := [Js.Int 1; Js.Int 0; Js.Int 4] in
  let c1 := (_processIndicatorValues "AA:BB:CC:DD:EE:FF" values c).1 in
  _processIndicatorValues "AA:BB:CC:DD:EE:FF" values c1
  = (c1, concat ((fun p => _emitIndicator "AA:BB:CC:DD:EE:FF" p.1 p.2)
                   <$> zip (indicatorMap c) values)).
Proof.
  intros c values c1.
  apply (repeated_report_is_quiet "AA:BB:CC:DD:EE:FF" values c).
  - repeat constructor; discriminate.
  - apply (bool_decide_unpack _). vm_compute. reflexivity.
Defined.

End IndicatorReports.

(** ** Call control on a connection *)

Section Operations.
Import Hfp HfpInv.

Lemma keepClass_all cls s : Js.allChars cls (Js.keepClass cls s) = true.
Proof.
  induction s as [|c s IH]; simpl; [reflexivity|].
  destruct (cls c) eqn:E; simpl; [rewrite E|]; exact IH.
Qed.

Lemma keepClass_id cls s : Js.allChars cls s = true -> Js.keepClass cls s = s.
Proof.
  induction s as [|c s IH]; simpl; [reflexivity|].
  intros H. apply andb_true_iff in H as [-> Hs]. rewrite (IH Hs). reflexivity.
Qed.

(** The characters that [replace(/[^0-9+*#]/g, '')] keeps are the
    thirteen characters of the class. *)
Lemma isDialChar_spec ch :
  isDialChar ch = existsb (Ascii.eqb ch) (list_ascii_of_string "0123456789+*#").
Proof.
  destruct ch as [[] [] [] [] [] [] [] []]; vm_compute; reflexivity.
Qed.

Lemma keepClass_filter cls s :
  list_ascii_of_string (Js.keepClass cls s) = List.filter cls (list_ascii_of_string s).
Proof.
  induction s as [|c s IH]; simpl; [reflexivity|].
  destruct (cls c); simpl; rewrite IH; reflexivity.
Qed.

(** X10: the text [dial] hands to the channel is [ATD], the number
    reduced to digits, [+], [*] and [#], and a semicolon. The reduced
    number is exactly the characters of the argument that are among
    these thirteen, in their order: whatever the caller passes, no
    other character (a carriage return, a letter) reaches the gateway
    and no digit is lost. Reducing twice is reducing once, and a number
    that is already clean is sent as it is. *)
Theorem dial_command_is_clean (number : string) :
  exists clean,
    commandOf (dial number) = "ATD" +:+ clean +:+ ";" /\
    list_ascii_of_string clean
    = List.filter (fun ch => existsb (Ascii.eqb ch) (list_ascii_of_string "0123456789+*#"))
        (list_ascii_of_string number) /\
    Js.allChars isDialChar clean = true /\
    commandOf (dial clean) = commandOf (dial number) /\
    (Js.allChars isDialChar number = true -> clean = number).
Proof.
  exists (Js.keepClass isDialChar number). split; [reflexivity|]. split.
  { rewrite keepClass_filter. apply List.filter_ext. intros ch. apply isDialChar_spec. }
  split; [apply keepClass_all|]. split.
  - unfold commandOf. rewrite (keepClass_id _ _ (keepClass_all _ _)). reflexivity.
  - apply keepClass_id.
Qed.

(** X11: an operation on a registered connection always returns the
    promise with the next ticket and appends its command to the queue.
    On a live connection whose queue was empty and idle the command goes
    on the channel at once, terminated by a carriage return, and its
    time-out is armed; when the queue was not empty nothing is written
    and no timer is set: the command waits for its turn. No event is
    emitted in either case. *)
Theorem operation_enqueues (op : operation) (mac : string) (r : nat) (c : conn) (st : state) :
  connOf mac st = Some (r, c) ->
  let res := perform op mac st in
  let e := {| ticket := issued c; cmd := commandOf op |} in
  res.1 = Promised r (issued c) /\
  emitted res.2 = emitted st /\
  _connections res.2 = _connections st /\
  exists c', store res.2 !! r = Some c' /\
    _cmdQueue c' = _cmdQueue c ++ [e] /\
    issued c' = S (issued c) /\
    (_cmdQueue c = [] -> _cmdInFlight c = false -> socket_destroyed c = false ->
       socket_written c' = socket_written c ++ [commandOf op +:+ String "013" ""] /\
       _cmdInFlight c' = true /\
       timers res.2 = <[nextTimer st := AtTimeout r (issued c) (commandOf op)]> (timers st)) /\
    (_cmdQueue c <> [] ->
       socket_written c' = socket_written c /\
       _cmdInFlight c' = _cmdInFlight c /\
       timers res.2 = timers st).
Proof.
  intros Hc res e. subst res. unfold perform, _sendCommand. rewrite Hc.
  cbn [fst snd _cmdQueue set_issued set_cmdQueue].
  destruct (_cmdQueue c) as [|e0 q] eqn:Eq.
  - cbn [app length Nat.eqb]. unfold _sendNextCommand. rewrite store_putConn.
    cbn [_cmdQueue set_issued set_cmdQueue _cmdInFlight].
    destruct (_cmdInFlight c) eqn:Ef.
    + split; [reflexivity|]. split; [reflexivity|]. split; [reflexivity|].
      eexists. rewrite store_putConn. split; [reflexivity|]. simpl.
      split; [reflexivity|]. split; [reflexivity|]. split; [discriminate | congruence].
    + cbn [addTimer ticket cmd]. split; [reflexivity|]. split; [reflexivity|].
      split; [reflexivity|].
      eexists. rewrite store_putConn. split; [reflexivity|].
      unfold socketWrite. cbn [socket_destroyed set_pending set_cmdInFlight set_issued
                                 set_cmdQueue].
      destruct (socket_destroyed c) eqn:Ed; cbn;
        (split; [reflexivity|]); (split; [reflexivity|]); (split; [|congruence]);
        intros _ _ Hd; [discriminate | repeat split].
  - rewrite (proj2 (Nat.eqb_neq _ 1)) by (rewrite length_app; simpl; lia).
    split; [reflexivity|]. split; [reflexivity|]. split; [reflexivity|].
    eexists. rewrite store_putConn. split; [reflexivity|]. simpl.
    split; [reflexivity|]. split; [reflexivity|]. split; [discriminate|].
    intros _. repeat split.
Qed.

Lemma operation_enqueues_witness :
  let mac := "AA:BB:CC:DD:EE:FF" in
  let st := run [NewConnection "/org/bluez/hci0/dev_AA_BB_CC_DD_EE_FF"] init in
  exists c, connOf mac st = Some (0, c) /\
    let res := perform (dial "+49 170 1234") mac st in
    exists c', store res.2 !! 0 = Some c' /\
      _cmdQueue c' = _cmdQueue c ++ [{| ticket := issued c; cmd := "ATD+491701234;" |}] /\
      socket_written c' = socket_written c.
Proof.
  intros mac st. eexists. split; [vm_compute; reflexivity|].
  destruct (operation_enqueues (dial "+49 170 1234") mac 0 _ st ltac:(vm_compute; reflexivity))
    as (_ & _ & _ & c' & H1 & H2 & _ & _ & H3).
  exists c'. split; [exact H1|]. split; [exact H2|].
  apply H3. vm_compute. discriminate.
Defined.

End Operations.

(** ** Final responses and time-outs *)

Section Completion.
Import Hfp HfpInv.

(** What the engine's consistency says about a live connection with a
    command in flight. *)
Lemma in_flight_head acts r c :
  store (run acts init) !! r = Some c ->
  socket_destroyed c = false -> _cmdInFlight c = true ->
  exists e rest tid,
    _cmdQueue c = e :: rest /\ _pending c = Some (ticket e, tid) /\
    ticket e ∉ doneOf (history c).
Proof.
  intros Hc Hd Hf.
  pose proof (run_inv acts init init_inv) as HI.
  pose proof (inv_queue _ _ HI _ _ Hc) as (m & H1 & H2 & H3 & H4).
  rewrite Hd, Hf in H4. destruct H4 as (e & rest & tid & Hq & Hp & Hfl).
  exists e, rest, tid. split; [exact Hq|]. split; [exact Hp|].
  rewrite (done_iff_lt _ _ _ H1). rewrite Hq in H2. simpl in H2.
  injection H2 as H2 _. lia.
Qed.

(** X12: in every state the engine can reach, a final response on a
    live connection with a command in flight completes exactly the head
    of the queue: [OK] resolves its promise with [OK], a line starting
    with [ERROR] or [+CME ERROR] rejects it with that line; the command
    leaves the queue, its time-out is cleared, nothing is in flight any
    more, and the next send is scheduled rather than done at once. *)
Theorem final_response_completes_head (acts : list action) (mac line : string)
    (r : nat) (c : conn) :
  let st := run acts init in
  store st !! r = Some c ->
  socket_destroyed c = false -> _cmdInFlight c = true ->
  String.eqb line "OK" || Js.startsWith line "ERROR" || Js.startsWith line "+CME ERROR" = true ->
  let st' := _processLine mac line r st in
  exists e rest tid c',
    _cmdQueue c = e :: rest /\ _pending c = Some (ticket e, tid) /\
    store st' !! r = Some c' /\
    history c' = history c ++
      [HDone (ticket e) (if String.eqb line "OK" then Resolved "OK" else Rejected line)] /\
    _cmdQueue c' = rest /\
    _cmdInFlight c' = false /\
    _pending c' = None /\
    socket_written c' = socket_written c /\
    timers st' = delete tid (timers st) /\
    immediates st' = immediates st ++ [r].
Proof.
  intros st Hc Hd Hf Hl st'.
  destruct (in_flight_head acts r c Hc Hd Hf) as (e & rest & tid & Hq & Hp & Hnd).
  exists e, rest, tid.
  assert (Hst : st' = set_immediates (immediates st ++ [r])
            (putConn r
               (afterResponse (ticket e)
                  (if String.eqb line "OK" then Resolved "OK" else Rejected line) c)
               (clearTimer tid st))).
  { subst st'. unfold _processLine. rewrite Hc.
    destruct (String.eqb line "OK") eqn:E1.
    - rewrite Hp. apply complete_state, Hc.
    - cbn [orb] in Hl. rewrite Hl, Hp. apply complete_state, Hc. }
  rewrite Hst. eexists. split; [exact Hq|]. split; [exact Hp|].
  cbn [store set_immediates putConn set_store]. rewrite lookup_insert_eq.
  split; [reflexivity|]. unfold afterResponse.
  rewrite settle_fresh by exact Hnd. cbn. rewrite Hq. repeat split.
Qed.

Lemma final_response_completes_head_witness :
  let acts := [NewConnection "/org/bluez/hci0/dev_AA_BB_CC_DD_EE_FF";
               Operation hangup "AA:BB:CC:DD:EE:FF"] in
  let st := run acts init in
  let st' := _processLine "AA:BB:CC:DD:EE:FF" "+CME ERROR: 30" 0 st in
  exists c, store st !! 0 = Some c /\
  exists e rest tid c',
    _cmdQueue c = e :: rest /\ _pending c = Some (ticket e, tid) /\
    store st' !! 0 = Some c' /\
    history c' = history c ++ [HDone (ticket e) (Rejected "+CME ERROR: 30")] /\
    _cmdQueue c' = rest /\
    _cmdInFlight c' = false /\
    _pending c' = None /\
    socket_written c' = socket_written c /\
    timers st' = delete tid (timers st) /\
    immediates st' = immediates st ++ [0].
Proof.
  intros acts st st'. eexists. split; [vm_compute; reflexivity|].
  apply (final_response_completes_head acts "AA:BB:CC:DD:EE:FF" "+CME ERROR: 30" 0);
    vm_compute; reflexivity.
Defined.

(** X13: in every state the engine can reach, when the time-out of a
    command fires on a live connection, the promise of that command is
    rejected with [AT command timeout: <cmd>], the command leaves the
    queue, and the next command, if there is one, is written to the
    channel in the same turn and is in flight; with nothing queued the
    connection is idle. *)
Theorem timeout_rejects_and_advances (acts : list action) (tid r t : nat) (text : string)
    (c : conn) :
  let st := run acts init in
  timers st !! tid = Some (AtTimeout r t text) ->
  store st !! r = Some c ->
  socket_destroyed c = false ->
  let st' := step (TimerFires tid) st in
  exists e rest c',
    _cmdQueue c = e :: rest /\ ticket e = t /\
    store st' !! r = Some c' /\
    _cmdQueue c' = rest /\
    timers st' !! tid = None /\
    match rest with
    | [] =>
        history c' = history c ++ [HDone t (Rejected ("AT command timeout: " +:+ text))] /\
        _cmdInFlight c' = false /\
        socket_written c' = socket_written c
    | e2 :: _ =>
        history c' = history c ++ [HDone t (Rejected ("AT command timeout: " +:+ text));
                                   HSent (ticket e2)] /\
        _cmdInFlight c' = true /\
        socket_written c' = socket_written c ++ [cmd e2 +:+ String "013" ""]
    end.
Proof.
  intros st Ht Hc Hd st'.
  pose proof (run_inv acts init init_inv) as HI. fold st in HI.
  destruct (inv_timeout _ _ HI _ _ _ _ Ht) as (c0 & Hc0 & _ & Hp & Hfl).
  rewrite Hc in Hc0. injection Hc0 as <-. specialize (Hfl Hd).
  destruct (in_flight_head acts r c Hc Hd Hfl) as (e & rest & tid' & Hq & Hp' & Hnd).
  rewrite Hp in Hp'. injection Hp' as Ht' <-.
  pose proof (inv_tfresh _ _ HI _ _ Ht) as Hfresh.
  exists e, rest. subst st'. cbn [step]. rewrite Ht.
  unfold onAtTimeout. cbn [store clearTimer set_timers]. rewrite Hc.
  rewrite settle_fresh by (cbn; rewrite Ht'; exact Hnd).
  unfold _sendNextCommand. rewrite store_putConn.
  rewrite Hq.
  cbn [_cmdQueue set_history set_cmdInFlight set_cmdQueue _cmdInFlight tail].
  destruct rest as [|e2 rest'].
  - eexists. split; [reflexivity|]. split; [congruence|].
    rewrite store_putConn. split; [reflexivity|]. cbn.
    split; [reflexivity|]. split; [apply lookup_delete_eq|]. repeat split.
  - cbn [addTimer]. eexists. split; [reflexivity|]. split; [congruence|].
    rewrite store_putConn. split; [reflexivity|].
    unfold socketWrite. cbn. rewrite Hd. cbn.
    split; [reflexivity|]. split.
    { rewrite lookup_insert_ne by lia. apply lookup_delete_eq. }
    rewrite <- app_assoc. repeat split.
Qed.

Lemma timeout_rejects_and_advances_witness :
  let acts := [NewConnection "/org/bluez/hci0/dev_AA_BB_CC_DD_EE_FF";
               Operation redial "AA:BB:CC:DD:EE:FF"] in
  let st := run acts init in
  let st' := step (TimerFires 0) st in
  exists c, store st !! 0 = Some c /\
  exists e rest c',
    _cmdQueue c = e :: rest /\ ticket e = 0 /\
    store st' !! 0 = Some c' /\
    _cmdQueue c' = rest /\
    timers st' !! 0 = None /\
    match rest with
    | [] =>
        history c' = history c ++ [HDone 0 (Rejected ("AT command timeout: " +:+ "AT+BRSF=183"))] /\
        _cmdInFlight c' = false /\
        socket_written c' = socket_written c
    | e2 :: _ =>
        history c' = history c ++ [HDone 0 (Rejected ("AT command timeout: " +:+ "AT+BRSF=183"));
                                   HSent (ticket e2)] /\
        _cmdInFlight c' = true /\
        socket_written c' = socket_written c ++ [cmd e2 +:+ String "013" ""]
    end.
Proof.
  intros acts st st'. eexists. split; [vm_compute; reflexivity|].
  apply (timeout_rejects_and_advances acts 0 0 0 "AT+BRSF=183"); vm_compute; reflexivity.
Defined.

End Completion.

(** ** The receive buffer *)

Section ReceiveBuffer.
Import Hfp HfpInv HfpFrame.

(** *** Splitting a text that arrives in two pieces *)

Lemma splitLines_ne s : Js.splitLines s <> [].
Proof.
  destruct s as [|c r]; cbn [Js.splitLines]; [discriminate|].
  destruct (Ascii.eqb c "013").
  - destruct r as [|c' r']; [discriminate|]. destruct (Ascii.eqb c' "010"); discriminate.
  - destruct (Js.splitLines r); discriminate.
Qed.

Lemma removelast_cons {A} (a : A) l : l <> [] -> removelast (a :: l) = a :: removelast l.
Proof. destruct l; [congruence | reflexivity]. Qed.

Lemma last_cons {A} (a d : A) l : l <> [] -> List.last (a :: l) d = List.last l d.
Proof. destruct l; [congruence | reflexivity]. Qed.

Lemma last_app_ne {A} (l l' : list A) d : l' <> [] -> List.last (l ++ l') d = List.last l' d.
Proof.
  intros H. induction l as [|a l IH]; [reflexivity|].
  change ((a :: l) ++ l') with (a :: (l ++ l')).
  rewrite last_cons by (destruct l; [exact H | discriminate]). exact IH.
Qed.

Lemma splitLines_plain c r :
  Ascii.eqb c "013" = false ->
  Js.splitLines (String c r)
  = match Js.splitLines r with
    | [] => [String c ""]
    | h :: t => String c h :: t
    end.
Proof. intros H. cbn [Js.splitLines]. rewrite H. reflexivity. Qed.

Lemma splitLines_CRLF c r :
  Ascii.eqb c "013" = true ->
  Js.splitLines (String c (String "010" r)) = "" :: Js.splitLines r.
Proof.
  intros H.
  change (Js.splitLines (String c (String "010" r)))
    with (if Ascii.eqb c "013" then "" :: Js.splitLines r
          else match Js.splitLines (String "010" r) with
               | [] => [String c ""]
               | h :: t => String c h :: t
               end).
  rewrite H. reflexivity.
Qed.

Lemma startsWith_LF_cons c r :
  Js.startsWith (String c r) (String "010" "") = Ascii.eqb "010" c.
Proof. cbn [Js.startsWith]. apply andb_true_r. Qed.

Lemma splitLines_CR c r :
  Ascii.eqb c "013" = true ->
  Js.startsWith r (String "010" "") = false ->
  Js.splitLines (String c r) = "" :: Js.splitLines r.
Proof.
  intros H Hr. destruct r as [|c' r'].
  - cbn. rewrite H. reflexivity.
  - rewrite startsWith_LF_cons, Ascii.eqb_sym in Hr.
    change (Js.splitLines (String c (String c' r')))
      with (if Ascii.eqb c "013"
            then if Ascii.eqb c' "010" then "" :: Js.splitLines r'
                 else "" :: Js.splitLines (String c' r')
            else match Js.splitLines (String c' r') with
                 | [] => [String c ""]
                 | h :: t => String c h :: t
                 end).
    rewrite H, Hr. reflexivity.
Qed.

Lemma startsWith_LF_app c r y :
  Js.startsWith (String c r +:+ y) (String "010" "") = Ascii.eqb "010" c.
Proof. apply startsWith_LF_cons. Qed.

Lemma splitLines_app n : forall x y,
  String.length x <= n ->
  Js.startsWith y (String "010" "") = false ->
  Js.splitLines (x +:+ y)
  = removelast (Js.splitLines x) ++ Js.splitLines (List.last (Js.splitLines x) "" +:+ y).
Proof.
  induction n as [|n IH]; intros x y Hlen Hy.
  { destruct x; [reflexivity | simpl in Hlen; lia]. }
  destruct x as [|c x']; [reflexivity|].
  simpl in Hlen. assert (Hx' : String.length x' <= n) by lia.
  destruct (Ascii.eqb c "013") eqn:Ec.
  - destruct x' as [|c' r'].
    + change (String c "" +:+ y) with (String c y).
      rewrite (splitLines_CR c y Ec Hy), (splitLines_CR c "" Ec eq_refl). reflexivity.
    + destruct (Ascii.eqb "010" c') eqn:El.
      * apply Ascii.eqb_eq in El. subst c'.
        change (String c (String "010" r') +:+ y) with (String c (String "010" (r' +:+ y))).
        rewrite !splitLines_CRLF by exact Ec.
        rewrite removelast_cons, last_cons by apply splitLines_ne.
        simpl in Hx'. rewrite (IH r' y) by (assumption || lia). reflexivity.
      * change (String c (String c' r') +:+ y) with (String c (String c' r' +:+ y)).
        rewrite (splitLines_CR c (String c' r' +:+ y)) by (exact Ec || (rewrite startsWith_LF_app; exact El)).
        rewrite (splitLines_CR c (String c' r')) by (exact Ec || (rewrite startsWith_LF_cons; exact El)).
        rewrite removelast_cons, last_cons by apply splitLines_ne.
        rewrite (IH (String c' r') y) by assumption. reflexivity.
  - change (String c x' +:+ y) with (String c (x' +:+ y)).
    rewrite !splitLines_plain by exact Ec.
    rewrite (IH x' y) by assumption.
    destruct (Js.splitLines x') as [|h t] eqn:Ex; [destruct (splitLines_ne _ Ex)|].
    destruct t as [|h' t'].
    + cbn [removelast List.last app].
      change (String c h +:+ y) with (String c (h +:+ y)).
      rewrite splitLines_plain by exact Ec. reflexivity.
    + rewrite !removelast_cons, !last_cons by discriminate. reflexivity.
Qed.

Lemma last_splitLines_noCR n : forall s,
  String.length s <= n -> noCR (List.last (Js.splitLines s) "") = true.
Proof.
  induction n as [|n IH]; intros s Hlen.
  { destruct s; [reflexivity | simpl in Hlen; lia]. }
  destruct s as [|c r]; [reflexivity|]. simpl in Hlen.
  destruct (Ascii.eqb c "013") eqn:Ec.
  - destruct r as [|c' r'].
    + cbn. rewrite Ec. reflexivity.
    + destruct (Ascii.eqb "010" c') eqn:El.
      * apply Ascii.eqb_eq in El. subst c'. rewrite splitLines_CRLF by exact Ec.
        rewrite last_cons by apply splitLines_ne. apply IH. simpl in *; lia.
      * rewrite splitLines_CR by (exact Ec || (rewrite startsWith_LF_cons; exact El)).
        rewrite last_cons by apply splitLines_ne. apply IH. simpl in *; lia.
  - rewrite splitLines_plain by exact Ec.
    specialize (IH r ltac:(lia)).
    destruct (Js.splitLines r) as [|h t] eqn:Ex; [destruct (splitLines_ne _ Ex)|].
    destruct t as [|h' t'].
    + cbn [List.last] in *. unfold noCR in *. cbn [Js.allChars]. rewrite Ec, IH. reflexivity.
    + rewrite last_cons by discriminate. rewrite last_cons in IH by discriminate. exact IH.
Qed.

Lemma splitLines_noCR s : noCR s = true -> Js.splitLines s = [s].
Proof.
  induction s as [|c r IH]; [reflexivity|].
  unfold noCR. cbn [Js.allChars]. intros H. apply andb_true_iff in H as [Hc Hr].
  apply negb_true_iff in Hc. rewrite splitLines_plain by exact Hc.
  rewrite (IH Hr). reflexivity.
Qed.

(** *** The lines are processed without looking at the buffer *)

Lemma withBuffer_put b r c st :
  store st !! r = Some c -> withBuffer b r st = putConn r (set_buffer b c) st.
Proof. intros H. unfold withBuffer. rewrite H. reflexivity. Qed.

Lemma withBuffer_none b r st : store st !! r = None -> withBuffer b r st = st.
Proof. intros H. unfold withBuffer. rewrite H. reflexivity. Qed.

Lemma put_put r c c' st : putConn r c (putConn r c' st) = putConn r c st.
Proof. unfold putConn, set_store. cbn. rewrite insert_insert_eq. reflexivity. Qed.

Lemma withBuffer_twice x y r st : withBuffer x r (withBuffer y r st) = withBuffer x r st.
Proof.
  destruct (store st !! r) as [c|] eqn:Hc.
  - rewrite (withBuffer_put y r c st Hc).
    rewrite (withBuffer_put x r (set_buffer y c)) by apply store_putConn.
    rewrite (withBuffer_put x r c st Hc), put_put. reflexivity.
  - rewrite (withBuffer_none y r st Hc). reflexivity.
Qed.

Lemma settle_buffer t o b c : settle t o (set_buffer b c) = set_buffer b (settle t o c).
Proof. unfold settle. cbn [history set_buffer]. destruct (bool_decide _); reflexivity. Qed.

Lemma socketWrite_buffer d b c :
  socketWrite d (set_buffer b c) = set_buffer b (socketWrite d c).
Proof. unfold socketWrite. cbn [socket_destroyed set_buffer]. destruct (socket_destroyed c); reflexivity. Qed.

Lemma valuesLoop_buffer mac names x : forall values b c,
  indicatorValuesLoop mac names values b (set_buffer x c)
  = let '(f, c', evs) := indicatorValuesLoop mac names values b c in
    (f, set_buffer x c', evs).
Proof.
  induction names as [|n names IH]; intros values b c; [reflexivity|].
  destruct values as [|v values]; [reflexivity|].
  cbn [indicatorValuesLoop]. cbn [indicators set_buffer].
  change (set_indicators ?m (set_buffer x c)) with (set_buffer x (set_indicators m c)).
  rewrite IH.
  destruct (indicatorValuesLoop mac names values _ (set_indicators _ c)) as [[f c'] evs].
  reflexivity.
Qed.

Lemma unsolicited_buffer mac line x c :
  unsolicited mac line (set_buffer x c)
  = (set_buffer x (unsolicited mac line c).1, (unsolicited mac line c).2).
Proof.
  unfold unsolicited.
  repeat match goal with
         | |- context [if ?b then _ else _] => destruct b
         end; try reflexivity.
  - unfold _processIndicatorValues. cbn [indicatorMap set_buffer].
    rewrite valuesLoop_buffer.
    destruct (indicatorValuesLoop _ _ _ _ c) as [[f c'] evs]. reflexivity.
  - unfold _processIndicatorEvent, indicatorName. cbn [indicatorMap set_buffer].
    destruct (cievIndex line) as [z|]; [|reflexivity].
    destruct (1 <=? z)%Z; [|reflexivity].
    destruct (indicatorMap c !! Z.to_nat (z - 1)) as [[|a s]|]; reflexivity.
  - destruct (Js.search clipAt line) as [[? ?]|]; reflexivity.
  - destruct (Js.search ccwaAt line); reflexivity.
  - destruct (Js.search quoted line) as [[? ?]|]; reflexivity.
  - rewrite socketWrite_buffer. reflexivity.
Qed.

Lemma afterResponse_buffer t o x c :
  afterResponse t o (set_buffer x c) = set_buffer x (afterResponse t o c).
Proof.
  unfold afterResponse. cbn [_cmdQueue set_buffer].
  change (set_cmdInFlight false (set_cmdQueue ?q (set_buffer x c)))
    with (set_buffer x (set_cmdInFlight false (set_cmdQueue q c))).
  rewrite settle_buffer. reflexivity.
Qed.

Lemma processLine_buffer mac line x r st :
  _processLine mac line r (withBuffer x r st) = withBuffer x r (_processLine mac line r st).
Proof.
  destruct (store st !! r) as [c|] eqn:Hc.
  2:{ rewrite withBuffer_none by exact Hc. unfold _processLine. rewrite Hc.
      rewrite withBuffer_none by exact Hc. reflexivity. }
  rewrite (withBuffer_put x r c st Hc).
  assert (Hb : store (putConn r (set_buffer x c) st) !! r = Some (set_buffer x c))
    by apply store_putConn.
  assert (G : forall t tid o,
    set_immediates (immediates (putConn r (set_buffer x c) st) ++ [r])
      (putConn r (afterResponse t o (set_buffer x c))
         (clearTimer tid (putConn r (set_buffer x c) st)))
    = withBuffer x r
        (set_immediates (immediates st ++ [r])
           (putConn r (afterResponse t o c) (clearTimer tid st)))).
  { intros t tid o. rewrite afterResponse_buffer.
    rewrite (withBuffer_put x r (afterResponse t o c)) by apply lookup_insert_eq.
    unfold putConn, set_store, set_immediates, clearTimer, set_timers. cbn.
    rewrite !insert_insert_eq. reflexivity. }
  unfold _processLine. rewrite Hb, Hc. cbn [_pending set_buffer].
  destruct (String.eqb line "OK").
  { destruct (_pending c) as [[t tid]|].
    - rewrite (complete_state r _ t tid _ _ Hb), (complete_state r _ t tid _ _ Hc). apply G.
    - symmetry. apply withBuffer_put, Hc. }
  destruct (Js.startsWith line "ERROR" || Js.startsWith line "+CME ERROR").
  { destruct (_pending c) as [[t tid]|].
    - rewrite (complete_state r _ t tid _ _ Hb), (complete_state r _ t tid _ _ Hc). apply G.
    - symmetry. apply withBuffer_put, Hc. }
  rewrite unsolicited_buffer. destruct (unsolicited mac line c) as [c1 evs]. cbn [fst snd].
  rewrite (withBuffer_put x r c1) by apply lookup_insert_eq.
  unfold emit, putConn, set_store, set_emitted. cbn.
  rewrite !insert_insert_eq. reflexivity.
Qed.

Lemma processLines_buffer mac lines x r : forall st,
  processLines mac lines r (withBuffer x r st) = withBuffer x r (processLines mac lines r st).
Proof.
  induction lines as [|l lines IH]; intros st; [reflexivity|].
  cbn [processLines]. destruct (Js.trim l) as [|a s]; [apply IH|].
  rewrite processLine_buffer. apply IH.
Qed.

Lemma processLines_app mac l1 l2 r st :
  processLines mac (l1 ++ l2) r st = processLines mac l2 r (processLines mac l1 r st).
Proof.
  revert st. induction l1 as [|l l1 IH]; intros st; [reflexivity|].
  cbn [app processLines]. apply IH.
Qed.

(** A line changes neither the registrations nor the presence of the
    connection object. *)
Lemma processLine_keeps mac line r st :
  _connections (_processLine mac line r st) = _connections st /\
  (is_Some (store st !! r) -> is_Some (store (_processLine mac line r st) !! r)).
Proof.
  unfold _processLine. destruct (store st !! r) as [c|] eqn:Hc; [|rewrite Hc; auto].
  assert (G : forall t tid o,
    _connections (set_immediates (immediates st ++ [r])
      (putConn r (afterResponse t o c) (clearTimer tid st))) = _connections st /\
    (is_Some (Some c) -> is_Some (store (set_immediates (immediates st ++ [r])
      (putConn r (afterResponse t o c) (clearTimer tid st))) !! r))).
  { intros. split; [reflexivity|]. intros _. cbn. rewrite lookup_insert_eq. eauto. }
  destruct (String.eqb line "OK").
  { destruct (_pending c) as [[t tid]|]; [|rewrite Hc; auto].
    rewrite (complete_state r _ t tid _ _ Hc). apply G. }
  destruct (Js.startsWith line "ERROR" || Js.startsWith line "+CME ERROR").
  { destruct (_pending c) as [[t tid]|]; [|rewrite Hc; auto].
    rewrite (complete_state r _ t tid _ _ Hc). apply G. }
  destruct (unsolicited mac line c) as [c1 evs].
  split; [reflexivity|]. intros _. cbn. rewrite lookup_insert_eq. eauto.
Qed.

Lemma processLines_keeps mac lines r : forall st,
  _connections (processLines mac lines r st) = _connections st /\
  (is_Some (store st !! r) -> is_Some (store (processLines mac lines r st) !! r)).
Proof.
  induction lines as [|l lines IH]; intros st; [auto|].
  cbn [processLines]. destruct (Js.trim l) as [|a s]; [apply IH|].
  destruct (IH (_processLine mac (String a s) r st)) as [H1 H2].
  destruct (processLine_keeps mac (String a s) r st) as [H3 H4].
  split; [congruence | auto].
Qed.

Lemma onData_unfold mac data r c st :
  connOf mac st = Some (r, c) ->
  _onData mac data st
  = withBuffer (List.last (Js.splitLines (buffer c +:+ data)) "") r
      (processLines mac (removelast (Js.splitLines (buffer c +:+ data))) r st).
Proof.
  intros Hc. unfold _onData. rewrite Hc.
  assert (Hs : store st !! r = Some c).
  { unfold connOf in Hc. destruct (_connections st !! _normalise mac) as [r0|]; [|discriminate].
    simpl in Hc. destruct (store st !! r0) eqn:E; [|discriminate].
    simpl in Hc. injection Hc as -> ->. exact E. }
  rewrite <- (withBuffer_put _ r c st Hs). apply processLines_buffer.
Qed.

(** X14: a text that reaches the channel in two pieces is processed as
    if it had come in one: the same lines in the same order, the same
    events, the same completions, and the same incomplete rest in the
    buffer. The second piece must not start with a line feed (a line
    end whose carriage return closed the first piece). *)
Theorem data_in_two_pieces (mac a b : string) (st : state) :
  Js.startsWith b (String "010" "") = false ->
  _onData mac b (_onData mac a st) = _onData mac (a +:+ b) st.
Proof.
  intros Hb. destruct (connOf mac st) as [[r c]|] eqn:Hc.
  2:{ unfold _onData. rewrite Hc, Hc. reflexivity. }
  destruct (connOf_inv _ _ _ _ Hc) as [Hk Hs].
  rewrite (onData_unfold mac (a +:+ b) r c st Hc).
  rewrite (onData_unfold mac a r c st Hc).
  set (La := Js.splitLines (buffer c +:+ a)).
  set (st1 := processLines mac (removelast La) r st).
  destruct (processLines_keeps mac (removelast La) r st) as [Hk1 Hs1]. fold st1 in Hk1, Hs1.
  destruct (Hs1 ltac:(eauto)) as [c1 Hc1].
  assert (Hc' : connOf mac (withBuffer (List.last La "") r st1)
                = Some (r, set_buffer (List.last La "") c1)).
  { rewrite (withBuffer_put _ r c1 st1 Hc1). apply connOf_Some.
    - cbn. rewrite Hk1. exact Hk.
    - apply store_putConn. }
  rewrite (onData_unfold mac b r _ _ Hc'). cbn [buffer set_buffer].
  rewrite processLines_buffer, withBuffer_twice.
  rewrite <- append_assoc_str.
  rewrite (splitLines_app (String.length (buffer c +:+ a)) (buffer c +:+ a) b) by (lia || exact Hb).
  fold La. set (Lb := Js.splitLines (List.last La "" +:+ b)).
  assert (Hne : Lb <> []) by apply splitLines_ne.
  rewrite removelast_app by exact Hne. rewrite last_app_ne by exact Hne.
  rewrite processLines_app. reflexivity.
Qed.

Lemma data_in_two_pieces_witness :
  let mac := "AA:BB:CC:DD:EE:FF" in
  let st := run [NewConnection "/org/bluez/hci0/dev_AA_BB_CC_DD_EE_FF"] init in
  _onData mac ("71" +:+ String "013" (String "010" ("OK" +:+ String "013" "")))
    (_onData mac "+BRSF: 8" st)
  = _onData mac ("+BRSF: 8" +:+ ("71" +:+ String "013" (String "010" ("OK" +:+ String "013" "")))) st.
Proof.
  intros mac st. apply data_in_two_pieces. reflexivity.
Defined.

(** X15: after [_onData] the buffer of the connection holds the
    incomplete last line and nothing else: it contains no carriage
    return. Data without a carriage return, added to such a buffer, is
    only appended: no line is processed, nothing is emitted or
    completed. *)
Theorem buffer_holds_incomplete_line (mac data : string) (r : nat) (c : conn) (st : state) :
  connOf mac st = Some (r, c) ->
  (exists c', connOf mac (_onData mac data st) = Some (r, c') /\ noCR (buffer c') = true) /\
  (noCR (buffer c +:+ data) = true ->
   _onData mac data st = putConn r (set_buffer (buffer c +:+ data) c) st).
Proof.
  intros Hc. destruct (connOf_inv _ _ _ _ Hc) as [Hk Hs].
  rewrite (onData_unfold mac data r c st Hc). split.
  - set (L := Js.splitLines (buffer c +:+ data)).
    destruct (processLines_keeps mac (removelast L) r st) as [Hk1 Hs1].
    destruct (Hs1 ltac:(eauto)) as [c1 Hc1].
    exists (set_buffer (List.last L "") c1). split.
    + rewrite (withBuffer_put _ r c1 _ Hc1). apply connOf_Some.
      * cbn. rewrite Hk1. exact Hk.
      * apply store_putConn.
    + cbn [buffer set_buffer]. eapply last_splitLines_noCR. reflexivity.
  - intros Hn. rewrite (splitLines_noCR _ Hn). cbn [removelast List.last processLines].
    apply withBuffer_put, Hs.
Qed.

Lemma buffer_holds_incomplete_line_witness :
  let mac := "AA:BB:CC:DD:EE:FF" in
  let st := run [NewConnection "/org/bluez/hci0/dev_AA_BB_CC_DD_EE_FF"] init in
  exists c, connOf mac st = Some (0, c) /\
    _onData mac "+CIEV: 2," st = putConn 0 (set_buffer (buffer c +:+ "+CIEV: 2,") c) st.
Proof.
  intros mac st. eexists. split; [vm_compute; reflexivity|].
  apply (buffer_holds_incomplete_line mac "+CIEV: 2," 0 _ st); vm_compute; reflexivity.
Defined.

End ReceiveBuffer.

(** ** Registration *)

Section Registration.
Import Hfp HfpProfile.
Variable bus : list busCall -> busCall -> busReply.

Lemma closeFold_fields l : forall st,
  let st' := foldl closeOne st l in
  emitted st' = emitted st /\ timers st' = timers st /\ immediates st' = immediates st /\
  _connections st' = foldl (fun m kr => delete kr.1 m) (_connections st) l /\
  (forall r, store st' !! r
             = (if bool_decide (r ∈ l.*2) then set_destroyed true else id) <$> store st !! r).
Proof.
  induction l as [|[k r0] l IH]; intros st; cbn [foldl].
  - repeat split. intros r. destruct (store st !! r); reflexivity.
  - rewrite fmap_cons. cbn [snd fst].
    destruct (IH (closeOne st (k, r0))) as (H1 & H2 & H3 & H4 & H5).
    rewrite H1, H2, H3, H4. clear H1 H2 H3 H4.
    assert (Hs : forall r, store (closeOne st (k, r0)) !! r
                 = (if bool_decide (r = r0) then set_destroyed true else id) <$> store st !! r).
    { intros r. unfold closeOne. cbn [fst snd store set_connections].
      destruct (store st !! r0) as [c0|] eqn:E0.
      - cbn. destruct (decide (r = r0)) as [->|Hne].
        + rewrite lookup_insert_eq, E0, bool_decide_eq_true_2 by reflexivity. reflexivity.
        + rewrite lookup_insert_ne by congruence.
          rewrite bool_decide_eq_false_2 by exact Hne.
          destruct (store st !! r); reflexivity.
      - destruct (decide (r = r0)) as [->|Hne].
        + rewrite E0. reflexivity.
        + rewrite bool_decide_eq_false_2 by exact Hne.
          destruct (store st !! r); reflexivity. }
    split; [unfold closeOne; cbn; destruct (store st !! r0); reflexivity|].
    split; [unfold closeOne; cbn; destruct (store st !! r0); reflexivity|].
    split; [unfold closeOne; cbn; destruct (store st !! r0); reflexivity|].
    split; [reflexivity|].
    intros r. rewrite H5, Hs.
    destruct (store st !! r) as [c|]; [|reflexivity]. cbn [fmap option_fmap option_map].
    destruct (decide (r = r0)) as [->|Hne].
    + rewrite (bool_decide_eq_true_2 (r0 = r0)) by reflexivity.
      rewrite (bool_decide_eq_true_2 (r0 ∈ r0 :: l.*2)) by left.
      destruct (bool_decide (r0 ∈ l.*2)); reflexivity.
    + rewrite (bool_decide_eq_false_2 (r = r0)) by exact Hne.
      destruct (decide (r ∈ l.*2)) as [Hin|Hin].
      * rewrite !bool_decide_eq_true_2; [reflexivity | right; exact Hin | exact Hin].
      * rewrite !bool_decide_eq_false_2; [reflexivity | | exact Hin].
        intros H. apply elem_of_cons in H as [?|?]; contradiction.
Qed.

Lemma delete_all (l : list (string * nat)) : forall (m : gmap string nat) k,
  foldl (fun m kr => delete kr.1 m) m l !! k
  = if bool_decide (k ∈ l.*1) then None else m !! k.
Proof.
  induction l as [|[k0 r0] l IH]; intros m k; cbn [foldl]; [reflexivity|].
  rewrite fmap_cons. cbn [fst]. rewrite IH. destruct (decide (k ∈ l.*1)) as [Hin|Hin].
  - rewrite !bool_decide_eq_true_2; [reflexivity | right; exact Hin | exact Hin].
  - rewrite (bool_decide_eq_false_2 _ Hin).
    destruct (decide (k = k0)) as [->|Hne].
    + rewrite bool_decide_eq_true_2 by left. apply lookup_delete_eq.
    + rewrite bool_decide_eq_false_2.
      * apply lookup_delete_ne. congruence.
      * intros H. apply elem_of_cons in H as [?|?]; contradiction.
Qed.

(** X16: [unregister] closes every registered connection without a
    word: the channels are destroyed and the registrations deleted, but
    no [disconnected] event is emitted, no queued command is rejected
    and no timer is cleared. The [close] event a destroyed channel then
    raises finds no record, so it emits nothing either. [unregister]
    never throws, whatever the bus answers, and leaves the profile
    unregistered. *)
Theorem unregister_closes_silently (p : profile) :
  let res := unregister bus p in
  let st := engine p in
  let st' := engine res.2 in
  res.1 = Returned /\
  _registered res.2 = false /\
  _connections st' = ∅ /\
  emitted st' = emitted st /\
  timers st' = timers st /\
  (forall k r c, _connections st !! k = Some r -> store st !! r = Some c ->
     store st' !! r = Some (set_destroyed true c)) /\
  (forall mac, isConnected mac st' = false /\ _cleanup mac st' = st').
Proof.
  intros res st st'.
  assert (Hall : res.1 = Returned /\ _registered res.2 = false /\ st' = closeAll st).
  { subst res st st'. unfold unregister, call. cbn [set_engine _registered].
    destruct (_registered p) eqn:Er; cbn; [destruct (bus _ GetProxyObject); cbn|]; auto. }
  destruct Hall as (Hr1 & Hr2 & He).
  destruct (closeFold_fields (map_to_list (_connections st)) st) as (H1 & H2 & _ & H4 & H5).
  fold (closeAll st) in H1, H2, H4, H5. rewrite <- He in H1, H2, H4, H5.
  assert (Hc : _connections st' = ∅).
  { apply map_eq. intros k. rewrite H4, delete_all, lookup_empty.
    destruct (decide (k ∈ (map_to_list (_connections st)).*1)) as [Hin|Hin].
    - rewrite bool_decide_eq_true_2 by exact Hin. reflexivity.
    - rewrite bool_decide_eq_false_2 by exact Hin.
      destruct (_connections st !! k) as [r|] eqn:E; [|reflexivity].
      exfalso. apply Hin. apply list_elem_of_fmap. exists (k, r).
      split; [reflexivity|]. apply elem_of_map_to_list, E. }
  split; [exact Hr1|]. split; [exact Hr2|].
  split; [exact Hc|]. split; [exact H1|]. split; [exact H2|]. split.
  - intros k r c Hk Hr. rewrite H5, Hr. cbn.
    rewrite bool_decide_eq_true_2; [reflexivity|].
    apply list_elem_of_fmap. exists (k, r). split; [reflexivity|].
    apply elem_of_map_to_list, Hk.
  - intros mac. unfold isConnected, _cleanup, connOf. rewrite Hc, lookup_empty. auto.
Qed.

Lemma registerCalls_app l1 l2 :
  registerCalls (l1 ++ l2) = registerCalls l1 + registerCalls l2.
Proof. unfold registerCalls. rewrite List.filter_app, length_app. reflexivity. Qed.

(** The test of [register] on the message of the first failure. *)
Lemma alreadyExists_spec e :
  alreadyExists e = true <->
  exists s, e = Some s /\
    (Js.includes s "AlreadyExists" = true \/ Js.includes s "already registered" = true).
Proof.
  unfold alreadyExists. destruct e as [s|].
  - split.
    + intros H. apply andb_true_iff in H as [_ H]. apply orb_true_iff in H. eauto.
    + intros (s' & [= <-] & H). apply andb_true_iff. split.
      * destruct s; [|reflexivity]. destruct H as [H|H]; discriminate.
      * apply orb_true_iff, H.
  - split; [discriminate|]. intros (s & H & _). discriminate.
Qed.

(** X17: [register] signs the profile up at most twice. It asks a second
    time exactly when the export and the proxy succeeded and the first
    sign-up was refused with a message that contains [AlreadyExists] or
    [already registered]; the second sign-up then follows an
    unregistration, and its answer decides how [register] ends. A first
    sign-up refused for any other reason is thrown as it is, with no
    further call. Starting unregistered, [register] returns normally
    exactly when it leaves the profile registered, and then its last
    call is a sign-up. The engine is not touched. *)
Theorem register_signs_up_at_most_twice (p : profile) :
  _registered p = false ->
  let res := register bus p in
  let asked := calls p ++ [Export; GetProxyObject] in
  (res.1 = Returned <-> _registered res.2 = true) /\
  registerCalls (calls res.2) <= registerCalls (calls p) + 2 /\
  (res.1 = Returned -> exists l, calls res.2 = calls p ++ l ++ [RegisterProfile]) /\
  engine res.2 = engine p /\
  (registerCalls (calls res.2) = registerCalls (calls p) + 2 <->
   bus (calls p) Export = Succeeded /\
   bus (calls p ++ [Export]) GetProxyObject = Succeeded /\
   exists s, bus asked RegisterProfile = Refused (Some s) /\
     (Js.includes s "AlreadyExists" = true \/ Js.includes s "already registered" = true)) /\
  (registerCalls (calls res.2) = registerCalls (calls p) + 2 ->
   calls res.2 = asked ++ [RegisterProfile; UnregisterProfile; RegisterProfile] /\
   res.1 = match bus (asked ++ [RegisterProfile; UnregisterProfile]) RegisterProfile with
           | Succeeded => Returned
           | Refused e => Thrown e
           end) /\
  (forall e, bus (calls p) Export = Succeeded ->
     bus (calls p ++ [Export]) GetProxyObject = Succeeded ->
     bus asked RegisterProfile = Refused e ->
     registerCalls (calls res.2) = registerCalls (calls p) + 1 ->
     res.1 = Thrown e /\ calls res.2 = asked ++ [RegisterProfile]).
Proof.
  intros Hp res asked. subst res asked. unfold register, call.
  cbn [calls engine _registered].
  destruct (bus (calls p) Export) as [|e1] eqn:B1.
  2:{ cbn [fst snd calls engine _registered]. rewrite Hp, registerCalls_app.
      change (registerCalls [Export]) with 0.
      split; [split; discriminate|]. split; [lia|]. split; [discriminate|].
      split; [reflexivity|]. split; [split; [lia | intros (H & _); discriminate]|].
      split; [lia | intros e H; discriminate]. }
  destruct (bus (calls p ++ [Export]) GetProxyObject) as [|e2] eqn:B2.
  2:{ cbn [fst snd calls engine _registered]. rewrite Hp, <- app_assoc, registerCalls_app.
      change (registerCalls ([Export] ++ [GetProxyObject])) with 0.
      split; [split; discriminate|]. split; [lia|]. split; [discriminate|].
      split; [reflexivity|]. split; [split; [lia | intros (_ & H & _); discriminate]|].
      split; [lia | intros e _ H; discriminate]. }
  rewrite <- (app_assoc (calls p) [Export] [GetProxyObject]).
  change ([Export] ++ [GetProxyObject]) with [Export; GetProxyObject].
  destruct (bus (calls p ++ [Export; GetProxyObject]) RegisterProfile) as [|e3] eqn:B3.
  { cbn [fst snd calls engine _registered set_registered].
    rewrite <- app_assoc, registerCalls_app.
    change (registerCalls ([Export; GetProxyObject] ++ [RegisterProfile])) with 1.
    split; [split; reflexivity|]. split; [lia|].
    split; [intros _; exists [Export; GetProxyObject]; reflexivity|].
    split; [reflexivity|].
    split; [split; [lia | intros (_ & _ & s & H & _); discriminate]|].
    split; [lia | intros e _ _ H; discriminate]. }
  destruct (alreadyExists e3) eqn:Ea.
  2:{ cbn [fst snd calls engine _registered]. rewrite Hp, <- app_assoc, registerCalls_app.
      change (registerCalls ([Export; GetProxyObject] ++ [RegisterProfile])) with 1.
      split; [split; discriminate|]. split; [lia|]. split; [discriminate|].
      split; [reflexivity|]. split; [split; [lia|]|].
      { intros (_ & _ & s & [= ->] & H).
        assert (Ht : alreadyExists (Some s) = true) by (apply alreadyExists_spec; eauto).
        congruence. }
      split; [lia|]. intros e _ _ [= <-] _. split; reflexivity. }
  apply alreadyExists_spec in Ea as (s & -> & Hs).
  cbn [calls engine _registered].
  rewrite <- !(app_assoc (calls p)).
  change (([Export; GetProxyObject] ++ [RegisterProfile]) ++ [UnregisterProfile])
    with ([Export; GetProxyObject] ++ [RegisterProfile; UnregisterProfile]).
  rewrite (app_assoc (calls p) [Export; GetProxyObject]
             [RegisterProfile; UnregisterProfile]).
  assert (Hn : forall q r n, q = calls p ++ r -> registerCalls r = n ->
                 registerCalls q = registerCalls (calls p) + n).
  { intros q r n -> <-. apply registerCalls_app. }
  destruct (bus ((calls p ++ [Export; GetProxyObject]) ++ [RegisterProfile; UnregisterProfile])
              RegisterProfile) as [|e5] eqn:B5;
    cbn [fst snd calls engine _registered set_registered]; rewrite ?Hp;
    rewrite <- !app_assoc;
    rewrite (Hn _ ([Export; GetProxyObject] ++
                   [RegisterProfile; UnregisterProfile] ++ [RegisterProfile]) 2
               eq_refl eq_refl).
  - split; [split; reflexivity|]. split; [lia|].
    split; [intros _; exists [Export; GetProxyObject; RegisterProfile; UnregisterProfile];
            reflexivity|].
    split; [reflexivity|]. split; [split; [eauto 10 | reflexivity]|].
    split; [intros _; split; reflexivity | intros e _ _ _ H; lia].
  - split; [split; discriminate|]. split; [lia|]. split; [discriminate|].
    split; [reflexivity|]. split; [split; [eauto 10 | reflexivity]|].
    split; [intros _; split; reflexivity | intros e _ _ _ H; lia].
Qed.

End Registration.

Section RegistrationWitness.
Import Hfp HfpProfile.

Lemma register_signs_up_at_most_twice_witness :
  let exists_already := fun (before : list busCall) (c : busCall) =>
    match c with
    | RegisterProfile =>
        if (registerCalls before =? 0)%nat
        then Refused (Some "org.bluez.Error.AlreadyExists: Already Exists")
        else Succeeded
    | _ => Succeeded
    end in
  let not_permitted := fun (before : list busCall) (c : busCall) =>
    match c with
    | RegisterProfile => Refused (Some "org.bluez.Error.NotPermitted")
    | _ => Succeeded
    end in
  (calls (register exists_already newProfile).2
   = [Export; GetProxyObject; RegisterProfile; UnregisterProfile; RegisterProfile] /\
   (register exists_already newProfile).1 = Returned) /\
  ((register not_permitted newProfile).1 = Thrown (Some "org.bluez.Error.NotPermitted") /\
   calls (register not_permitted newProfile).2 = [Export; GetProxyObject; RegisterProfile]).
Proof.
  intros exists_already not_permitted. split.
  - destruct (register_signs_up_at_most_twice exists_already newProfile eq_refl)
      as (_ & _ & _ & _ & _ & H & _).
    apply H. reflexivity.
  - destruct (register_signs_up_at_most_twice not_permitted newProfile eq_refl)
      as (_ & _ & _ & _ & _ & _ & H).
    apply (H (Some "org.bluez.Error.NotPermitted")); reflexivity.
Defined.

End RegistrationWitness.

(** ** Unwrapping variants *)

Section Unwrapping.
Import BluezPath Bluez.

(** Induction on values, with the elements of arrays and the properties
    of objects. *)
Lemma JsVal_nested_ind (P : JsVal -> Prop) :
  P VUndef -> P VNull -> (forall b, P (VBool b)) -> (forall z, P (VNum z)) ->
  (forall s, P (VStr s)) ->
  (forall items, Forall P items -> P (VArr items)) ->
  (forall bytes, P (VBuf bytes)) ->
  (forall fields, Forall (fun kv => P kv.2) fields -> P (VObj fields)) ->
  forall v, P v.
Proof.
  intros H1 H2 H3 H4 H5 H6 H7 H8. fix IH 1. intros [ | | b | z | s | items | bytes | fields].
  - exact H1.
  - exact H2.
  - apply H3.
  - apply H4.
  - apply H5.
  - apply H6. induction items as [|x items IHl]; constructor; [apply IH | exact IHl].
  - apply H7.
  - apply H8. induction fields as [|[k x] fields IHl]; constructor; [apply IH | exact IHl].
Qed.

Lemma unwrapValue_obj fields :
  _unwrapValue (VObj fields)
  = if bool_decide (is_Some (field "value" fields))
       && bool_decide (is_Some (field "signature" fields))
    then default VUndef (_unwrapValue <$> field "value" fields)
    else VObj ((fun kv => (kv.1, _unwrapValue kv.2)) <$> fields).
Proof.
  cbn [_unwrapValue].
  destruct (bool_decide (is_Some (field "value" fields))
            && bool_decide (is_Some (field "signature" fields))).
  - f_equal. clear. induction fields as [|[k v] fields IH]; [reflexivity|].
    cbn [field]. rewrite IH. destruct (field "value" fields); [reflexivity|].
    rewrite String.eqb_sym. destruct (String.eqb "value" k); reflexivity.
  - f_equal. clear. induction fields as [|[k v] fields IH]; [reflexivity|].
    rewrite fmap_cons, <- IH. reflexivity.
Qed.

Lemma field_fmap k (f : JsVal -> JsVal) fields :
  field k ((fun kv => (kv.1, f kv.2)) <$> fields) = f <$> field k fields.
Proof.
  induction fields as [|[k' v] fields IH]; [reflexivity|].
  rewrite fmap_cons. cbn [field fst snd]. rewrite IH.
  destruct (field k fields); [reflexivity|]. destruct (String.eqb k k'); reflexivity.
Qed.

Lemma field_Forall (P : JsVal -> Prop) k fields v :
  Forall (fun kv => P kv.2) fields -> field k fields = Some v -> P v.
Proof.
  induction 1 as [|[k' x] fields Hx _ IH]; [discriminate|].
  cbn [field]. destruct (field k fields) as [w|].
  - intros [= <-]. apply IH. reflexivity.
  - destruct (String.eqb k k'); [|discriminate]. intros [= <-]. exact Hx.
Qed.

Lemma unwrapValue_twice : forall v, _unwrapValue (_unwrapValue v) = _unwrapValue v.
Proof.
  apply JsVal_nested_ind; try reflexivity.
  intros fields HF. rewrite unwrapValue_obj.
  destruct (bool_decide (is_Some (field "value" fields))
            && bool_decide (is_Some (field "signature" fields))) eqn:E.
  - destruct (field "value" fields) as [v|] eqn:Ev; [|reflexivity].
    cbn. exact (field_Forall (fun x => _unwrapValue (_unwrapValue x) = _unwrapValue x) _ _ _ HF Ev).
  - rewrite unwrapValue_obj, !field_fmap.
    assert (G : forall k, bool_decide (is_Some (_unwrapValue <$> field k fields))
                          = bool_decide (is_Some (field k fields))).
    { intros k. destruct (field k fields); reflexivity. }
    rewrite !G, E. f_equal. rewrite <- list_fmap_compose.
    clear E G. induction HF as [|[k x] fields Hx _ IH]; [reflexivity|].
    rewrite !fmap_cons. cbn in *. rewrite Hx, IH. reflexivity.
Qed.

(** X18: unwrapping is idempotent: a value that went through
    [_unwrapValue] holds no variant that a second pass would open, and a
    dictionary that went through [_unwrapVariants] is not changed by a
    second pass. (The manager unwraps the payloads of manufacturer and
    service data a second time when it parses them.) *)
Theorem unwrapping_is_idempotent (v : JsVal) :
  _unwrapValue (_unwrapValue v) = _unwrapValue v /\
  _unwrapVariants (_unwrapVariants v) = _unwrapVariants v.
Proof.
  split; [apply unwrapValue_twice|].
  destruct v as [ | | b | z | s | items | bytes | fields]; try reflexivity.
  - cbn [_unwrapVariants]. f_equal.
    assert (G : forall (g : nat -> string),
      List.map (fun kv => (fst kv, _unwrapValue (snd kv)))
        (imap (fun i x => (g i, _unwrapValue x)) items)
      = imap (fun i x => (g i, _unwrapValue x)) items).
    { induction items as [|x items IH]; intros g; [reflexivity|].
      cbn [imap List.map fst snd]. rewrite unwrapValue_twice. f_equal.
      apply (IH (fun i => g (S i))). }
    apply G.
  - cbn [_unwrapVariants]. f_equal.
    assert (G : forall (g : nat -> string),
      List.map (fun kv => (fst kv, _unwrapValue (snd kv)))
        (imap (fun i x => (g i, VNum x)) bytes)
      = imap (fun i x => (g i, VNum x)) bytes).
    { induction bytes as [|x bytes IH]; intros g; [reflexivity|].
      cbn [imap List.map fst snd]. f_equal. apply (IH (fun i => g (S i))). }
    apply G.
  - cbn [_unwrapVariants]. f_equal.
    induction fields as [|[k x] fields IH]; [reflexivity|].
    cbn [List.map fst snd]. rewrite unwrapValue_twice. f_equal. apply IH.
Qed.

End Unwrapping.

(** ** The services of a device *)

Section Services.
Import BluezPath Bluez.

Lemma startsWith_trans a b c :
  Js.startsWith a b = true -> Js.startsWith b c = true -> Js.startsWith a c = true.
Proof.
  revert a b. induction c as [|x c IH]; intros a b Hab Hbc; [reflexivity|].
  destruct b as [|y b]; [discriminate|]. cbn [Js.startsWith] in Hbc.
  apply andb_true_iff in Hbc as [Hxy Hbc]. apply Ascii.eqb_eq in Hxy. subst y.
  destruct a as [|z a]; [discriminate|]. cbn [Js.startsWith] in *.
  apply andb_true_iff in Hab as [Hxz Hab]. rewrite Hxz. simpl. eapply IH; eassumption.
Qed.

Lemma startsWith_app a b : Js.startsWith (a +:+ b) a = true.
Proof.
  induction a as [|x a IH]; [reflexivity|]. cbn [append Js.startsWith].
  rewrite Ascii.eqb_refl. exact IH.
Qed.

(** X19: [discoverServices] lists only what lies below the device: every
    service it returns is a managed object with the GATT service
    interface whose path extends the device path by a slash and more,
    and every characteristic of a service is a managed object with the
    characteristic interface whose path extends the path of that
    service in the same way, and so lies below the device too. *)
Theorem services_lie_below_device (devicePath : string) (objects : list (string * JsVal))
    (s : service) :
  s ∈ enumerateServices devicePath objects ->
  Js.startsWith (svc_path s) (devicePath +:+ "/") = true /\
  (exists ifaces, (svc_path s, ifaces) ∈ objects /\
                  truthy (getField ifaces GATT_SERVICE_IFACE) = true) /\
  forall ch, ch ∈ characteristics s ->
    Js.startsWith (char_path ch) (svc_path s +:+ "/") = true /\
    Js.startsWith (char_path ch) (devicePath +:+ "/") = true /\
    exists ifaces, (char_path ch, ifaces) ∈ objects /\
                   truthy (getField ifaces GATT_CHAR_IFACE) = true.
Proof.
  unfold enumerateServices. intros H.
  apply list_elem_of_omap in H as ([objPath ifaces] & Hin & H).
  destruct (Js.startsWith objPath (devicePath +:+ "/")) eqn:E1; [|discriminate].
  destruct (truthy (getField ifaces GATT_SERVICE_IFACE)) eqn:E2; [|discriminate].
  cbn [andb] in H. injection H as <-. cbn [svc_path characteristics].
  split; [exact E1|]. split; [eauto|].
  intros ch Hch. apply list_elem_of_omap in Hch as ([charPath charIfaces] & Hin' & Hch).
  destruct (Js.startsWith charPath (objPath +:+ "/")) eqn:E3; [|discriminate].
  destruct (truthy (getField charIfaces GATT_CHAR_IFACE)) eqn:E4; [|discriminate].
  cbn [andb] in Hch. injection Hch as <-. cbn [char_path].
  split; [exact E3|]. split; [|eauto].
  eapply startsWith_trans; [exact E3|].
  eapply startsWith_trans; [apply startsWith_app | exact E1].
Qed.

Lemma services_lie_below_device_witness :
  let dev := "/org/bluez/hci0/dev_AA_BB_CC_DD_EE_FF" in
  let objects :=
    [ (dev +:+ "/service000a", VObj [(GATT_SERVICE_IFACE, VObj [("UUID", VStr "180f")])]);
      (dev +:+ "/service000a/char000b",
       VObj [(GATT_CHAR_IFACE, VObj [("UUID", VStr "2a19")])]);
      (dev +:+ "_2/service000a", VObj [(GATT_SERVICE_IFACE, VObj [])]) ] in
  exists s, enumerateServices dev objects = [s] /\
    Js.startsWith (svc_path s) (dev +:+ "/") = true.
Proof.
  intros dev objects. eexists. split; [vm_compute; reflexivity|].
  eapply (services_lie_below_device dev objects). vm_compute. left.
Defined.

End Services.

(** ** The device cache *)

Section DeviceCache.
Import BluezPath Bluez BluezInv BluezCache.
Variable E : env.

Lemma emitted_settleWait t o m : emitted (settleWait t o m) = emitted m.
Proof. unfold settleWait. destruct (waits m !! t); reflexivity. Qed.

Lemma emitted_onChange t mac cm upd m : emitted (onChange t mac cm upd m) = emitted m.
Proof.
  unfold onChange. destruct (_ && _); [|reflexivity]. rewrite emitted_settleWait.
  reflexivity.
Qed.

Lemma emitted_deliver cm upd m : emitted (deliverDeviceChanged cm upd m) = emitted m.
Proof.
  unfold deliverDeviceChanged. generalize (_waiters m). intros l. revert m.
  induction l as [|w l IH]; intros m; simpl; [reflexivity|].
  rewrite IH. apply emitted_onChange.
Qed.

Lemma proxies_settleWait t o m : _deviceProxies (settleWait t o m) = _deviceProxies m.
Proof. unfold settleWait. destruct (waits m !! t); reflexivity. Qed.

Lemma proxies_deliver cm upd m : _deviceProxies (deliverDeviceChanged cm upd m) = _deviceProxies m.
Proof.
  unfold deliverDeviceChanged. generalize (_waiters m). intros l. revert m.
  induction l as [|w l IH]; intros m; simpl; [reflexivity|].
  rewrite IH. unfold onChange. destruct (_ && _); [|reflexivity].
  rewrite proxies_settleWait. reflexivity.
Qed.

(** What an emission does to the manager: the event is recorded, the
    cache and the proxies stay, and it ends normally exactly when the
    collaborators' listener does not throw. *)
Lemma emit_spec ev m :
  _devices (emit E ev m).2 = _devices m /\
  _deviceProxies (emit E ev m).2 = _deviceProxies m /\
  emitted (emit E ev m).2 = emitted m ++ [ev] /\
  ((emit E ev m).1 = Ok tt <-> listener E ev = None).
Proof.
  unfold emit. destruct (listener E ev) as [err|] eqn:El; cbn [fst snd].
  - repeat split; discriminate.
  - destruct ev; cbn [_devices _deviceProxies emitted set_emitted];
      rewrite ?devices_deliver, ?proxies_deliver, ?emitted_deliver; repeat split.
Qed.

Lemma toUpperCase_nonempty s : s <> "" -> String.eqb (Js.toUpperCase s) "" = false.
Proof. destruct s; [congruence | reflexivity]. Qed.

(** X20: a device that appears on the bus under the manager's adapter,
    with an address property, is cached under that address in upper
    case (not under the address its path spells), with the record built
    from its properties and the battery level of a battery interface on
    the same object; [deviceFound] is emitted with the same record. The
    record is cached before the listeners run: a listener that throws
    ends the call abnormally but leaves the device cached. *)
Theorem device_added_is_cached (p : string) (fs : list (string * JsVal)) (addr : string)
    (info : device) (m : manager) :
  let interfaces := VObj fs in
  let props := _unwrapVariants (getField interfaces DEVICE_IFACE) in
  Js.startsWith p (adapterPath (hciDevice m)) = true ->
  truthy (getField interfaces DEVICE_IFACE) = true ->
  truthy (getField interfaces MEDIA_PLAYER_IFACE) = false ->
  getField props "Address" = VStr addr ->
  addr <> "" ->
  _buildDeviceInfo E p props = Ok info ->
  let info' :=
    if truthy (getField interfaces BATTERY_IFACE)
    then <["battery" := nullish (getField (_unwrapVariants (getField interfaces BATTERY_IFACE))
                                   "Percentage") VNull]> info
    else info in
  let res := _onInterfacesAdded E (VStr p) interfaces m in
  _devices res.2 = <[Js.toUpperCase addr := info']> (_devices m) /\
  emitted res.2 = emitted m ++ [DeviceFound (Js.toUpperCase addr) info'] /\
  (res.1 = Ok tt <-> listener E (DeviceFound (Js.toUpperCase addr) info') = None).
Proof.
  intros interfaces props Hp Hd Hm Ha Hne Hb info' res. subst res.
  unfold _onInterfacesAdded, bind, get, lift, ret, modify, getProp, jsStartsWith, jsToUpperCase.
  fold interfaces. cbn [interfaces]. fold interfaces.
  rewrite Hm. cbn [negb]. rewrite Hd. cbn [negb]. rewrite Hp. cbn [negb].
  fold props. rewrite Ha.
  assert (Ht : truthy (VStr addr) = true).
  { cbn. destruct addr; [congruence | reflexivity]. }
  rewrite Ht, (toUpperCase_nonempty addr Hne), Hb. fold info'.
  destruct (emit_spec (DeviceFound (Js.toUpperCase addr) info')
              (setDevice (Js.toUpperCase addr) info' m)) as (H1 & _ & H3 & H4).
  split; [exact H1|]. split; [exact H3 | exact H4].
Qed.

(** X21: when the device interface of an object is removed, the record
    cached under the address that the object path spells is deleted,
    the proxy cached for the path is dropped, and [deviceRemoved] is
    emitted for that address, whether a record was cached or not.
    Records under other addresses stay. *)
Theorem device_removed_is_forgotten (p : string) (ifs : list JsVal) (m : manager) :
  existsb (isStr DEVICE_IFACE) ifs = true ->
  existsb (isStr MEDIA_PLAYER_IFACE) ifs = false ->
  devicePathToMac p <> "" ->
  let mac := devicePathToMac p in
  let res := _onInterfacesRemoved E (VStr p) (VArr ifs) m in
  _devices res.2 = delete mac (_devices m) /\
  _deviceProxies res.2 = _deviceProxies m ∖ {[p]} /\
  emitted res.2 = emitted m ++ [DeviceRemoved mac] /\
  (res.1 = Ok tt <-> listener E (DeviceRemoved mac) = None).
Proof.
  intros Hd Hm Hne mac res. subst res.
  unfold _onInterfacesRemoved, bind, lift, ret, modify, jsIncludes, jsDevicePathToMac.
  rewrite Hm, Hd. cbn [negb]. fold mac.
  assert (Hs : String.eqb mac "" = false) by (apply String.eqb_neq; exact Hne).
  rewrite Hs.
  match goal with |- context [emit E ?ev ?m0] =>
    destruct (emit_spec ev m0) as (H1 & H2 & H3 & H4) end.
  split; [exact H1|]. split; [exact H2|]. split; [exact H3 | exact H4].
Qed.

Lemma setDeviceField_known mac k v d m :
  _devices m !! mac = Some d ->
  setDeviceField mac k v m = setDevice mac (<[k := v]> d) m.
Proof.
  intros H. unfold setDeviceField, setDevice. f_equal.
  apply map_eq. intros i. destruct (decide (i = mac)) as [->|Hne].
  - rewrite lookup_alter_eq, lookup_insert_eq, H. reflexivity.
  - rewrite lookup_alter_ne, lookup_insert_ne by congruence. reflexivity.
Qed.

Lemma plain_single busName name x :
  (busName, name) ∈ plainProperties ->
  omap (fun '(b, n) =>
          if hasField b (VObj [(busName, x)])
          then Some (n, getField (VObj [(busName, x)]) b)
          else None) plainProperties = [(name, x)] /\
  hasField "ManufacturerData" (VObj [(busName, x)]) = false /\
  hasField "ServiceData" (VObj [(busName, x)]) = false.
Proof.
  unfold plainProperties. intros H.
  repeat (apply elem_of_cons in H as [H|H];
          [injection H as -> ->; vm_compute; auto|]).
  inversion H.
Qed.

(** X22: a change of one of the properties the manager copies as they
    are (signal strength, connection and pairing flags, names,
    transmission power, resolved services) on a cached device stores the
    unwrapped value in the field of that property, leaves every other
    field and every other record as it is, and emits [deviceChanged]
    with exactly that one update. *)
Theorem property_change_updates_record (p busName name : string) (v : JsVal) (d : device)
    (m : manager) :
  devicePathToMac p <> "" ->
  _devices m !! devicePathToMac p = Some d ->
  (busName, name) ∈ plainProperties ->
  let mac := devicePathToMac p in
  let res := _onDevicePropertiesChanged E p (VObj [(busName, v)]) m in
  _devices res.2 = <[mac := <[name := _unwrapValue v]> d]> (_devices m) /\
  emitted res.2 = emitted m ++ [DeviceChanged mac [(name, _unwrapValue v)]] /\
  (res.1 = Ok tt <-> listener E (DeviceChanged mac [(name, _unwrapValue v)]) = None).
Proof.
  intros Hne Hd Hin mac res. subst res.
  destruct (plain_single busName name (_unwrapValue v) Hin) as (Hp & Hm & Hs).
  fold mac in Hd, Hne.
  unfold _onDevicePropertiesChanged, parsedProperty, bind, get, ret, modify, lift.
  fold mac. rewrite (proj2 (String.eqb_neq _ _) Hne). cbv beta iota. rewrite Hd.
  cbn [_unwrapVariants List.map fst snd].
  match goal with |- context [omap ?f plainProperties] =>
    change (omap f plainProperties)
      with (omap (fun '(b, n) =>
              if hasField b (VObj [(busName, _unwrapValue v)])
              then Some (n, getField (VObj [(busName, _unwrapValue v)]) b)
              else None) plainProperties) end.
  rewrite Hp, Hm, Hs. cbn [foldl]. cbv beta iota.
  rewrite (setDeviceField_known mac name _ d m Hd).
  match goal with |- context [emit E ?ev ?m0] =>
    destruct (emit_spec ev m0) as (H1 & _ & H3 & H4) end.
  split; [exact H1|]. split; [exact H3 | exact H4].
Qed.

Lemma preserves_ret Q {A} (a : A) : preservesCache Q (ret a).
Proof. intros m H. exact H. Qed.

Lemma preserves_lift Q {A} (x : exc A) : preservesCache Q (lift x).
Proof. intros m H. exact H. Qed.

Lemma preserves_bind Q {A B} (x : M A) (f : A -> M B) :
  preservesCache Q x -> (forall a, preservesCache Q (f a)) -> preservesCache Q (bind x f).
Proof.
  intros Hx Hf m H. unfold bind. specialize (Hx m H).
  destruct (x m) as [[a|e] m1]; [apply Hf, Hx | exact Hx].
Qed.

Lemma preserves_emit Q ev : preservesCache Q (emit E ev).
Proof. intros m H. rewrite (proj1 (emit_spec ev m)). exact H. Qed.

Lemma hasRecord_field mac path k v m :
  k <> "path" -> k <> "address" ->
  hasRecord mac path (_devices m) -> hasRecord mac path (_devices (setDeviceField mac k v m)).
Proof.
  intros H1 H2 (d & Hd & Hp & Ha). exists (<[k := v]> d). split.
  - cbn. rewrite lookup_alter_eq, Hd. reflexivity.
  - rewrite !lookup_insert_ne by congruence. auto.
Qed.

Lemma plain_names b n : (b, n) ∈ plainProperties -> n <> "path" /\ n <> "address".
Proof.
  unfold plainProperties. intros H.
  repeat (apply elem_of_cons in H as [H|H]; [injection H as -> ->; split; discriminate|]).
  inversion H.
Qed.

Lemma stub_record p mac :
  exists info, _buildDeviceInfo E p (VObj []) = Ok info /\
    (<["address" := VStr mac]> info : device) !! "path" = Some (VStr p) /\
    (<["address" := VStr mac]> info : device) !! "address" = Some (VStr mac).
Proof.
  eexists. split; [reflexivity|]. split; [|apply lookup_insert_eq].
  rewrite lookup_insert_ne by discriminate. vm_compute. reflexivity.
Qed.

(** X23: the two kinds of change differ on a device that is not cached.
    A change of its battery interface is dropped: nothing is stored and
    nothing emitted. A change of its device interface, whatever it
    carries and even if parsing it throws, first caches a record for
    the device, which names its path and the address the path spells. *)
Theorem changes_of_unknown_device (p : string) (changed : JsVal) (m : manager) :
  devicePathToMac p <> "" ->
  _devices m !! devicePathToMac p = None ->
  _onBatteryChanged E p changed m = (Ok tt, m) /\
  hasRecord (devicePathToMac p) p (_devices (_onDevicePropertiesChanged E p changed m).2).
Proof.
  intros Hne Hd. set (mac := devicePathToMac p) in *.
  assert (Hs : String.eqb mac "" = false) by (apply String.eqb_neq; exact Hne).
  split.
  { unfold _onBatteryChanged, bind, get. fold mac. rewrite Hs. cbv beta iota.
    rewrite Hd. reflexivity. }
  unfold _onDevicePropertiesChanged. fold mac. rewrite Hs.
  destruct (stub_record p mac) as (info & Hb & Hp & Ha).
  unfold bind at 1. unfold get at 1. cbv beta iota.
  unfold bind at 1. rewrite Hd. unfold bind at 1, lift at 1. rewrite Hb. cbv beta iota.
  unfold modify at 1. cbv beta iota.
  set (m1 := setDevice mac (<["address" := VStr mac]> info) m).
  assert (H1 : hasRecord mac p (_devices m1)).
  { eexists. split; [apply lookup_insert_eq|]. auto. }
  revert H1. generalize m1. clear m1.
  change (preservesCache (hasRecord mac p)
    (let unwrapped := _unwrapVariants changed in
     let plain :=
       omap (fun '(busName, name) =>
               if hasField busName unwrapped
               then Some (name, getField unwrapped busName)
               else None) plainProperties in
     run* modify (fun m => foldl (fun m '(name, v) => setDeviceField mac name v m) m plain) in
     let* updates1 := parsedProperty mac "ManufacturerData" "manufacturerData"
                        (_parseManufacturerData E) unwrapped plain in
     let* updates := parsedProperty mac "ServiceData" "serviceData"
                       (_parseServiceData E) unwrapped updates1 in
     match updates with
     | [] => ret tt
     | _ => emit E (DeviceChanged mac updates)
     end)).
  cbv zeta. apply preserves_bind.
  { intros m0 H0. cbn [snd modify].
    match goal with |- context [foldl _ m0 ?l] =>
      assert (Hl : forall nv, nv ∈ l -> nv.1 <> "path" /\ nv.1 <> "address");
      [|revert Hl H0; generalize l] end.
    { intros [n v] Hin. apply list_elem_of_omap in Hin as ([b n'] & Hin & Hx).
      destruct (hasField b (_unwrapVariants changed)); [|discriminate].
      injection Hx as <- _. eapply plain_names, Hin. }
    intros l Hl. revert m0. induction l as [|[n v] l IH]; intros m0 H0; [exact H0|].
    cbn [foldl]. apply IH.
    - intros nv Hin. apply Hl. right. exact Hin.
    - destruct (Hl (n, v) ltac:(left)) as [? ?]. apply hasRecord_field; assumption. }
  intros _. apply preserves_bind.
  { unfold parsedProperty. destruct (hasField _ _); [|apply preserves_ret].
    apply preserves_bind; [apply preserves_lift|]. intros v.
    apply preserves_bind; [|intros; apply preserves_ret].
    intros m0 H0. apply hasRecord_field; [discriminate | discriminate | exact H0]. }
  intros u1. apply preserves_bind.
  { unfold parsedProperty. destruct (hasField _ _); [|apply preserves_ret].
    apply preserves_bind; [apply preserves_lift|]. intros v.
    apply preserves_bind; [|intros; apply preserves_ret].
    intros m0 H0. apply hasRecord_field; [discriminate | discriminate | exact H0]. }
  intros [|u us]; [apply preserves_ret | apply preserves_emit].
Qed.

End DeviceCache.

Section DeviceCacheWitness.
Import BluezPath Bluez BluezInv.

Lemma device_added_is_cached_witness :
  let p := "/org/bluez/hci0/dev_AA_BB_CC_DD_EE_FF" in
  let fs := [(DEVICE_IFACE,
              VObj [("Address", VObj [("signature", VStr "s"); ("value", VStr "aa:bb:cc:dd:ee:ff")])])] in
  let m := newManager 0 in
  let res := _onInterfacesAdded throwingListener (VStr p) (VObj fs) m in
  Js.toUpperCase "aa:bb:cc:dd:ee:ff" = "AA:BB:CC:DD:EE:FF" /\
  exists info,
    _devices res.2 = <[Js.toUpperCase "aa:bb:cc:dd:ee:ff" := info]> (_devices m).
Proof.
  intros p fs m res. split; [reflexivity|].
  assert (H1 : Js.startsWith p (adapterPath (hciDevice m)) = true)
    by (vm_compute; reflexivity).
  assert (H2 : truthy (getField (VObj fs) DEVICE_IFACE) = true)
    by (vm_compute; reflexivity).
  assert (H3 : truthy (getField (VObj fs) MEDIA_PLAYER_IFACE) = false)
    by (vm_compute; reflexivity).
  assert (H4 : getField (_unwrapVariants (getField (VObj fs) DEVICE_IFACE)) "Address"
               = VStr "aa:bb:cc:dd:ee:ff") by (vm_compute; reflexivity).
  assert (H5 : "aa:bb:cc:dd:ee:ff" <> "") by discriminate.
  assert (H6 : exists info,
             _buildDeviceInfo throwingListener p
               (_unwrapVariants (getField (VObj fs) DEVICE_IFACE)) = Ok info)
    by (eexists; reflexivity).
  destruct H6 as [info H6]. eexists.
  exact (proj1 (device_added_is_cached throwingListener p fs "aa:bb:cc:dd:ee:ff" info m
                  H1 H2 H3 H4 H5 H6)).
Defined.

Lemma device_removed_is_forgotten_witness :
  let p := "/org/bluez/hci0/dev_AA_BB_CC_DD_EE_FF" in
  let m := newManager 0 in
  let res := _onInterfacesRemoved throwingListener (VStr p) (VArr [VStr DEVICE_IFACE]) m in
  devicePathToMac p = "AA:BB:CC:DD:EE:FF" /\
  _devices res.2 = delete (devicePathToMac p) (_devices m).
Proof.
  intros p m res. split; [vm_compute; reflexivity|].
  assert (H1 : existsb (isStr DEVICE_IFACE) [VStr DEVICE_IFACE] = true)
    by (vm_compute; reflexivity).
  assert (H2 : existsb (isStr MEDIA_PLAYER_IFACE) [VStr DEVICE_IFACE] = false)
    by (vm_compute; reflexivity).
  assert (H3 : devicePathToMac p <> "") by (vm_compute; discriminate).
  exact (proj1 (device_removed_is_forgotten throwingListener p [VStr DEVICE_IFACE] m
                  H1 H2 H3)).
Defined.

End DeviceCacheWitness.

Section DeviceChangeWitness.
Import BluezPath Bluez BluezInv.

Lemma property_change_updates_record_witness :
  let p := "/org/bluez/hci0/dev_AA_BB_CC_DD_EE_FF" in
  let d : device := {["rssi" := VNull]} in
  let m := setDevice (devicePathToMac p) d (newManager 0) in
  let v := VObj [("signature", VStr "n"); ("value", VNum (-60))] in
  let res := _onDevicePropertiesChanged busyAdapter p (VObj [("RSSI", v)]) m in
  devicePathToMac p = "AA:BB:CC:DD:EE:FF" /\
  _unwrapValue v = VNum (-60) /\
  _devices res.2 = <[devicePathToMac p := <["rssi" := _unwrapValue v]> d]> (_devices m).
Proof.
  intros p d m v res. split; [vm_compute; reflexivity|]. split; [reflexivity|].
  assert (H1 : devicePathToMac p <> "") by (vm_compute; discriminate).
  assert (H2 : _devices m !! devicePathToMac p = Some d) by apply lookup_insert_eq.
  assert (H3 : ("RSSI", "rssi") ∈ plainProperties) by (unfold plainProperties; left).
  exact (proj1 (property_change_updates_record busyAdapter p "RSSI" "rssi" v d m H1 H2 H3)).
Defined.

End DeviceChangeWitness.

Section UnknownDeviceWitness.
Import BluezPath Bluez BluezInv BluezCache.

Lemma changes_of_unknown_device_witness :
  let p := "/org/bluez/hci0/dev_AA_BB_CC_DD_EE_FF" in
  let changed := VObj [("Percentage", VNum 80)] in
  devicePathToMac p = "AA:BB:CC:DD:EE:FF" /\
  _onBatteryChanged busyAdapter p changed (newManager 0) = (Ok tt, newManager 0) /\
  hasRecord (devicePathToMac p) p
    (_devices (_onDevicePropertiesChanged busyAdapter p changed (newManager 0)).2).
Proof.
  intros p changed. split; [vm_compute; reflexivity|].
  assert (H1 : devicePathToMac p <> "") by (vm_compute; discriminate).
  assert (H2 : _devices (newManager 0) !! devicePathToMac p = None) by apply lookup_empty.
  exact (changes_of_unknown_device busyAdapter p changed (newManager 0) H1 H2).
Defined.

End UnknownDeviceWitness.

(** ** Starting and stopping discovery *)

Section DiscoveryCalls.
Import BluezPath Bluez BluezInv.
Variable E : env.

(** X24: on a destroyed manager [startDiscovery] does nothing. On a live
    manager that is not discovering it asks the adapter, in this order,
    to stop a stale discovery, to set the filter (with the transport
    given and duplicate data on) and to start; it pauses 300 ms after
    the stop only when the stop succeeded. A failure of the stop or of
    the filter never keeps it from the start call. It returns normally
    exactly when it ends with the discovering flag set, and the error it
    throws otherwise is the error of the start call, which is then not
    an in-progress error. The device cache is not touched. *)
Theorem start_asks_in_order (transport : string) (m : manager) :
  (_destroyed m = true -> startDiscovery E transport m = (Returns, m)) /\
  (_destroyed m = false -> _discovering m = false ->
   let res := startDiscovery E transport m in
   let before :=
     effects m ++ [StopDiscovery] ++
     match adapter E (effects m) StopDiscovery with
     | Done => [Delay 300]
     | Failed _ => []
     end ++ [SetDiscoveryFilter transport true] in
   effects res.2 = before ++ [StartDiscovery] /\
   _devices res.2 = _devices m /\
   (res.1 = Returns <-> _discovering res.2 = true) /\
   forall message, res.1 = Rejects message ->
     adapter E before StartDiscovery = Failed message /\ inProgress message = false).
Proof.
  split.
  { intros H. unfold startDiscovery. rewrite H. reflexivity. }
  intros Hx Hd res before. subst res. unfold startDiscovery. rewrite Hx, Hd.
  assert (Hp : effects (prepareDiscovery E transport m) = before /\
               _devices (prepareDiscovery E transport m) = _devices m /\
               _discovering (prepareDiscovery E transport m) = false).
  { subst before. unfold prepareDiscovery, callAdapter.
    destruct (adapter E (effects m) StopDiscovery);
      cbn [fst snd effects set_effects _devices _discovering];
      rewrite <- ?app_assoc; auto. }
  destruct Hp as (Hp & Hv & Hf).
  unfold callAdapter. rewrite Hp.
  destruct (adapter E before StartDiscovery) as [|message] eqn:Ea.
  - cbn [fst snd effects set_effects set_discovering _devices _discovering].
    rewrite ?Hp, ?Hv. repeat split; discriminate.
  - destruct (inProgress message) eqn:Ei;
      cbn [fst snd effects set_effects set_discovering _devices _discovering];
      rewrite ?Hp, ?Hv, ?Hf.
    + repeat split; discriminate.
    + split; [reflexivity|]. split; [reflexivity|]. split; [split; discriminate|].
      intros msg [= <-]. auto.
Qed.

Lemma start_counts transport m :
  _destroyed m = false -> _discovering m = false ->
  startCalls (effects (startDiscovery E transport m).2) = S (startCalls (effects m)).
Proof.
  intros Hx Hd. unfold startDiscovery. rewrite Hx, Hd. unfold callAdapter.
  destruct (prepare_fields E transport m) as (_ & _ & P3).
  destruct (adapter E _ StartDiscovery) as [|message];
    [|destruct (inProgress message)];
    cbn [fst snd effects set_effects set_discovering];
    rewrite startCalls_app, P3; cbn; lia.
Qed.

(** X25: [stopDiscovery] never throws and always ends with the
    discovering flag cleared, whatever the adapter answers; it asks the
    adapter to stop only when the flag was set. After it, a
    [startDiscovery] on a live manager issues the start call again. *)
Theorem stop_then_start_again (transport : string) (m : manager) :
  let res := stopDiscovery E m in
  res.1 = Returns /\
  _discovering res.2 = false /\
  effects res.2 = effects m ++ (if _discovering m then [StopDiscovery] else []) /\
  (_destroyed m = false ->
   startCalls (effects (startDiscovery E transport res.2).2) = S (startCalls (effects m))).
Proof.
  intros res. subst res. unfold stopDiscovery, callAdapter.
  destruct (_discovering m) eqn:Hd; cbn [negb fst snd].
  - split; [reflexivity|]. split; [reflexivity|]. split; [reflexivity|].
    intros Hx. rewrite start_counts by (cbn; assumption || reflexivity).
    cbn [effects set_discovering set_effects]. rewrite startCalls_app. cbn. lia.
  - split; [reflexivity|]. split; [exact Hd|]. split; [rewrite app_nil_r; reflexivity|].
    intros Hx. apply start_counts; assumption.
Qed.

End DiscoveryCalls.

Section DiscoveryCallsWitness.
Import BluezPath Bluez BluezInv.

Lemma start_asks_in_order_witness :
  let m := newManager 0 in
  let res := startDiscovery busyAdapter "le" m in
  effects res.2 = [StopDiscovery; SetDiscoveryFilter "le" true; StartDiscovery] /\
  (res.1 = Returns <-> _discovering res.2 = true).
Proof.
  intros m res.
  destruct (proj2 (start_asks_in_order busyAdapter "le" m) eq_refl eq_refl) as (H1 & _ & H3 & _).
  split; [exact H1 | exact H3].
Defined.

End DiscoveryCallsWitness.

(** ** Listeners and time-outs of the waits *)

Section WaitLeaks.
Import BluezPath Bluez BluezWaits.

(** Settling a wait after removing its listener and its time-out. *)
Lemma tidy_settle t o m :
  tidyWaits m -> t < nextTimer m ->
  tidyWaits (settleWait t o (removeListener t (clearTimer t m))).
Proof.
  intros (HW & H2 & H3) Ht.
  split; [apply wf_settle; [apply wf_remove, HW | exact Ht]|].
  destruct (settleWait_fields t o (removeListener t (clearTimer t m))) as (F1 & F2 & _ & _).
  rewrite F1, F2. cbn [timers removeListener set_waiters clearTimer set_timers].
  split.
  - intros tid Hs. destruct (decide (tid = t)) as [->|Hne]; [apply lookup_delete_eq|].
    rewrite lookup_delete_ne by congruence. apply H2.
    rewrite waits_settleWait in Hs. cbn [waits removeListener set_waiters clearTimer set_timers] in Hs.
    destruct (waits m !! tid); [eauto|]. rewrite decide_False in Hs by exact Hne.
    destruct Hs; discriminate.
  - intros tid. destruct (decide (tid = t)) as [->|Hne].
    + rewrite lookup_delete_eq. split; [intros [? ?]; discriminate|].
      intros [mac Hin]. apply (waiters_removeListener t (clearTimer t m)) in Hin as [_ Hin].
      contradiction.
    + rewrite lookup_delete_ne by congruence. rewrite H3.
      split; intros [mac Hin]; exists mac.
      * apply (waiters_removeListener t (clearTimer t m)). split; [exact Hin | exact Hne].
      * apply (waiters_removeListener t (clearTimer t m)) in Hin as [Hin _]. exact Hin.
Qed.

Lemma tidy_onChange t mac cm upd m :
  tidyWaits m -> t < nextTimer m ->
  tidyWaits (onChange t mac cm upd m) /\ nextTimer (onChange t mac cm upd m) = nextTimer m.
Proof.
  intros HJ Ht. split; [|apply wf_onChange; [apply HJ | exact Ht]].
  unfold onChange. destruct (_ && _); [|exact HJ]. apply tidy_settle; assumption.
Qed.

Lemma tidy_dueStep m x :
  tidyWaits m -> fst x < nextTimer m ->
  tidyWaits (dueStep m x) /\ nextTimer (dueStep m x) = nextTimer m.
Proof.
  intros HJ Ht. split; [|apply wf_dueStep; [apply HJ | exact Ht]].
  unfold dueStep. destruct (_ <=? _)%Z; [|exact HJ]. unfold onWaitTimeout.
  apply tidy_settle; assumption.
Qed.

Lemma tidy_foldl {A} (f : manager -> A -> manager) (key : A -> nat) :
  (forall m a, tidyWaits m -> key a < nextTimer m ->
               tidyWaits (f m a) /\ nextTimer (f m a) = nextTimer m) ->
  forall l m, tidyWaits m -> (forall a, a ∈ l -> key a < nextTimer m) ->
              tidyWaits (foldl f m l).
Proof.
  intros Hf l. induction l as [|a l IH]; intros m HJ Hl; simpl; [exact HJ|].
  destruct (Hf m a HJ) as [HJ' Hn]; [apply Hl; left|].
  apply IH; [exact HJ'|]. intros b Hb. rewrite Hn. apply Hl. right. exact Hb.
Qed.

Lemma tidy_step e m : tidyWaits m -> tidyWaits (waitStep e m).
Proof.
  intros HJ. pose proof HJ as ((W1 & W2 & W3) & H2 & H3).
  destruct e as [cm upd|ms|path rd]; cbn [waitStep].
  - unfold deliverDeviceChanged.
    apply (tidy_foldl _ fst); [|exact HJ|].
    + intros m0 [t mac]. apply tidy_onChange.
    + intros [t mac] Hin. eapply W1, Hin.
  - unfold runDueTimers.
    assert (HJ' : tidyWaits (set_clock (clock m + Z.max 0 ms) m)) by exact HJ.
    apply (tidy_foldl _ fst); [intros m0 x; apply tidy_dueStep | exact HJ' |].
    intros [t x] Hin. apply elem_of_map_to_list in Hin. eapply W2, Hin.
  - split; [apply wf_step with (e := Discovers path rd); apply HJ|].
    destruct (discover_cases path rd m) as [(_ & _ & _ & E2 & E3 & E4 & E5)
                                           |(_ & _ & _ & E2 & E3 & E4 & E5)];
      rewrite E2, E3, E4; [split; assumption|].
    split.
    + intros tid Hs. destruct Hs as [o Ho]. pose proof (W3 _ _ Ho).
      rewrite lookup_insert_ne by lia. apply H2. eauto.
    + intros tid. destruct (decide (tid = nextTimer m)) as [->|Hne].
      * rewrite lookup_insert_eq. split; [|eauto].
        intros _. eexists. apply elem_of_app. right. left.
      * rewrite lookup_insert_ne by congruence. rewrite H3.
        split; intros [mac Hin]; exists mac.
        -- apply elem_of_app. left. exact Hin.
        -- apply elem_of_app in Hin as [Hin|Hin]; [exact Hin|].
           apply list_elem_of_singleton in Hin. congruence.
Qed.

Lemma tidy_run tr : forall m, tidyWaits m -> tidyWaits (waitRun tr m).
Proof.
  unfold waitRun. induction tr as [|e tr IH]; intros m HJ; simpl; [exact HJ|].
  apply IH, tidy_step, HJ.
Qed.

Lemma tidy_new hci : tidyWaits (newManager hci).
Proof.
  split; [apply wf_new|]. cbn. split.
  - intros tid _. apply lookup_empty.
  - intros tid. rewrite lookup_empty. split; [intros [? ?]; discriminate|].
    intros [mac Hin]. inversion Hin.
Qed.

(** X26: the waits leak nothing. After any sequence of [deviceChanged]
    events, passing time and calls of [discoverServices] on a new
    manager, a wait that is settled (resolved or timed out) has neither
    a pending time-out nor a subscribed listener, and among the waits
    that are not settled a time-out is pending exactly for those whose
    listener is subscribed. *)
Theorem waits_leak_nothing (hci : nat) (tr : list waitEvent) :
  let m := waitRun tr (newManager hci) in
  (forall tid o, waits m !! tid = Some o ->
     timers m !! tid = None /\ forall mac, (tid, mac) ∉ _waiters m) /\
  (forall tid, is_Some (timers m !! tid) <-> exists mac, (tid, mac) ∈ _waiters m).
Proof.
  intros m. destruct (tidy_run tr (newManager hci) (tidy_new hci)) as (_ & H2 & H3).
  fold m in H2, H3. split; [|exact H3].
  intros tid o Ho. assert (Hn : timers m !! tid = None) by (apply H2; eauto).
  split; [exact Hn|]. intros mac Hin.
  assert (Hs : is_Some (timers m !! tid)) by (apply H3; eauto).
  rewrite Hn in Hs. destruct Hs; discriminate.
Qed.

End WaitLeaks.

(** ** No command is stranded *)

Section Liveness.
Import Hfp HfpInv HfpLive.

Lemma sched_frame w w' r c' st st' :
  Sched w st ->
  store st' = <[r := c']> (store st) ->
  (forall tid r' t text, r' <> r ->
     timers st !! tid = Some (AtTimeout r' t text) ->
     timers st' !! tid = Some (AtTimeout r' t text)) ->
  (forall r', r' <> r -> r' ∈ immediates st -> r' ∈ immediates st') ->
  (forall r', r' <> r -> w' <> Some r' -> w <> Some r') ->
  armed st' r c' -> (w' <> Some r -> kicked st' r c') ->
  Sched w' st'.
Proof.
  intros HS Hst Ht Hi Hw Ha Hk r0 c0. rewrite Hst.
  destruct (decide (r0 = r)) as [->|Hne].
  - rewrite lookup_insert_eq. intros [= <-]. auto.
  - rewrite lookup_insert_ne by congruence. intros H0.
    destruct (HS r0 c0 H0) as [A K]. split.
    + intros Hf. destruct (A Hf) as (t & tid & text & Hp & Htm).
      exists t, tid, text. split; [exact Hp | apply Ht; assumption].
    + intros Hs Hd Hf Hq. apply Hi; [exact Hne|]. apply K; auto.
Qed.

Lemma sched_weaken w st : Sched None st -> Sched w st.
Proof.
  intros HS r c H. destruct (HS r c H) as [A K]. split; [exact A|].
  intros _. apply K. discriminate.
Qed.

Lemma sched_sameQ w r c c' st :
  Sched w st -> store st !! r = Some c -> sameQ c c' -> Sched w (putConn r c' st).
Proof.
  intros HS Hc (Q1 & Q2 & Q3 & Q4 & _) .
  destruct (HS r c Hc) as [A K].
  eapply (sched_frame w w r c' st); [exact HS | reflexivity | | | | |].
  - intros tid r' t0 text0 _ Hx. exact Hx.
  - intros r' _ Hin. exact Hin.
  - intros r' _ Hw. exact Hw.
  - intros Hf. rewrite Q3 in Hf. rewrite Q4. exact (A Hf).
  - intros Hw Hd Hf Hq. rewrite Q1 in Hd. rewrite Q3 in Hf. rewrite Q2 in Hq.
    exact (K Hw Hd Hf Hq).
Qed.

Lemma sendNext_sched r st :
  tfresh st -> Sched (Some r) st -> Sched None (_sendNextCommand r st).
Proof.
  intros Hfr HS. unfold _sendNextCommand.
  assert (Hstay : (forall c, store st !! r = Some c ->
                     _cmdInFlight c = false -> _cmdQueue c = []) -> Sched None st).
  { intros Hq r0 c0 H0. destruct (HS r0 c0 H0) as [A K]. split; [exact A|].
    intros _. destruct (decide (r0 = r)) as [->|Hne].
    - intros Hd Hf Hne. destruct (Hne (Hq c0 H0 Hf)).
    - apply K. congruence. }
  destruct (store st !! r) as [c|] eqn:Hc; [|apply Hstay; discriminate].
  destruct (_cmdQueue c) as [|e rest] eqn:Eq.
  { apply Hstay. intros c0 [= <-] _. exact Eq. }
  destruct (_cmdInFlight c) eqn:Ef.
  { apply Hstay. intros c0 [= <-]. congruence. }
  cbn [addTimer].
  eapply (sched_frame (Some r) None r _ st); [exact HS | reflexivity | | | | |].
  - intros tid r' t text Hne Htm. cbn.
    rewrite lookup_insert_ne; [exact Htm|]. apply Hfr in Htm. lia.
  - auto.
  - intros r' Hne _. congruence.
  - intros _. exists (ticket e), (nextTimer st), (cmd e). split.
    + unfold socketWrite. cbn. destruct (socket_destroyed c); reflexivity.
    + cbn. apply lookup_insert_eq.
  - intros _ _ Hf. exfalso. revert Hf. unfold socketWrite. cbn.
    destruct (socket_destroyed c); discriminate.
Qed.

Lemma sendCommand_sched mac text st :
  tfresh st -> Sched None st -> Sched None (snd (_sendCommand mac text st)).
Proof.
  intros Hfr HS. unfold _sendCommand.
  destruct (connOf mac st) as [[r c]|] eqn:Hconn; [|exact HS].
  apply connOf_inv in Hconn as [_ Hc]. cbn [snd].
  destruct (HS r c Hc) as [A K].
  set (c1 := set_issued _ _).
  assert (H1 : Sched (Some r) (putConn r c1 st)).
  { eapply (sched_frame None (Some r) r c1 st); [exact HS | reflexivity | | | | |].
    - intros tid r' t0 text0 _ Hx. exact Hx.
    - intros r' _ Hin. exact Hin.
    - intros r' _ _. discriminate.
    - exact A.
    - intros Hw. destruct Hw. reflexivity. }
  destruct (length (_cmdQueue c1) =? 1)%nat eqn:El.
  - apply sendNext_sched; [exact Hfr | exact H1].
  - eapply (sched_frame None None r c1 st); [exact HS | reflexivity | | | | |].
    + intros tid r' t0 text0 _ Hx. exact Hx.
    + intros r' _ Hin. exact Hin.
    + intros r' _ _. discriminate.
    + exact A.
    + intros _ Hd Hf _. apply K; [discriminate | exact Hd | exact Hf |].
      intros Hq. subst c1. cbn in El. rewrite Hq in El. discriminate.
Qed.

Lemma response_sched r c t tid o st :
  Inv None st -> Sched None st ->
  store st !! r = Some c -> _pending c = Some (t, tid) ->
  Sched None (set_immediates (immediates st ++ [r])
                (putConn r (afterResponse t o c) (clearTimer tid st))).
Proof.
  intros HI HS Hc Hp.
  destruct (inv_pending _ _ HI _ _ _ _ Hc Hp) as (_ & _ & Hown).
  eapply (sched_frame None None r _ st); [exact HS | reflexivity | | | | |].
  - intros tid0 r' t0 text Hne Htm. cbn.
    rewrite lookup_delete_ne; [exact Htm|].
    intros <-. destruct (Hown _ Htm) as (? & [=]). congruence.
  - intros r' _ Hin. cbn. apply elem_of_app. left. exact Hin.
  - auto.
  - intros Hf. exfalso. revert Hf. unfold afterResponse, settle.
    case_bool_decide; discriminate.
  - intros _ _ _ _. cbn. apply elem_of_app. right. left.
Qed.

Lemma processLine_sched mac line r st :
  Inv None st -> Sched None st -> Sched None (_processLine mac line r st).
Proof.
  intros HI HS. unfold _processLine.
  destruct (store st !! r) as [c|] eqn:Hc; [|exact HS].
  destruct (String.eqb line "OK").
  { destruct (_pending c) as [[t tid]|] eqn:Hp; [|exact HS].
    cbv zeta. rewrite (complete_state r c) by exact Hc.
    apply response_sched; assumption. }
  destruct (Js.startsWith line "ERROR" || Js.startsWith line "+CME ERROR").
  { destruct (_pending c) as [[t tid]|] eqn:Hp; [|exact HS].
    cbv zeta. rewrite (complete_state r c) by exact Hc.
    apply response_sched; assumption. }
  pose proof (unsolicited_sameQ mac line c) as HQ.
  destruct (unsolicited mac line c) as [c1 evs]. simpl in HQ.
  exact (sched_sameQ None r c c1 st HS Hc HQ).
Qed.

Lemma processLines_sched mac lines r : forall st,
  Inv None st -> Sched None st -> Sched None (processLines mac lines r st).
Proof.
  induction lines as [|l lines IH]; intros st HI HS; simpl; [exact HS|].
  destruct (Js.trim l) as [|a s]; [apply IH; assumption|].
  apply IH; [apply processLine_inv, HI | apply processLine_sched; assumption].
Qed.

Lemma onData_sched mac data st :
  Inv None st -> Sched None st -> Sched None (_onData mac data st).
Proof.
  intros HI HS. unfold _onData.
  destruct (connOf mac st) as [[r c]|] eqn:Hconn; [|exact HS].
  apply connOf_inv in Hconn as [_ Hc].
  apply processLines_sched.
  - eapply inv_sameQ; eauto. repeat split.
  - eapply sched_sameQ; eauto. repeat split.
Qed.

Lemma inv_fresh st : Inv None st -> tfresh st.
Proof. intros HI tid x H. eapply inv_tfresh; eauto. Qed.

Lemma timeout_sched tid r t text st :
  Inv None st -> Sched None st ->
  timers st !! tid = Some (AtTimeout r t text) ->
  Sched None (onAtTimeout r t text (clearTimer tid st)).
Proof.
  intros HI HS Htm. unfold onAtTimeout. cbn [store clearTimer set_timers].
  destruct (store st !! r) as [c|] eqn:Hc.
  2:{ destruct (inv_timeout _ _ HI _ _ _ _ Htm) as (c0 & H0 & _). congruence. }
  apply sendNext_sched.
  { intros tid0 x. cbn. intros Hx. apply lookup_delete_Some in Hx as [_ Hx].
    eapply inv_tfresh; eauto. }
  eapply (sched_frame None (Some r) r _ st); [exact HS | reflexivity | | | | |].
  - intros tid0 r' t0 text0 Hne Hx. cbn. rewrite lookup_delete_ne; [exact Hx|].
    intros <-. congruence.
  - auto.
  - discriminate.
  - intros Hf. exfalso. revert Hf. unfold settle. case_bool_decide; discriminate.
  - congruence.
Qed.

Lemma rejectAll_flags q : forall c,
  _cmdInFlight (rejectAll q c) = _cmdInFlight c /\ _pending (rejectAll q c) = _pending c.
Proof.
  induction q as [|e q IH]; intros c; [auto|].
  change (rejectAll (e :: q) c) with (rejectAll q (settle (ticket e) closedError c)).
  destruct (IH (settle (ticket e) closedError c)) as [-> ->].
  unfold settle. case_bool_decide; auto.
Qed.

Lemma cleanup_sched mac st :
  Inv None st -> Sched None st -> Sched None (_cleanup mac st).
Proof.
  intros HI HS. unfold _cleanup.
  destruct (connOf mac st) as [[r c]|] eqn:Hconn; [|exact HS].
  apply connOf_inv in Hconn as [_ Hc].
  destruct (HS r c Hc) as [A _].
  destruct (rejectAll_flags (_cmdQueue c) c) as [Hf Hp].
  assert (Hk : forall tid r' t text,
            timers st !! tid = Some (AtTimeout r' t text) ->
            timers (match _keepaliveTimer c with
                    | Some k => clearTimer k st
                    | None => st
                    end) !! tid = Some (AtTimeout r' t text)).
  { intros tid r' t text Hx. destruct (_keepaliveTimer c) as [k|] eqn:Ek; [|exact Hx].
    cbn. rewrite lookup_delete_ne; [exact Hx|]. intros <-.
    destruct (inv_keepalive _ _ HI _ _ _ Hc Ek) as [_ Hown].
    destruct (Hown _ Hx) as (? & [=]). }
  eapply (sched_frame None None r _ st); [exact HS | | | | | |].
  - cbn. destruct (_keepaliveTimer c); reflexivity.
  - intros tid r' t text _ Hx. cbn. apply Hk, Hx.
  - intros r' _ Hin. cbn. destruct (_keepaliveTimer c); exact Hin.
  - auto.
  - intros Hfl. cbn in Hfl. rewrite Hf in Hfl.
    destruct (A Hfl) as (t & tid & text & Hp0 & Hx).
    exists t, tid, text. cbn. rewrite Hp. split; [exact Hp0 | apply Hk, Hx].
  - intros _ Hd. cbn in Hd. discriminate.
Qed.

Lemma startKeepalive_sched mac st :
  Inv None st -> Sched None st -> Sched None (_startKeepalive mac st).
Proof.
  intros HI HS. unfold _startKeepalive.
  destruct (connOf mac st) as [[r c]|] eqn:Hconn; [|exact HS].
  apply connOf_inv in Hconn as [_ Hc].
  destruct (HS r c Hc) as [A K].
  assert (Hk : forall tid r' t text,
            timers st !! tid = Some (AtTimeout r' t text) ->
            timers (addTimer (Keepalive r mac)
                      (match _keepaliveTimer c with
                       | Some k => clearTimer k st
                       | None => st
                       end)).2 !! tid = Some (AtTimeout r' t text)).
  { intros tid r' t text Hx. pose proof (inv_tfresh _ _ HI _ _ Hx) as Hlt.
    destruct (_keepaliveTimer c) as [k|] eqn:Ek; cbn.
    - rewrite lookup_insert_ne by lia. rewrite lookup_delete_ne; [exact Hx|]. intros <-.
      destruct (inv_keepalive _ _ HI _ _ _ Hc Ek) as [_ Hown].
      destruct (Hown _ Hx) as (? & [=]).
    - rewrite lookup_insert_ne by lia. exact Hx. }
  destruct (addTimer (Keepalive r mac) _) as [tid st2] eqn:Ea.
  assert (Hst : store st2 = store st /\ immediates st2 = immediates st).
  { unfold addTimer in Ea. injection Ea as _ <-. destruct (_keepaliveTimer c); auto. }
  destruct Hst as [Hs2 Hi2]. cbn [snd] in Hk.
  eapply (sched_frame None None r _ st); [exact HS | | | | | |].
  - cbn. rewrite Hs2. reflexivity.
  - intros tid0 r' t text _ Hx. cbn. apply Hk, Hx.
  - intros r' _ Hin. cbn. rewrite Hi2. exact Hin.
  - auto.
  - intros Hf. cbn in Hf. destruct (A Hf) as (t & tid0 & text & Hp0 & Hx).
    exists t, tid0, text. cbn. split; [exact Hp0 | apply Hk, Hx].
  - intros Hw Hd Hf Hq. cbn in *. rewrite Hi2. apply K; auto.
Qed.

Lemma slcEstablished_sched mac st :
  Inv None st -> Sched None st -> Sched None (slcEstablished mac st).
Proof.
  intros HI HS. unfold slcEstablished.
  destruct (connOf mac st) as [[r c]|] eqn:Hconn; [|exact HS].
  apply connOf_inv in Hconn as [_ Hc].
  assert (HQ : sameQ c (set_slcReady true c)) by (repeat split).
  change (Sched None (_startKeepalive mac (putConn r (set_slcReady true c) st))).
  apply startKeepalive_sched.
  - eapply inv_sameQ; eauto.
  - eapply sched_sameQ; eauto.
Qed.

Lemma newConnection_sched path st :
  Inv None st -> Sched None st -> Sched None (_onNewConnection path st).
Proof.
  intros HI HS. unfold _onNewConnection. cbv zeta.
  apply sendCommand_sched.
  { intros tid x Hx. exact (inv_tfresh _ _ HI tid x Hx). }
  set (mac := _devicePathToMac path).
  assert (Hnew : store st !! nextRef st = None).
  { destruct (store st !! nextRef st) eqn:E; [|reflexivity].
    apply (inv_refs _ _ HI) in E. lia. }
  intros r c. cbn. destruct (decide (r = nextRef st)) as [->|Hne].
  - rewrite lookup_insert_eq. intros [= <-]. split.
    + intros Hf. discriminate.
    + intros _ _ _ Hq. destruct Hq. reflexivity.
  - rewrite lookup_insert_ne by congruence. intros H0. exact (HS r c H0).
Qed.

Lemma step_sched a st : Inv None st -> Sched None st -> Sched None (step a st).
Proof.
  intros HI HS. destruct a; cbn [step].
  - apply newConnection_sched; assumption.
  - apply cleanup_sched; assumption.
  - apply onData_sched; assumption.
  - apply cleanup_sched; assumption.
  - apply cleanup_sched; assumption.
  - destruct (timers st !! tid) as [[r t text|r mac]|] eqn:Htm; [| |exact HS].
    + apply timeout_sched; assumption.
    + unfold onKeepalive. destruct (store st !! r) as [c|]; [|exact HS].
      destruct (slcReady c); [|exact HS].
      apply sendCommand_sched; [apply inv_fresh, HI | exact HS].
  - destruct (immediates st) as [|r rest] eqn:Ei; [exact HS|].
    apply sendNext_sched.
    { intros tid x Hx. exact (inv_tfresh _ _ HI tid x Hx). }
    intros r0 c0 H0. cbn in H0. destruct (HS r0 c0 H0) as [A K]. split; [exact A|].
    intros Hne Hd Hf Hq. cbn.
    assert (Hin : r0 ∈ immediates st) by (apply K; auto; discriminate).
    rewrite Ei in Hin. apply elem_of_cons in Hin as [->|Hin]; [congruence | exact Hin].
  - apply sendCommand_sched; [apply inv_fresh, HI | exact HS].
  - apply sendCommand_sched; [apply inv_fresh, HI | exact HS].
  - apply slcEstablished_sched; assumption.
  - apply cleanup_sched; assumption.
Qed.

Lemma run_sched acts : forall st, Inv None st -> Sched None st -> Sched None (run acts st).
Proof.
  unfold run. induction acts as [|a acts IH]; intros st HI HS; simpl; [exact HS|].
  apply IH; [apply step_inv, HI | apply step_sched; assumption].
Qed.

Lemma init_sched : Sched None init.
Proof. intros r c H. cbn in H. rewrite lookup_empty in H. discriminate. Qed.

(** X27: no command is stranded. In every state the engine can reach, a
    live connection with commands in its queue either has the head of
    the queue in flight, and then the time-out of that command is
    pending, so that the command completes by a response or by its
    time-out; or it has nothing in flight, and then a send is scheduled
    for it. *)
Theorem no_command_is_stranded (acts : list action) (r : nat) (c : conn) :
  let st := run acts init in
  store st !! r = Some c ->
  socket_destroyed c = false ->
  _cmdQueue c <> [] ->
  (_cmdInFlight c = true /\
   exists e rest tid text,
     _cmdQueue c = e :: rest /\ _pending c = Some (ticket e, tid) /\
     timers st !! tid = Some (AtTimeout r (ticket e) text)) \/
  (_cmdInFlight c = false /\ r ∈ immediates st).
Proof.
  intros st Hc Hd Hq.
  pose proof (run_inv acts init init_inv) as HI. fold st in HI.
  pose proof (run_sched acts init init_inv init_sched) as HS. fold st in HS.
  destruct (HS r c Hc) as [A K].
  destruct (_cmdInFlight c) eqn:Ef.
  - left. split; [reflexivity|].
    destruct (A Ef) as (t & tid & text & Hp & Htm).
    pose proof (inv_queue _ _ HI _ _ Hc) as (m & _ & _ & _ & H4).
    rewrite Hd, Ef in H4. destruct H4 as (e & rest & tid' & Hq' & Hp' & _).
    rewrite Hp in Hp'. injection Hp' as -> ->.
    exists e, rest, tid', text. auto.
  - right. split; [reflexivity|]. apply K; auto.
Qed.

Lemma no_command_is_stranded_witness :
  let acts := [NewConnection "/org/bluez/hci0/dev_AA_BB_CC_DD_EE_FF";
               Operation answer "AA:BB:CC:DD:EE:FF";
               SocketData "AA:BB:CC:DD:EE:FF" ("OK" +:+ String "013" "")] in
  let st := run acts init in
  exists c, store st !! 0 = Some c /\
    ((_cmdInFlight c = true /\
      exists e rest tid text,
        _cmdQueue c = e :: rest /\ _pending c = Some (ticket e, tid) /\
        timers st !! tid = Some (AtTimeout 0 (ticket e) text)) \/
     (_cmdInFlight c = false /\ 0 ∈ immediates st)).
Proof.
  intros acts st. eexists. split; [vm_compute; reflexivity|].
  apply (no_command_is_stranded acts 0).
  - vm_compute. reflexivity.
  - vm_compute. reflexivity.
  - vm_compute. discriminate.
Defined.

End Liveness.

(** ** Device ids of the adapter *)

Section DeviceIds.
Import BluezPath AdapterIds.

Lemma upperHex_chars c :
  isUpperHex c = true ->
  isDash c = false /\ isColon c = false /\ Ascii.eqb c "." = false /\
  Js.upperChar c = c.
Proof.
  destruct c as [[] [] [] [] [] [] [] []]; vm_compute; intuition congruence.
Qed.

Lemma dashOctet_inv s r :
  dashOctet s = Some r ->
  exists a b, s = String "-" (String a (String b r))
              /\ isUpperHex a = true /\ isUpperHex b = true.
Proof.
  destruct s as [|c t]; simpl; try discriminate.
  destruct (Ascii.eqb_spec c "-") as [->|Hne].
  - intros H. apply upperOctet_inv in H as (a & b & -> & Ha & Hb). eauto.
  - destruct c as [[] [] [] [] [] [] [] []]; try discriminate.
    exfalso. apply Hne. reflexivity.
Qed.

Lemma dashed_inv p :
  isDashedMac p = true ->
  exists a1 b1 a2 b2 a3 b3 a4 b4 a5 b5 a6 b6,
    p = String a1 (String b1 (String "-" (String a2 (String b2 (String "-"
        (String a3 (String b3 (String "-" (String a4 (String b4 (String "-"
        (String a5 (String b5 (String "-" (String a6 (String b6 ""))))))))))))))))
    /\ Forall (fun c => isUpperHex c = true)
              [a1; b1; a2; b2; a3; b3; a4; b4; a5; b5; a6; b6].
Proof.
  unfold isDashedMac, sixTimes. intros H.
  destruct (upperOctet p) as [r1|] eqn:E1; simpl in H; [|discriminate].
  destruct (dashOctet r1) as [r2|] eqn:E2; simpl in H; [|discriminate].
  destruct (dashOctet r2) as [r3|] eqn:E3; simpl in H; [|discriminate].
  destruct (dashOctet r3) as [r4|] eqn:E4; simpl in H; [|discriminate].
  destruct (dashOctet r4) as [r5|] eqn:E5; simpl in H; [|discriminate].
  destruct (dashOctet r5) as [r6|] eqn:E6; simpl in H; [|discriminate].
  destruct r6; [|discriminate].
  apply upperOctet_inv in E1 as (a1 & b1 & -> & ? & ?).
  apply dashOctet_inv in E2 as (a2 & b2 & -> & ? & ?).
  apply dashOctet_inv in E3 as (a3 & b3 & -> & ? & ?).
  apply dashOctet_inv in E4 as (a4 & b4 & -> & ? & ?).
  apply dashOctet_inv in E5 as (a5 & b5 & -> & ? & ?).
  apply dashOctet_inv in E6 as (a6 & b6 & -> & ? & ?).
  exists a1, b1, a2, b2, a3, b3, a4, b4, a5, b5, a6, b6.
  split; [reflexivity|]. repeat constructor; assumption.
Qed.

Lemma upperOctet_hit a b r :
  isUpperHex a = true -> isUpperHex b = true ->
  upperOctet (String a (String b r)) = Some r.
Proof. intros Ha Hb. simpl. rewrite Ha, Hb. reflexivity. Qed.

Lemma colon_char c :
  isUpperHex c = true -> (if isDash c then ":"%char else c) = c.
Proof. intros H. destruct (upperHex_chars c H) as (-> & _). reflexivity. Qed.

Lemma dash_char c :
  isUpperHex c = true -> Js.upperChar (if isColon c then "-"%char else c) = c.
Proof. intros H. destruct (upperHex_chars c H) as (_ & -> & _ & Hu). exact Hu. Qed.

Lemma normalise_hex c :
  isUpperHex c = true ->
  Js.upperChar (if Ascii.eqb c "-" then ":"%char else c) = c.
Proof.
  intros H. destruct (upperHex_chars c H) as (Hd & _ & _ & Hu).
  unfold isDash in Hd. rewrite Hd. exact Hu.
Qed.

Ltac each_hex lem :=
  repeat match goal with
  | H : isUpperHex ?c = true |- _ => rewrite (lem c H)
  end.

(** The parts of an id that starts with a text without dots. *)
Lemma split_first s rest :
  Js.allChars (fun c => negb (Ascii.eqb c ".")) s = true ->
  Js.split "." (s +:+ String "." rest) = s :: Js.split "." rest.
Proof.
  induction s as [|c s IH]; intros H.
  - reflexivity.
  - cbn [Js.allChars] in H. apply andb_true_iff in H as [Hc Hs].
    apply negb_true_iff in Hc.
    cbn [append Js.split]. rewrite Hc, (IH Hs). reflexivity.
Qed.

Lemma split_whole s :
  Js.allChars (fun c => negb (Ascii.eqb c ".")) s = true -> Js.split "." s = [s].
Proof.
  induction s as [|c s IH]; intros H.
  - reflexivity.
  - cbn [Js.allChars] in H. apply andb_true_iff in H as [Hc Hs].
    apply negb_true_iff in Hc.
    cbn [Js.split]. rewrite Hc, (IH Hs). reflexivity.
Qed.

Lemma dashed_no_dot p :
  isDashedMac p = true -> Js.allChars (fun c => negb (Ascii.eqb c ".")) p = true.
Proof.
  intros H. apply dashed_inv in H
    as (a1 & b1 & a2 & b2 & a3 & b3 & a4 & b4 & a5 & b5 & a6 & b6 & -> & HF).
  repeat (apply Forall_cons_1 in HF as [? HF]).
  cbn [Js.allChars].
  repeat match goal with
  | H : isUpperHex ?c = true |- context [Ascii.eqb ?c "."] =>
      rewrite (proj1 (proj2 (proj2 (upperHex_chars c H))))
  end.
  reflexivity.
Qed.

(** X28: the address that [_extractMacFromId] finds in a state id is one
    of the parts of the id between dots, and with its dashes turned to
    colons, as [onStateChange] hands it to the libraries, it is a
    canonical MAC address: the normalisation of both libraries leaves it
    alone, and the device id of the event handlers made from it is the
    part that was found. *)
Theorem extracted_mac_is_canonical (localId mac : string) :
  _extractMacFromId localId = Some mac ->
  In mac (Js.split "." localId) /\
  isCanonicalMac (toColons mac) = true /\
  Hfp._normalise (toColons mac) = toColons mac /\
  _normaliseMac (toColons mac) = toColons mac /\
  devIdOf (toColons mac) = mac.
Proof.
  unfold _extractMacFromId. intros H. apply find_some in H as [Hin Hd].
  split; [exact Hin|].
  apply dashed_inv in Hd
    as (a1 & b1 & a2 & b2 & a3 & b3 & a4 & b4 & a5 & b5 & a6 & b6 & -> & HF).
  repeat (apply Forall_cons_1 in HF as [? HF]).
  assert (Hc : toColons
      (String a1 (String b1 (String "-" (String a2 (String b2 (String "-"
      (String a3 (String b3 (String "-" (String a4 (String b4 (String "-"
      (String a5 (String b5 (String "-" (String a6 (String b6 "")))))))))))))))))
    = String a1 (String b1 (String ":" (String a2 (String b2 (String ":"
      (String a3 (String b3 (String ":" (String a4 (String b4 (String ":"
      (String a5 (String b5 (String ":" (String a6 (String b6 ""))))))))))))))))).
  { unfold toColons, Js.replaceClass. cbn [Js.mapChars].
    each_hex colon_char. reflexivity. }
  rewrite Hc. split; [|split; [|split]].
  - unfold isCanonicalMac, sixTimes, colonOctet.
    repeat (rewrite upperOctet_hit by assumption; cbn [mbind option_bind]).
    reflexivity.
  - unfold Hfp._normalise, Js.toUpperCase, Js.replaceClass. cbn [Js.mapChars].
    each_hex normalise_hex. reflexivity.
  - unfold _normaliseMac, Js.toUpperCase, Js.replaceClass. cbn [Js.mapChars].
    each_hex colon_char. each_hex upperHex_upperChar. reflexivity.
  - unfold devIdOf, Js.toUpperCase, Js.replaceClass. cbn [Js.mapChars].
    each_hex dash_char. reflexivity.
Qed.

Lemma extracted_mac_is_canonical_witness :
  _extractMacFromId "AA-BB-CC-DD-EE-FF.telephony.actions.answer" = Some "AA-BB-CC-DD-EE-FF" /\
  isCanonicalMac (toColons "AA-BB-CC-DD-EE-FF") = true.
Proof.
  split; [reflexivity|].
  apply (extracted_mac_is_canonical "AA-BB-CC-DD-EE-FF.telephony.actions.answer"
           "AA-BB-CC-DD-EE-FF").
  reflexivity.
Defined.

(** X29: the states of a device lead back to it. For a canonical MAC
    address, as the libraries report it, the device id that the event
    handlers make from it is what [_extractMacFromId] finds in every
    state id below that device id, and turning its dashes to colons
    gives the address back. *)
Theorem state_id_leads_back (mac suffix : string) :
  isCanonicalMac mac = true ->
  _extractMacFromId (devIdOf mac +:+ String "." suffix) = Some (devIdOf mac) /\
  _extractMacFromId (devIdOf mac) = Some (devIdOf mac) /\
  toColons (devIdOf mac) = mac.
Proof.
  intros H. apply canonical_inv in H
    as (a1 & b1 & a2 & b2 & a3 & b3 & a4 & b4 & a5 & b5 & a6 & b6 & -> & HF).
  repeat (apply Forall_cons_1 in HF as [? HF]).
  assert (Hd : devIdOf
      (String a1 (String b1 (String ":" (String a2 (String b2 (String ":"
      (String a3 (String b3 (String ":" (String a4 (String b4 (String ":"
      (String a5 (String b5 (String ":" (String a6 (String b6 "")))))))))))))))))
    = String a1 (String b1 (String "-" (String a2 (String b2 (String "-"
      (String a3 (String b3 (String "-" (String a4 (String b4 (String "-"
      (String a5 (String b5 (String "-" (String a6 (String b6 ""))))))))))))))))).
  { unfold devIdOf, Js.toUpperCase, Js.replaceClass. cbn [Js.mapChars].
    each_hex dash_char. reflexivity. }
  rewrite Hd.
  assert (Hm : isDashedMac
      (String a1 (String b1 (String "-" (String a2 (String b2 (String "-"
      (String a3 (String b3 (String "-" (String a4 (String b4 (String "-"
      (String a5 (String b5 (String "-" (String a6 (String b6 "")))))))))))))))))
      = true).
  { unfold isDashedMac, sixTimes, dashOctet.
    repeat (rewrite upperOctet_hit by assumption; cbn [mbind option_bind]).
    reflexivity. }
  pose proof (dashed_no_dot _ Hm) as Hn.
  split; [|split].
  - unfold _extractMacFromId. rewrite (split_first _ suffix Hn).
    cbn [find]. rewrite Hm. reflexivity.
  - unfold _extractMacFromId. rewrite (split_whole _ Hn).
    cbn [find]. rewrite Hm. reflexivity.
  - unfold toColons, Js.replaceClass. cbn [Js.mapChars].
    each_hex colon_char. reflexivity.
Qed.

Lemma state_id_leads_back_witness :
  _extractMacFromId (devIdOf "AA:BB:CC:DD:EE:FF" +:+ String "." "telephony.actions.dial")
    = Some "AA-BB-CC-DD-EE-FF" /\
  toColons (devIdOf "AA:BB:CC:DD:EE:FF") = "AA:BB:CC:DD:EE:FF".
Proof.
  destruct (state_id_leads_back "AA:BB:CC:DD:EE:FF" "telephony.actions.dial" eq_refl)
    as (H1 & _ & H3).
  split; [exact H1 | exact H3].
Defined.

End DeviceIds.

(** ** Retrying the hands-free connection *)

Section HfpRetries.
Import AdapterRetry.

Lemma hfpDelay_bounds n : (5000 <= hfpDelay n <= 60000)%Z.
Proof.
  unfold hfpDelay.
  assert (1 <= 2 ^ Z.of_nat n)%Z by (apply Z.pow_le_mono_r with (b := 0%Z); lia).
  lia.
Qed.

Lemma hfpDelay_doubles n : n < 4 -> hfpDelay n = (5000 * 2 ^ Z.of_nat n)%Z.
Proof.
  intros H. unfold hfpDelay.
  assert (2 ^ Z.of_nat n <= 2 ^ 3)%Z by (apply Z.pow_le_mono_r; lia).
  change (2 ^ 3)%Z with 8%Z in *. lia.
Qed.

Lemma hfpDelay_capped n : 4 <= n -> hfpDelay n = 60000%Z.
Proof.
  intros H. unfold hfpDelay.
  assert (2 ^ 4 <= 2 ^ Z.of_nat n)%Z by (apply Z.pow_le_mono_r; lia).
  change (2 ^ 4)%Z with 16%Z in *. lia.
Qed.

(** The state after [n] calls in a row, up to the tenth. *)
Lemma retries_state mac a n :
  _stopping a = false -> hfp a = true ->
  _reconnect a !! ("hfp:" +:+ mac) = None ->
  (forall tid, is_Some (timers a !! tid) -> tid < nextTimer a) ->
  n < 10 ->
  Nat.iter (S n) (_scheduleHfpReconnect mac) a
  = {| _stopping := false; hfp := true;
       _reconnect := <["hfp:" +:+ mac := {| attempt := S n; timer := Some (nextTimer a + n) |}]>
                       (_reconnect a);
       timers := <[nextTimer a + n := HfpRetry mac (hfpDelay n)]> (timers a);
       nextTimer := S (nextTimer a + n) |}.
Proof.
  intros Hs Hh Hk Hf. induction n as [|n IH]; intros Hn.
  - cbn [Nat.iter nat_rect]. unfold _scheduleHfpReconnect.
    rewrite Hs, Hh, Hk. cbn. rewrite Nat.add_0_r. reflexivity.
  - rewrite (Nat.iter_succ (S n)).
    rewrite IH by lia. unfold _scheduleHfpReconnect.
    cbn [_stopping hfp _reconnect timers nextTimer orb negb].
    rewrite lookup_insert_eq. cbn [default from_option id attempt timer].
    destruct (10 <=? S n)%nat eqn:E; [apply Nat.leb_le in E; lia|].
    rewrite insert_insert_eq, delete_insert_eq.
    rewrite (delete_id (timers a)).
    + rewrite <- Nat.add_succ_comm. reflexivity.
    + destruct (timers a !! (nextTimer a + n)) eqn:Et; [|reflexivity].
      assert (nextTimer a + n < nextTimer a) by (apply Hf; eauto). lia.
Qed.

(** X30: retries of the hands-free connection back off and give up. On
    an adapter that is not stopping and has the profile, with no retry
    recorded for the device, the n-th call in a row of
    [_scheduleHfpReconnect] (n from 1 to 10) leaves exactly one retry
    pending for the device, the earlier one being cancelled; its delay
    is 5 s doubled n-1 times up to the fourth call and 60 s from the
    fifth, so always between 5 s and 60 s. The eleventh call schedules
    nothing and forgets the device. *)
Theorem hfp_retries_back_off (mac : string) (a : adapterState) (n : nat) :
  _stopping a = false -> hfp a = true ->
  _reconnect a !! ("hfp:" +:+ mac) = None ->
  (forall tid, is_Some (timers a !! tid) -> tid < nextTimer a) ->
  let after k := Nat.iter k (_scheduleHfpReconnect mac) a in
  (1 <= n <= 10 ->
   exists tid,
     _reconnect (after n) !! ("hfp:" +:+ mac) = Some {| attempt := n; timer := Some tid |} /\
     timers (after n) = <[tid := HfpRetry mac (hfpDelay (n - 1))]> (timers a) /\
     timers a !! tid = None /\
     (5000 <= hfpDelay (n - 1) <= 60000)%Z /\
     (n <= 4 -> hfpDelay (n - 1) = (5000 * 2 ^ Z.of_nat (n - 1))%Z) /\
     (5 <= n -> hfpDelay (n - 1) = 60000%Z)) /\
  _reconnect (after 11) !! ("hfp:" +:+ mac) = None /\
  timers (after 11) = timers (after 10).
Proof.
  intros Hs Hh Hk Hf after. split.
  - intros Hn. destruct n as [|n]; [lia|].
    subst after. cbv beta. rewrite retries_state by (assumption || lia).
    cbn [_reconnect timers]. replace (S n - 1) with n by lia.
    exists (nextTimer a + n). split; [apply lookup_insert_eq|].
    split; [reflexivity|]. split.
    { destruct (timers a !! (nextTimer a + n)) eqn:Et; [|reflexivity].
      assert (nextTimer a + n < nextTimer a) by (apply Hf; eauto). lia. }
    split; [apply hfpDelay_bounds|].
    split; [intros; apply hfpDelay_doubles; lia | intros; apply hfpDelay_capped; lia].
  - subst after. cbv beta.
    rewrite (Nat.iter_succ 10).
    rewrite (retries_state mac a 9) by (assumption || lia).
    unfold _scheduleHfpReconnect.
    cbn [_stopping hfp _reconnect timers nextTimer orb negb].
    rewrite lookup_insert_eq. cbn [default from_option id attempt timer Nat.leb].
    cbn [_reconnect timers]. split; [apply lookup_delete_eq | reflexivity].
Qed.

Lemma hfp_retries_back_off_witness :
  let after k := Nat.iter k (_scheduleHfpReconnect "AA:BB:CC:DD:EE:FF") newAdapter in
  timers (after 3) = <[2 := HfpRetry "AA:BB:CC:DD:EE:FF" 20000]> ∅ /\
  _reconnect (after 11) !! "hfp:AA:BB:CC:DD:EE:FF" = None.
Proof.
  intros after.
  assert (Hf : forall tid, is_Some (timers newAdapter !! tid) -> tid < nextTimer newAdapter).
  { intros tid [x Hx]. cbn in Hx. rewrite lookup_empty in Hx. discriminate. }
  destruct (hfp_retries_back_off "AA:BB:CC:DD:EE:FF" newAdapter 3
              eq_refl eq_refl eq_refl Hf) as [H1 [H2 _]].
  split; [|exact H2].
  destruct H1 as (tid & _ & Ht & _); [lia|].
  vm_compute. reflexivity.
Defined.

End HfpRetries.
